(** * Ruckig: jerk-limited online trajectory generation

    A shallow embedding of [include/ruckig/ruckig.hpp]: the seven-segment
    [Profile] with its feasibility check, the [Block] of feasible durations,
    the time synchronizer and the orchestrator ([calculate], [update],
    [at_time]) of the [Ruckig<DOFs>] class template.

    Conventions of the embedding.
    - A C++ [double] is a binary64 float of the kernel ([PrimFloat.float]);
      comparisons are the IEEE ones ([<?], [<=?]), so a NaN compares false
      and [infinity] is a value like any other.
    - A [std::array<T, N>] is a [list T] of length [N]; [a[i]] is the total
      lookup [a !!! i] and [a[i] = x] is [<[i := x]> a].  Every index the
      source computes is in range for arrays of the declared length; the
      theorems that read an array back assume those lengths.
    - A [std::optional<T>] is an [option T]; [.value()] on an empty optional
      throws [std::bad_optional_access].
    - A member function that mutates its object or its reference arguments
      is a function from the state before to an outcome and the state after;
      a thrown exception keeps the mutations made before the throw. *)

From Stdlib Require Import Floats ZArith List Bool Lia Permutation Sorted String.
From stdpp Require Import base list option sets.
Import ListNotations.

Set Warnings "-inexact-float".

#[global] Instance float_inhabited : Inhabited float := populate 0%float.

(** ** Exceptions and the state-and-exception monad *)

(** Where [calculate] gives up: the messages of the three
    [std::runtime_error]s are kept as the stage they name. *)
Inductive stage :=
| in_step1 (dof : nat)
| in_synchronization
| in_step2 (dof : nat).

Inductive exn :=
| runtime_error (where_ : stage)
| bad_optional_access.

Inductive outcome (A : Type) :=
| Ret (x : A)
| Throw (e : exn).
Arguments Ret {A} x.
Arguments Throw {A} e.

Definition M (S A : Type) : Type := S -> outcome A * S.

Definition throw {S A} (e : exn) : M S A := fun s => (Throw e, s).
Definition get {S} : M S S := fun s => (Ret s, s).
Definition modify {S} (f : S -> S) : M S unit := fun s => (Ret tt, f s).

(** [M S] with stdpp's monad notations: [x ← m; k] runs [m], and runs [k]
    on its result unless [m] threw. *)
#[global] Instance M_ret {S} : MRet (M S) := fun A x s => (Ret x, s).
#[global] Instance M_bind {S} : MBind (M S) := fun A B k m s =>
  match m s with
  | (Ret x, s') => k x s'
  | (Throw e, s') => (Throw e, s')
  end.

(** [std::optional<T>::value()]. *)
Definition value {S A} (o : option A) : M S A :=
  match o with
  | Some x => mret x
  | None => throw bad_optional_access
  end.

(** [std::optional<T>::has_value()], also the conversion to [bool]. *)
Definition has_value {A} (o : option A) : bool :=
  match o with
  | Some _ => true
  | None => false
  end.

(** [std::optional<T>::value_or(d)]. *)
Definition value_or {A} (o : option A) (d : A) : A :=
  match o with
  | Some x => x
  | None => d
  end.

(** ** Profile *)

Module Profile.
Local Open Scope float_scope.

Inductive Limits :=
| ACC0_ACC1_VEL | VEL | ACC0 | ACC1 | ACC0_ACC1 | ACC0_VEL | ACC1_VEL | NONE.
Inductive Direction := UP | DOWN.
Inductive Teeth := UDDU | UDUD.

Record Profile := mkProfile {
  limits : Limits;
  direction : Direction;
  teeth : Teeth;
  t : list float;       (* std::array<double, 7> *)
  t_sum : list float;   (* std::array<double, 7> *)
  j : list float;       (* std::array<double, 7> *)
  a : list float;       (* std::array<double, 8> *)
  v : list float;       (* std::array<double, 8> *)
  p : list float;       (* std::array<double, 8> *)
  t_brake : option float;
  t_brakes : list float; (* std::array<double, 2>, as the four below *)
  j_brakes : list float;
  a_brakes : list float;
  v_brakes : list float;
  p_brakes : list float
}.

Definition with_t_sum (pr : Profile) (x : list float) : Profile :=
  mkProfile (limits pr) (direction pr) (teeth pr) (t pr) x (j pr) (a pr) (v pr)
    (p pr) (t_brake pr) (t_brakes pr) (j_brakes pr) (a_brakes pr) (v_brakes pr)
    (p_brakes pr).
Definition with_j (pr : Profile) (x : list float) : Profile :=
  mkProfile (limits pr) (direction pr) (teeth pr) (t pr) (t_sum pr) x (a pr) (v pr)
    (p pr) (t_brake pr) (t_brakes pr) (j_brakes pr) (a_brakes pr) (v_brakes pr)
    (p_brakes pr).
Definition with_a (pr : Profile) (x : list float) : Profile :=
  mkProfile (limits pr) (direction pr) (teeth pr) (t pr) (t_sum pr) (j pr) x (v pr)
    (p pr) (t_brake pr) (t_brakes pr) (j_brakes pr) (a_brakes pr) (v_brakes pr)
    (p_brakes pr).
Definition with_v (pr : Profile) (x : list float) : Profile :=
  mkProfile (limits pr) (direction pr) (teeth pr) (t pr) (t_sum pr) (j pr) (a pr) x
    (p pr) (t_brake pr) (t_brakes pr) (j_brakes pr) (a_brakes pr) (v_brakes pr)
    (p_brakes pr).
Definition with_p (pr : Profile) (x : list float) : Profile :=
  mkProfile (limits pr) (direction pr) (teeth pr) (t pr) (t_sum pr) (j pr) (a pr)
    (v pr) x (t_brake pr) (t_brakes pr) (j_brakes pr) (a_brakes pr) (v_brakes pr)
    (p_brakes pr).
Definition with_t_brake (pr : Profile) (x : option float) : Profile :=
  mkProfile (limits pr) (direction pr) (teeth pr) (t pr) (t_sum pr) (j pr) (a pr)
    (v pr) (p pr) x (t_brakes pr) (j_brakes pr) (a_brakes pr) (v_brakes pr)
    (p_brakes pr).
Definition with_brakes (pr : Profile) (ts js : list float) : Profile :=
  mkProfile (limits pr) (direction pr) (teeth pr) (t pr) (t_sum pr) (j pr) (a pr)
    (v pr) (p pr) (t_brake pr) ts js (a_brakes pr) (v_brakes pr) (p_brakes pr).
Definition with_pva_brakes (pr : Profile) (ps vs as_ : list float) : Profile :=
  mkProfile (limits pr) (direction pr) (teeth pr) (t pr) (t_sum pr) (j pr) (a pr)
    (v pr) (p pr) (t_brake pr) (t_brakes pr) (j_brakes pr) as_ vs ps.

(** The array sizes the struct declares. *)
Definition sized (pr : Profile) : Prop :=
  length (t pr) = 7%nat /\ length (t_sum pr) = 7%nat /\ length (j pr) = 7%nat /\
  length (a pr) = 8%nat /\ length (v pr) = 8%nat /\ length (p pr) = 8%nat.

(** *** [check<teeth>(pf, vf, af, jf, vMax, aMax)] *)

(** [j = {jf, 0, -jf, 0, -jf, 0, jf}] or [{jf, 0, -jf, 0, jf, 0, -jf}]. *)
Definition fill_j (tth : Teeth) (jf : float) (pr : Profile) : Profile :=
  with_j pr match tth with
            | UDDU => [jf; 0; -jf; 0; -jf; 0; jf]
            | UDUD => [jf; 0; -jf; 0; jf; 0; -jf]
            end.

(** The loop [for (i = 0; i < 6; i += 1)] from index [i] with [n]
    iterations left; [false] is the early [return false]. *)
Fixpoint t_sum_loop (n i : nat) (pr : Profile) : bool * Profile :=
  match n with
  | O => (true, pr)
  | S n' =>
      if t pr !!! (i + 1)%nat <? 0 then (false, pr)
      else t_sum_loop n' (S i)
             (with_t_sum pr
                (<[(i + 1)%nat := t_sum pr !!! i + t pr !!! (i + 1)%nat]> (t_sum pr)))
  end.

(** One iteration of the loop [for (i = 0; i < 7; i += 1)]: the three
    assignments in the order of the source. *)
Definition integrate_step (pr : Profile) (i : nat) : Profile :=
  let pr1 := with_a pr
    (<[(i + 1)%nat := a pr !!! i + t pr !!! i * j pr !!! i]> (a pr)) in
  let pr2 := with_v pr1
    (<[(i + 1)%nat := v pr1 !!! i
         + t pr1 !!! i * (a pr1 !!! i + t pr1 !!! i * j pr1 !!! i / 2)]> (v pr1)) in
  with_p pr2
    (<[(i + 1)%nat := p pr2 !!! i
         + t pr2 !!! i * (v pr2 !!! i
             + t pr2 !!! i * (a pr2 !!! i / 2 + t pr2 !!! i * j pr2 !!! i / 6))]>
       (p pr2)).

Definition integrate_loop (pr : Profile) : Profile :=
  fold_left integrate_step (seq 0 7) pr.

(** The value returned after the two loops. *)
Definition within_limits (pr : Profile) (pf vf af vMax aMax : float) : bool :=
  forallb (fun vm => abs vm <? abs vMax + 1e-9) (drop 3 (v pr))
  && forallb (fun am => abs am <? abs aMax + 1e-9) (drop 2 (a pr))
  && (abs (p pr !!! 7%nat - pf) <? 1e-8)
  && (abs (v pr !!! 7%nat - vf) <? 1e-8)
  && (abs (a pr !!! 7%nat - af) <? 1e-8).

Definition check (tth : Teeth) (pf vf af jf vMax aMax : float) (pr : Profile)
  : bool * Profile :=
  let pr := fill_j tth jf pr in
  let pr := with_t_sum pr (<[0%nat := t pr !!! 0%nat]> (t_sum pr)) in
  if t pr !!! 0%nat <? 0 then (false, pr)
  else
    match t_sum_loop 6 0 pr with
    | (false, pr) => (false, pr)
    | (true, pr) =>
        let pr := integrate_loop pr in
        (within_limits pr pf vf af vMax aMax, pr)
    end.

(** The overload with a total duration [tf]. *)
Definition check_tf (tth : Teeth) (tf pf vf af jf vMax aMax : float) (pr : Profile)
  : bool * Profile :=
  match check tth pf vf af jf vMax aMax pr with
  | (true, pr') => (abs (t_sum pr' !!! 6%nat - tf) <? 1e-8, pr')
  | (false, pr') => (false, pr')
  end.

(** The overload with a total duration [tf] and a jerk limit [jMax]. *)
Definition check_tf_jMax (tth : Teeth) (tf pf vf af jf vMax aMax jMax : float)
    (pr : Profile) : bool * Profile :=
  if abs jf <? abs jMax + 1e-12
  then check_tf tth tf pf vf af jf vMax aMax pr
  else (false, pr).

(** Modelled from the spec: [Profile::integrate] is declared in the header
    and defined elsewhere; section 4.1 gives
    [p = p0 + v0 t + a0 t^2/2 + j t^3/6], [v = v0 + a0 t + j t^2/2],
    [a = a0 + j t]. *)
Definition integrate (t p0 v0 a0 j : float) : float * float * float :=
  (p0 + v0 * t + a0 * (t * t) / 2 + j * (t * t * t) / 6,
   v0 + a0 * t + j * (t * t) / 2,
   a0 + j * t).
End Profile.

#[global] Instance Profile_inhabited : Inhabited Profile.Profile :=
  populate (Profile.mkProfile Profile.NONE Profile.UP Profile.UDDU
              [] [] [] [] [] [] None [] [] [] [] []).

(** ** Block: which durations are possible for synchronization *)

Module Block.
Local Open Scope float_scope.

Record Interval := mkInterval { left : float; right : float }.

Record Block := mkBlock {
  t_min : float;
  p_min : Profile.Profile;
  a : option Interval;
  b : option Interval;
  p_a : option Profile.Profile;
  p_b : option Profile.Profile
}.

(** [i && i->left < t && t < i->right]. *)
Definition inside (i : option Interval) (t : float) : bool :=
  match i with
  | Some i => (left i <? t) && (t <? right i)
  | None => false
  end.

Definition is_blocked (blk : Block) (t : float) : bool :=
  (t <? t_min blk) || inside (a blk) t || inside (b blk) t.
End Block.

#[global] Instance Block_inhabited : Inhabited Block.Block :=
  populate (Block.mkBlock 0%float inhabitant None None None None).

(** ** Parameters

    Modelled from the spec: [ruckig/parameter.hpp] is included by the header
    and is not part of the sources; sections 3 and 6 list the [Result]
    enumeration, the fields of the input and output structures, and say that
    equality of two inputs compares all fields element-wise with exact
    equality. *)

Inductive Result :=
| Working
| Finished
| Error
| ErrorInvalidInput
| ErrorExecutionTimeCalculation
| ErrorSynchronizationCalculation.

Record InputParameter := mkInput {
  current_position : list float;
  current_velocity : list float;
  current_acceleration : list float;
  target_position : list float;
  target_velocity : list float;
  target_acceleration : list float;
  max_velocity : list float;
  max_acceleration : list float;
  max_jerk : list float;
  enabled : list bool;
  minimum_duration : option float
}.

Record OutputParameter := mkOutput {
  new_position : list float;
  new_velocity : list float;
  new_acceleration : list float;
  duration : float;
  new_calculation : bool;
  calculation_duration : float;
  independent_min_durations : list float
}.

(** Element-wise [==] of two arrays of doubles: IEEE equality, under which a
    NaN differs from itself. *)
Fixpoint array_eqb (x y : list float) : bool :=
  match x, y with
  | [], [] => true
  | u :: x', w :: y' => (u =? w)%float && array_eqb x' y'
  | _, _ => false
  end.

Fixpoint flags_eqb (x y : list bool) : bool :=
  match x, y with
  | [], [] => true
  | u :: x', w :: y' => Bool.eqb u w && flags_eqb x' y'
  | _, _ => false
  end.

Definition optional_eqb (x y : option float) : bool :=
  match x, y with
  | None, None => true
  | Some u, Some w => (u =? w)%float
  | _, _ => false
  end.

(** Modelled from the spec: [operator!=] of [InputParameter]. *)
Definition input_neq (x y : InputParameter) : bool :=
  negb (array_eqb (current_position x) (current_position y)
        && array_eqb (current_velocity x) (current_velocity y)
        && array_eqb (current_acceleration x) (current_acceleration y)
        && array_eqb (target_position x) (target_position y)
        && array_eqb (target_velocity x) (target_velocity y)
        && array_eqb (target_acceleration x) (target_acceleration y)
        && array_eqb (max_velocity x) (max_velocity y)
        && array_eqb (max_acceleration x) (max_acceleration y)
        && array_eqb (max_jerk x) (max_jerk y)
        && flags_eqb (enabled x) (enabled y)
        && optional_eqb (minimum_duration x) (minimum_duration y)).

Definition with_current (i : InputParameter) (ps vs as_ : list float) : InputParameter :=
  mkInput ps vs as_ (target_position i) (target_velocity i) (target_acceleration i)
    (max_velocity i) (max_acceleration i) (max_jerk i) (enabled i) (minimum_duration i).

(** [std::tie(new_position[dof], new_velocity[dof], new_acceleration[dof]) = pva]. *)
Definition tie_new (o : OutputParameter) (dof : nat) (pva : float * float * float)
  : OutputParameter :=
  let '(p, v, a) := pva in
  mkOutput (<[dof := p]> (new_position o)) (<[dof := v]> (new_velocity o))
    (<[dof := a]> (new_acceleration o)) (duration o) (new_calculation o)
    (calculation_duration o) (independent_min_durations o).

Definition with_new_calculation (o : OutputParameter) (x : bool) : OutputParameter :=
  mkOutput (new_position o) (new_velocity o) (new_acceleration o) (duration o) x
    (calculation_duration o) (independent_min_durations o).
Definition with_duration (o : OutputParameter) (x : float) : OutputParameter :=
  mkOutput (new_position o) (new_velocity o) (new_acceleration o) x
    (new_calculation o) (calculation_duration o) (independent_min_durations o).
Definition with_calculation_duration (o : OutputParameter) (x : float)
  : OutputParameter :=
  mkOutput (new_position o) (new_velocity o) (new_acceleration o) (duration o)
    (new_calculation o) x (independent_min_durations o).
Definition with_independent_min_duration (o : OutputParameter) (dof : nat) (x : float)
  : OutputParameter :=
  mkOutput (new_position o) (new_velocity o) (new_acceleration o) (duration o)
    (new_calculation o) (calculation_duration o)
    (<[dof := x]> (independent_min_durations o)).

(** ** The solvers the header only declares

    [Brake], [Step1] and [Step2] are declared in the header and defined in
    other translation units.  An object of [Step1] or [Step2] is the record of
    its constructor's arguments; what the member functions compute is a
    parameter of the orchestrator (see [Ruckig.Planner]). *)

Record Step1 := mkStep1 {
  s1_p0 : float; s1_v0 : float; s1_a0 : float;
  s1_pf : float; s1_vf : float; s1_af : float;
  s1_vMax : float; s1_aMax : float; s1_jMax : float
}.

Record Step2 := mkStep2 {
  s2_tf : float;
  s2_p0 : float; s2_v0 : float; s2_a0 : float;
  s2_pf : float; s2_vf : float; s2_af : float;
  s2_vMax : float; s2_aMax : float; s2_jMax : float
}.

Record Solvers := mkSolvers {
  (** [Brake::get_brake_trajectory(v0, a0, vMax, aMax, jMax, t_brake, j_brake)]:
      the two arrays passed by reference, before and after. *)
  get_brake_trajectory :
    float -> float -> float -> float -> float -> list float -> list float ->
    list float * list float;
  (** [step1.get_profile(input, vMax, aMax, jMax)]: [Some] of [step1.block]
      when it returns true, [None] when it returns false. *)
  Step1_get_profile :
    Step1 -> Profile.Profile -> float -> float -> float -> option Block.Block;
  (** [step2.get_profile(profile, vMax, aMax, jMax)]: the returned flag and
      the profile it was given by reference, as it leaves it. *)
  Step2_get_profile :
    Step2 -> Profile.Profile -> float -> float -> float -> bool * Profile.Profile
}.

(** ** Ruckig<DOFs> *)

Module Ruckig.
Local Open Scope float_scope.

Record Ruckig := mkRuckig {
  current_input : InputParameter;
  t : float;
  tf : float;
  profiles : list Profile.Profile;   (* std::array<Profile, DOFs> *)
  delta_time : float                 (* const *)
}.

Definition with_current_input (r : Ruckig) (x : InputParameter) : Ruckig :=
  mkRuckig x (t r) (tf r) (profiles r) (delta_time r).
Definition with_t (r : Ruckig) (x : float) : Ruckig :=
  mkRuckig (current_input r) x (tf r) (profiles r) (delta_time r).
Definition with_tf (r : Ruckig) (x : float) : Ruckig :=
  mkRuckig (current_input r) (t r) x (profiles r) (delta_time r).
Definition with_profiles (r : Ruckig) (x : list Profile.Profile) : Ruckig :=
  mkRuckig (current_input r) (t r) (tf r) x (delta_time r).

(** *** synchronize *)

(** The three arguments [synchronize] takes by non-const reference. *)
Record SyncRefs := mkSyncRefs {
  t_sync : float;
  limiting_dof : nat;
  sync_profiles : list Profile.Profile
}.

(** The smallest integer not below [n / d], for [0 < d]. *)
Definition ceil_div (n d : Z) : Z := (- ((- n) / d))%Z.

(** [std::ceil((i + 1.0) / 3) - 1], converted to [int].  The quotient is
    taken in exact arithmetic: for the indices of an array it is far from
    the magnitudes at which the rounding of the division in binary64 could
    reach the next integer. *)
Definition limiting_of (i : nat) : nat :=
  Z.to_nat (ceil_div (Z.of_nat i + 1) 3 - 1).

(** Insertion of [x], which came before every element of the sorted [l]:
    it passes the elements less than it and stays ahead of the others. *)
Fixpoint insert_sorted {A} (lt : A -> A -> bool) (x : A) (l : list A) : list A :=
  match l with
  | [] => [x]
  | y :: l' => if lt y x then y :: insert_sorted lt x l' else x :: y :: l'
  end.

(** [std::stable_sort(first, last, comp)]: the standard fixes the result for
    a [comp] that is a strict weak ordering (sorted, equivalent elements in
    their original order), and any stable sort computes it.  Here: insertion
    from the right end. *)
Fixpoint stable_sort {A} (lt : A -> A -> bool) (l : list A) : list A :=
  match l with
  | [] => []
  | x :: l' => insert_sorted lt x (stable_sort lt l')
  end.

Section Planner.
Context (DOFs : nat) (solvers : Solvers).

(** The loop filling [possible_t_syncs]: three candidates per axis. *)
Definition possible_t_syncs (blocks : list Block.Block) : list float :=
  flat_map (fun dof =>
              let block := blocks !!! dof in
              [Block.t_min block;
               match Block.a block with
               | Some i => Block.right i
               | None => infinity
               end;
               match Block.b block with
               | Some i => Block.right i
               | None => infinity
               end])
           (seq 0 DOFs).

(** [std::iota] followed by [std::stable_sort] on the candidates' values. *)
Definition sorted_idx (cands : list float) : list nat :=
  stable_sort (fun i j => cands !!! i <? cands !!! j) (seq 0 (3 * DOFs)).

(** The condition under which the loop [continue]s. *)
Definition rejected (blocks : list Block.Block) (t_min : option float)
    (possible_t_sync : float) : bool :=
  existsb (fun block => Block.is_blocked block possible_t_sync) blocks
  || (possible_t_sync <? value_or t_min 0).

(** The body run for the first candidate that is not rejected. *)
Definition lock_in (blocks : list Block.Block) (cands : list float) (i : nat)
  : M SyncRefs bool :=
  modify (fun s => mkSyncRefs (cands !!! i) (limiting_dof s) (sync_profiles s));;
  modify (fun s => mkSyncRefs (t_sync s) (limiting_of i) (sync_profiles s));;
  s ← get;
  let block := blocks !!! limiting_dof s in
  p ← match (i mod 3)%nat with
      | O => mret (Block.p_min block)
      | S O => value (Block.p_a block)
      | _ => value (Block.p_b block)
      end;
  modify (fun s => mkSyncRefs (t_sync s) (limiting_dof s)
                     (<[limiting_dof s := p]> (sync_profiles s)));;
  mret true.

(** The loop [for (size_t i: idx)]. *)
Fixpoint sync_loop (blocks : list Block.Block) (t_min : option float)
    (cands : list float) (idx : list nat) : M SyncRefs bool :=
  match idx with
  | [] => mret false
  | i :: idx' =>
      if rejected blocks t_min (cands !!! i)
      then sync_loop blocks t_min cands idx'
      else lock_in blocks cands i
  end.

Definition synchronize (blocks : list Block.Block) (t_min : option float)
  : M SyncRefs bool :=
  if (DOFs =? 1)%nat && negb (has_value t_min) then
    modify (fun s => mkSyncRefs (t_sync s) 0 (sync_profiles s));;
    modify (fun s => mkSyncRefs (Block.t_min (blocks !!! 0%nat)) (limiting_dof s)
                       (sync_profiles s));;
    modify (fun s => mkSyncRefs (t_sync s) (limiting_dof s)
                       (<[limiting_dof s := Block.p_min (blocks !!! 0%nat)]>
                          (sync_profiles s)));;
    mret true
  else
    let cands := possible_t_syncs blocks in
    sync_loop blocks t_min cands (sorted_idx cands).

(** *** validate_input *)

(** The checks of one axis in the order of the source; [Some] of the
    diagnostic written to [std::cerr] by the first one that fails. *)
Definition validate_dof (input : InputParameter) (dof : nat) : option string :=
  if max_velocity input !!! dof <=? 0
  then Some "Velocity limit needs to be positive."%string
  else if max_acceleration input !!! dof <=? 0
  then Some "Acceleration limit needs to be positive."%string
  else if max_jerk input !!! dof <=? 0
  then Some "Jerk limit needs to be positive."%string
  else if max_velocity input !!! dof <? target_velocity input !!! dof
  then Some "Target velocity exceeds velocity limit."%string
  else if max_acceleration input !!! dof <? target_acceleration input !!! dof
  then Some "Target acceleration exceeds acceleration limit."%string
  else
    let max_target_acceleration :=
      sqrt (2 * max_jerk input !!! dof
            * (max_velocity input !!! dof - abs (target_velocity input !!! dof))) in
    if max_target_acceleration <? abs (target_acceleration input !!! dof)
    then Some "Target acceleration exceeds maximal possible acceleration."%string
    else None.

(** The loop over the axes: the diagnostic of the first axis that fails. *)
Fixpoint validate_loop (input : InputParameter) (dofs : list nat) : option string :=
  match dofs with
  | [] => None
  | dof :: dofs' =>
      match validate_dof input dof with
      | Some msg => Some msg
      | None => validate_loop input dofs'
      end
  end.

(** [validate_input(input)]: the flag it returns.  The diagnostic goes to
    [std::cerr], which is no part of the state modelled here. *)
Definition validate_input (input : InputParameter) : bool :=
  negb (has_value (validate_loop input (seq 0 DOFs))).

(** *** at_time *)

(** The loop of [std::upper_bound], as the implementations of the standard
    library run it (libstdc++, libc++ and the MSVC library agree): with
    [len] elements left from position [first] on, it compares [value] with
    the element in the middle, [half = len >> 1] positions on, and goes on
    in the lower half if [value] is less than it, in the upper half past it
    otherwise.  [steps] bounds the iterations; [len] goes down with each,
    so [len] steps are enough ([bisect_enough]). *)
Fixpoint bisect (steps : nat) (l : list float) (value : float) (first len : nat)
  : nat :=
  match steps, len with
  | S steps', S _ =>
      let half := (len / 2)%nat in
      let middle := (first + half)%nat in
      if value <? l !!! middle
      then bisect steps' l value first half
      else bisect steps' l value (S middle) (len - half - 1)
  | _, _ => first
  end.

(** [std::upper_bound(first, last, value)], as a position in the range.
    For a range partitioned with respect to [value], as the standard asks,
    it is the first position whose element is greater than [value], the
    length when there is none; for another range it is where the bisection
    ends. *)
Definition upper_bound (l : list float) (value : float) : nat :=
  bisect (length l) l value 0 (length l).

(** The body of the loop over the axes when [time + delta_time <= tf]. *)
Definition sample_dof (r : Ruckig) (time : float) (output : OutputParameter)
    (dof : nat) : OutputParameter :=
  let input := current_input r in
  let output :=
    if negb (enabled input !!! dof)
    then tie_new output dof
           (Profile.integrate time (current_position input !!! dof)
              (current_velocity input !!! dof)
              (current_acceleration input !!! dof) 0)
    else output in
  let p := profiles r !!! dof in
  let t_diff := time in
  let after_brake (t_diff : float) : OutputParameter :=
    (* Non-time synchronization *)
    if Profile.t_sum p !!! 6%nat <=? t_diff then
      tie_new output dof
        (Profile.p p !!! 7%nat, Profile.v p !!! 7%nat, Profile.a p !!! 7%nat)
    else
      let index := upper_bound (Profile.t_sum p) t_diff in
      let t_diff :=
        if (0 <? index)%nat then t_diff - Profile.t_sum p !!! (index - 1)%nat
        else t_diff in
      tie_new output dof
        (Profile.integrate t_diff (Profile.p p !!! index) (Profile.v p !!! index)
           (Profile.a p !!! index) (Profile.j p !!! index)) in
  match Profile.t_brake p with
  | Some t_brake =>
      if t_diff <? t_brake then
        let index := if t_diff <? Profile.t_brakes p !!! 0%nat then 0%nat else 1%nat in
        let t_diff :=
          if (0 <? index)%nat then t_diff - Profile.t_brakes p !!! (index - 1)%nat
          else t_diff in
        tie_new output dof
          (Profile.integrate t_diff (Profile.p_brakes p !!! index)
             (Profile.v_brakes p !!! index) (Profile.a_brakes p !!! index)
             (Profile.j_brakes p !!! index))
      else after_brake (t_diff - t_brake)
  | None => after_brake t_diff
  end.

(** The body of the loop over the axes when [time + delta_time > tf]. *)
Definition hold_dof (r : Ruckig) (time : float) (output : OutputParameter)
    (dof : nat) : OutputParameter :=
  let input := current_input r in
  tie_new output dof
    (Profile.integrate (time - tf r) (target_position input !!! dof)
       (target_velocity input !!! dof) (target_acceleration input !!! dof) 0).

Definition at_time (r : Ruckig) (time : float) (output : OutputParameter)
  : OutputParameter :=
  if tf r <? time + delta_time r then
    (* Keep constant acceleration *)
    fold_left (hold_dof r time) (seq 0 DOFs) output
  else
    fold_left (sample_dof r time) (seq 0 DOFs) output.

(** *** calculate *)

(** The object and the output structure [calculate] and [update] work on. *)
Definition St : Type := Ruckig * OutputParameter.

Definition on_ruckig (f : Ruckig -> Ruckig) : M St unit :=
  modify (fun s => (f s.1, s.2)).
Definition on_output (f : OutputParameter -> OutputParameter) : M St unit :=
  modify (fun s => (s.1, f s.2)).

(** The local arrays of [calculate].  They are not initialised: the values
    they hold before the first loop are an argument of the model. *)
Record Locals := mkLocals {
  blocks : list Block.Block;
  p0s : list float;
  v0s : list float;
  a0s : list float
}.

(** A loop over the axes whose body may throw; [loc] is what an iteration
    hands to the next one. *)
Fixpoint for_dofs {L} (body : nat -> L -> M St L) (dofs : list nat) (loc : L)
  : M St L :=
  match dofs with
  | [] => mret loc
  | dof :: dofs' => loc' ← body dof loc; for_dofs body dofs' loc'
  end.

(** The brake prefix of one axis: its profile with the brake segments
    recorded, and the state [(p0, v0, a0)] at which Step1 starts. *)
Definition brake_dof (input : InputParameter) (dof : nat) (pr : Profile.Profile)
  : Profile.Profile * (float * float * float) :=
  let '(t_brakes, j_brakes) :=
    get_brake_trajectory solvers
      (current_velocity input !!! dof) (current_acceleration input !!! dof)
      (max_velocity input !!! dof) (max_acceleration input !!! dof)
      (max_jerk input !!! dof) (Profile.t_brakes pr) (Profile.j_brakes pr) in
  let pr := Profile.with_brakes pr t_brakes j_brakes in
  let pr := Profile.with_t_brake pr
              (Some (Profile.t_brakes pr !!! 0%nat + Profile.t_brakes pr !!! 1%nat)) in
  let p0 := current_position input !!! dof in
  let v0 := current_velocity input !!! dof in
  let a0 := current_acceleration input !!! dof in
  if 0 <? Profile.t_brakes pr !!! 0%nat then
    let pr := Profile.with_pva_brakes pr
                (<[0%nat := p0]> (Profile.p_brakes pr))
                (<[0%nat := v0]> (Profile.v_brakes pr))
                (<[0%nat := a0]> (Profile.a_brakes pr)) in
    let '(p0, v0, a0) :=
      Profile.integrate (Profile.t_brakes pr !!! 0%nat) p0 v0 a0
        (Profile.j_brakes pr !!! 0%nat) in
    if 0 <? Profile.t_brakes pr !!! 1%nat then
      let pr := Profile.with_pva_brakes pr
                  (<[1%nat := p0]> (Profile.p_brakes pr))
                  (<[1%nat := v0]> (Profile.v_brakes pr))
                  (<[1%nat := a0]> (Profile.a_brakes pr)) in
      (pr, Profile.integrate (Profile.t_brakes pr !!! 1%nat) p0 v0 a0
             (Profile.j_brakes pr !!! 1%nat))
    else (pr, (p0, v0, a0))
  else (pr, (p0, v0, a0)).

(** The object [Step1 step1 {...}] built for one axis. *)
Definition step1_of (input : InputParameter) (dof : nat) (pva : float * float * float)
  : Step1 :=
  let '(p0, v0, a0) := pva in
  mkStep1 p0 v0 a0 (target_position input !!! dof) (target_velocity input !!! dof)
    (target_acceleration input !!! dof) (max_velocity input !!! dof)
    (max_acceleration input !!! dof) (max_jerk input !!! dof).

(** The body of the first loop over the axes: brake, then Step1. *)
Definition plan_dof (input : InputParameter) (dof : nat) (loc : Locals)
  : M St Locals :=
  if negb (enabled input !!! dof) then mret loc
  else
    s ← get;
    let '(pr, pva) := brake_dof input dof (profiles s.1 !!! dof) in
    on_ruckig (fun r => with_profiles r (<[dof := pr]> (profiles r)));;
    let loc := mkLocals (blocks loc) (<[dof := pva.1.1]> (p0s loc))
                 (<[dof := pva.1.2]> (v0s loc)) (<[dof := pva.2]> (a0s loc)) in
    match Step1_get_profile solvers (step1_of input dof pva) pr
            (max_velocity input !!! dof) (max_acceleration input !!! dof)
            (max_jerk input !!! dof) with
    | None => throw (runtime_error (in_step1 dof))
    | Some block =>
        on_output (fun o =>
          with_independent_min_duration o dof (Block.t_min block));;
        mret (mkLocals (<[dof := block]> (blocks loc)) (p0s loc) (v0s loc) (a0s loc))
    end.

(** The call [synchronize(blocks, input.minimum_duration, tf, limiting_dof,
    profiles)]: the members [tf] and [profiles] are passed by reference and
    keep what [synchronize] wrote, also when it throws. *)
Definition call_synchronize (blocks : list Block.Block) (t_min : option float)
    (limiting_dof0 : nat) : M St (bool * nat) :=
  fun s =>
    let '(res, refs) :=
      synchronize blocks t_min (mkSyncRefs (tf s.1) limiting_dof0 (profiles s.1)) in
    let s' := (with_profiles (with_tf s.1 (t_sync refs)) (sync_profiles refs), s.2) in
    match res with
    | Ret found => (Ret (found, limiting_dof refs), s')
    | Throw e => (Throw e, s')
    end.

(** The object [Step2 step2 {...}] built for one axis. *)
Definition step2_of (input : InputParameter) (loc : Locals) (dof : nat)
    (t_profile : float) : Step2 :=
  mkStep2 t_profile (p0s loc !!! dof) (v0s loc !!! dof) (a0s loc !!! dof)
    (target_position input !!! dof) (target_velocity input !!! dof)
    (target_acceleration input !!! dof) (max_velocity input !!! dof)
    (max_acceleration input !!! dof) (max_jerk input !!! dof).

(** The body of the second loop over the axes: Step2 at the duration [tf]. *)
Definition finalize_dof (input : InputParameter) (loc : Locals) (limiting_dof : nat)
    (dof : nat) (_ : unit) : M St unit :=
  if negb (enabled input !!! dof) || (dof =? limiting_dof)%nat then mret tt
  else
    s ← get;
    let t_profile := tf s.1 - value_or (Profile.t_brake (profiles s.1 !!! dof)) 0 in
    let '(found_time_synchronization, pr) :=
      Step2_get_profile solvers (step2_of input loc dof t_profile)
        (profiles s.1 !!! dof)
        (max_velocity input !!! dof) (max_acceleration input !!! dof)
        (max_jerk input !!! dof) in
    on_ruckig (fun r => with_profiles r (<[dof := pr]> (profiles r)));;
    if found_time_synchronization then mret tt
    else throw (runtime_error (in_step2 dof)).

(** [calculate(input, output)].  [locals0] and [limiting_dof0] are the
    indeterminate values of the uninitialised locals.  The [return]s that
    follow the three [throw]s of the source are never reached. *)
Definition calculate (input : InputParameter) (locals0 : Locals)
    (limiting_dof0 : nat) : M St Result :=
  on_ruckig (fun r => with_current_input r input);;
  if negb (validate_input input) then mret ErrorInvalidInput
  else
    loc ← for_dofs (plan_dof input) (seq 0 DOFs) locals0;
    sync ← call_synchronize (blocks loc) (minimum_duration input) limiting_dof0;
    if negb sync.1 then throw (runtime_error in_synchronization)
    else
      s ← get;
      (if 0 <? tf s.1
       then for_dofs (finalize_dof input loc sync.2) (seq 0 DOFs) tt
       else mret tt);;
      on_ruckig (fun r => with_t r 0);;
      s ← get;
      on_output (fun o => with_new_calculation (with_duration o (tf s.1)) true);;
      mret Working.

(** *** update *)

Definition is_Working (res : Result) : bool :=
  match res with
  | Working => true
  | _ => false
  end.

(** [update(input, output)].  [elapsed] is the wall-clock time the call
    measures for [calculation_duration], in microseconds. *)
Definition update (input : InputParameter) (locals0 : Locals) (limiting_dof0 : nat)
    (elapsed : float) : M St Result :=
  on_ruckig (fun r => with_t r (t r + delta_time r));;
  on_output (fun o => with_new_calculation o false);;
  s ← get;
  failed ← (if input_neq input (current_input s.1)
            then res ← calculate input locals0 limiting_dof0;
                 mret (negb (is_Working res))
            else mret false);
  if failed : bool then mret Error
  else
    s ← get;
    on_output (fun o => at_time s.1 (t s.1) o);;
    on_output (fun o => with_calculation_duration o elapsed);;
    s ← get;
    if tf s.1 <? t s.1 + delta_time s.1 then mret Finished
    else
      on_ruckig (fun r =>
        with_current_input r
          (with_current (current_input r) (new_position s.2) (new_velocity s.2)
             (new_acceleration s.2)));;
      mret Working.

End Planner.
End Ruckig.

(** ** What [at_time] leaves for one axis

    The value the body of each of its two loops ties to
    [new_position[dof]], [new_velocity[dof]], [new_acceleration[dof]] last. *)

Module Sample.
Local Open Scope float_scope.

(** Past the end of the plan: the target, extrapolated. *)
Definition held (r : Ruckig.Ruckig) (time : float) (dof : nat)
  : float * float * float :=
  let input := Ruckig.current_input r in
  Profile.integrate (time - Ruckig.tf r) (target_position input !!! dof)
    (target_velocity input !!! dof) (target_acceleration input !!! dof) 0.

(** The time elapsed past the brake prefix of a profile, [None] while the
    brake prefix lasts. *)
Definition past_brake (p : Profile.Profile) (time : float) : option float :=
  match Profile.t_brake p with
  | Some t_brake => if time <? t_brake then None else Some (time - t_brake)
  | None => Some time
  end.

(** The three numbers the loop body reads off the profile of the axis. *)
Definition of_profile (p : Profile.Profile) (time : float) : float * float * float :=
  match past_brake p time with
  | None =>
      let index := if time <? Profile.t_brakes p !!! 0%nat then 0%nat else 1%nat in
      let t_diff :=
        if (0 <? index)%nat then time - Profile.t_brakes p !!! (index - 1)%nat
        else time in
      Profile.integrate t_diff (Profile.p_brakes p !!! index)
        (Profile.v_brakes p !!! index) (Profile.a_brakes p !!! index)
        (Profile.j_brakes p !!! index)
  | Some t_diff =>
      if Profile.t_sum p !!! 6%nat <=? t_diff then
        (Profile.p p !!! 7%nat, Profile.v p !!! 7%nat, Profile.a p !!! 7%nat)
      else
        let index := Ruckig.upper_bound (Profile.t_sum p) t_diff in
        let t_diff :=
          if (0 <? index)%nat then t_diff - Profile.t_sum p !!! (index - 1)%nat
          else t_diff in
        Profile.integrate t_diff (Profile.p p !!! index) (Profile.v p !!! index)
          (Profile.a p !!! index) (Profile.j p !!! index)
  end.

(** What the claim on disabled axes expects: the cached current state,
    integrated with zero jerk over the elapsed time. *)
Definition of_current (r : Ruckig.Ruckig) (time : float) (dof : nat)
  : float * float * float :=
  let input := Ruckig.current_input r in
  Profile.integrate time (current_position input !!! dof)
    (current_velocity input !!! dof) (current_acceleration input !!! dof) 0.

(** The kinematic state an output structure holds for one axis. *)
Definition kinematics (o : OutputParameter) (dof : nat) : float * float * float :=
  (new_position o !!! dof, new_velocity o !!! dof, new_acceleration o !!! dof).

(** A loop that ties one value to each axis it visits. *)
Definition tie_each (val : nat -> float * float * float) (dofs : list nat)
    (o : OutputParameter) : OutputParameter :=
  fold_left (fun o dof => tie_new o dof (val dof)) dofs o.

(** The output arrays have one entry per axis. *)
Definition sized (DOFs : nat) (o : OutputParameter) : Prop :=
  length (new_position o) = DOFs /\ length (new_velocity o) = DOFs /\
  length (new_acceleration o) = DOFs.

(** An array in ascending order: [l[i] <= l[j]] for all [i <= j]. *)
Definition ascending (l : list float) : bool :=
  forallb (fun i => forallb (fun j => l !!! i <=? l !!! j) (seq i (length l - i)))
    (seq 0 (length l)).
End Sample.

(** ** Scenarios

    Concrete plans on which the properties are exercised: boundary scenario
    1 of the spec (one axis, rest to rest from 0 to 1 under limits 1, 1, 1,
    cycle time 0.01), with and without a minimum duration. *)

Module Scenario.
Local Open Scope float_scope.

Definition zeros (n : nat) : list float := replicate n 0.

(** A profile of the declared sizes with every number zero and no brake. *)
Definition blank : Profile.Profile :=
  Profile.mkProfile Profile.NONE Profile.UP Profile.UDDU (zeros 7) (zeros 7)
    (zeros 7) (zeros 8) (zeros 8) (zeros 8) None (zeros 2) (zeros 2) (zeros 2)
    (zeros 2) (zeros 2).

(** The four jerk pulses of the time-optimal rest-to-rest move over a
    distance 1 last [cbrt(1/2)] each (no limit is reached). *)
Definition pulse : float := 0x1.965fea53d6e3dp-1.

(** The candidate Step1 hands to [check] for that move, on top of the
    profile [pr] it was given (which carries the brake prefix). *)
Definition rest_candidate (pr : Profile.Profile) : Profile.Profile :=
  Profile.mkProfile Profile.NONE Profile.UP Profile.UDDU
    [pulse; 0; pulse; 0; pulse; 0; pulse] (Profile.t_sum pr) (Profile.j pr)
    (Profile.a pr) (Profile.v pr) (Profile.p pr) (Profile.t_brake pr)
    (Profile.t_brakes pr) (Profile.j_brakes pr) (Profile.a_brakes pr)
    (Profile.v_brakes pr) (Profile.p_brakes pr).

(** The same candidate with a negative last duration. *)
Definition negative_candidate : Profile.Profile :=
  Profile.mkProfile Profile.NONE Profile.UP Profile.UDDU
    [pulse; 0; pulse; 0; pulse; 0; -1] (zeros 7) (zeros 7) (zeros 8) (zeros 8)
    (zeros 8) None (zeros 2) (zeros 2) (zeros 2) (zeros 2) (zeros 2).

(** The checked profile of the move: total duration 3.1748... *)
Definition rest_profile (pr : Profile.Profile) : Profile.Profile :=
  (Profile.check Profile.UDDU 1 0 0 1 1 1 (rest_candidate pr)).2.

(** Its block: every duration from the minimum on is feasible. *)
Definition rest_block (pr : Profile.Profile) : Block.Block :=
  Block.mkBlock (Profile.t_sum (rest_profile pr) !!! 6%nat) (rest_profile pr)
    None None None None.

(** Solvers for the scenario: nothing to brake, Step1 finds the profile
    above, Step2 is not needed for a single axis. *)
Definition solvers : Solvers :=
  mkSolvers (fun _ _ _ _ _ _ _ => (zeros 2, zeros 2))
    (fun _ pr _ _ _ => Some (rest_block pr))
    (fun _ pr _ _ _ => (false, pr)).

(** The same with a Step1 that finds no profile. *)
Definition solvers_without_profile : Solvers :=
  mkSolvers (fun _ _ _ _ _ _ _ => (zeros 2, zeros 2))
    (fun _ _ _ _ _ => None)
    (fun _ pr _ _ _ => (false, pr)).

(** The same with a Step1 that reports two forbidden intervals, from 4 to
    5 and from 6 to 7. *)
Definition solvers_with_intervals : Solvers :=
  mkSolvers (fun _ _ _ _ _ _ _ => (zeros 2, zeros 2))
    (fun _ pr _ _ _ =>
       Some (Block.mkBlock (Block.t_min (rest_block pr)) (rest_profile pr)
               (Some (Block.mkInterval 4 5)) (Some (Block.mkInterval 6 7))
               (Some (rest_profile pr)) (Some (rest_profile pr))))
    (fun _ pr _ _ _ => (false, pr)).

Definition rest_to_rest (minimum_duration : option float) : InputParameter :=
  mkInput [0] [0] [0] [1] [0] [0] [1] [1] [1] [true] minimum_duration.

(** An object that has not planned yet: its cached input asks for nothing. *)
Definition idle_input : InputParameter :=
  mkInput [0] [0] [0] [0] [0] [0] [1] [1] [1] [true] None.

Definition fresh : Ruckig.Ruckig := Ruckig.mkRuckig idle_input 0 0 [blank] 0.01.

Definition output0 : OutputParameter := mkOutput [0] [0] [0] 0 false 0 [0].

Definition locals0 : Ruckig.Locals :=
  Ruckig.mkLocals [Block.mkBlock 0 blank None None None None] [0] [0] [0].

(** Two axes, each asked for the rest-to-rest move. *)
Definition rest_to_rest_twice : InputParameter :=
  mkInput [0; 0] [0; 0] [0; 0] [1; 1] [0; 0] [0; 0] [1; 1] [1; 1] [1; 1]
    [true; true] None.

Definition fresh_pair : Ruckig.Ruckig :=
  Ruckig.mkRuckig
    (mkInput [0; 0] [0; 0] [0; 0] [0; 0] [0; 0] [0; 0] [1; 1] [1; 1] [1; 1]
       [true; true] None)
    0 0 [blank; blank] 0.01.

Definition output0_pair : OutputParameter :=
  mkOutput [0; 0] [0; 0] [0; 0] 0 false 0 [0; 0].

Definition locals0_pair : Ruckig.Locals :=
  Ruckig.mkLocals
    [Block.mkBlock 0 blank None None None None;
     Block.mkBlock 0 blank None None None None]
    [0; 0] [0; 0] [0; 0].

(** The object after the cycle that planned the move. *)
Definition planned : Ruckig.Ruckig :=
  (Ruckig.update 1 solvers (rest_to_rest None) locals0 0 0 (fresh, output0)).2.1.

(** The output structure after that cycle. *)
Definition output1 : OutputParameter :=
  (Ruckig.update 1 solvers (rest_to_rest None) locals0 0 0 (fresh, output0)).2.2.

(** The move asked for under a velocity limit of zero. *)
Definition invalid_input : InputParameter :=
  mkInput [0] [0] [0] [1] [0] [0] [0] [1] [1] [true] None.

(** The same plan held in an object whose duration is longer than the
    profile of its axis (as for an axis that is not the limiting one). *)
Definition planned_longer : Ruckig.Ruckig := Ruckig.with_tf planned 5.

(** Two axes: the first with the block of the rest-to-rest move, the
    second with minimum duration 5 and the durations between 6 and 8
    forbidden. *)
Definition two_blocks : list Block.Block :=
  [rest_block blank;
   Block.mkBlock 5 blank (Some (Block.mkInterval 6 8)) None (Some blank) None].

(** The axis of [planned] switched off, with a cached current state of
    position 5 and velocity 1; its profile is the one of the last plan. *)
Definition switched_off : Ruckig.Ruckig :=
  Ruckig.with_current_input planned
    (mkInput [5] [1] [0] [1] [0] [0] [1] [1] [1] [false] None).

(** The move asked for with a target velocity of -5 under a velocity
    limit of 1. *)
Definition backwards : InputParameter :=
  mkInput [0] [0] [0] [1] [-5] [0] [1] [1] [1] [true] None.

(** The move asked for under a velocity limit that is a NaN. *)
Definition unlimited : InputParameter :=
  mkInput [0] [0] [0] [1] [0] [0] [nan] [1] [1] [true] None.

(** The move asked for by an axis that runs at velocity 2, twice the
    limit. *)
Definition too_fast : InputParameter :=
  mkInput [0] [2] [0] [1] [0] [0] [1] [1] [1] [true] None.

(** Solvers whose Brake answers with two segments, 0.5 s at jerk -1 and
    0.25 s at jerk 1, and whose Step2 accepts the profile it is given. *)
Definition solvers_with_brake : Solvers :=
  mkSolvers (fun _ _ _ _ _ _ _ => ([0.5; 0.25], [-1; 1]))
    (fun _ pr _ _ _ => Some (rest_block pr))
    (fun _ pr _ _ _ => (true, pr)).

(** An object in a plan of 5 s whose axis starts with that brake prefix. *)
Definition braking : Ruckig.Ruckig :=
  Ruckig.mkRuckig too_fast 0 5
    [(Ruckig.brake_dof solvers_with_brake too_fast 0 blank).1] 0.01.

(** Two axes synchronized at a duration of 4 s, before the second loop of
    [calculate]. *)
Definition synchronized_pair : Ruckig.St :=
  (Ruckig.with_tf fresh_pair 4, output0_pair).

(** The first loop of [calculate] for the rest-to-rest move, run on the
    fresh object: the state and the locals it leaves. *)
Definition step1_state : Ruckig.St :=
  (Ruckig.for_dofs (Ruckig.plan_dof solvers (rest_to_rest None)) (seq 0 1) locals0
     (fresh, output0)).2.

Definition step1_locals : Ruckig.Locals :=
  match (Ruckig.for_dofs (Ruckig.plan_dof solvers (rest_to_rest None)) (seq 0 1)
           locals0 (fresh, output0)).1 with
  | Ret loc => loc
  | Throw _ => locals0
  end.

(** The second loop of [calculate] for the two axes, the first of which
    is the limiting one. *)
Definition finalized_pair : Ruckig.St :=
  (Ruckig.for_dofs
     (Ruckig.finalize_dof solvers_with_brake rest_to_rest_twice locals0_pair 0)
     (seq 0 2) tt synchronized_pair).2.

(** What [calculate] leaves for the rest-to-rest move, called on the
    fresh object and called by [update] after the clock tick. *)
Definition calculated : Ruckig.St :=
  (Ruckig.calculate 1 solvers (rest_to_rest None) locals0 0 (fresh, output0)).2.

Definition replanned : Ruckig.St :=
  (Ruckig.calculate 1 solvers (rest_to_rest None) locals0 0
     (Ruckig.with_t fresh (Ruckig.t fresh + Ruckig.delta_time fresh),
      with_new_calculation output0 false)).2.

(** What the cycle of boundary scenario 6 leaves when the exception
    leaves it. *)
Definition thrown : Ruckig.St :=
  (Ruckig.update 1 solvers (rest_to_rest (Some 10)) locals0 0 0 (fresh, output0)).2.
End Scenario.

(** ** What the claim on [Profile::check] says

    Written from the words of the claim, to be compared with [Profile.check]:
    the jerk pattern, the prefix sums, the boundary states of the seven
    segments and the feasibility conditions. *)

Module Feasible.
Local Open Scope float_scope.

Definition pattern (tth : Profile.Teeth) (jf : float) : list float :=
  match tth with
  | Profile.UDDU => [jf; 0; -jf; 0; -jf; 0; jf]
  | Profile.UDUD => [jf; 0; -jf; 0; jf; 0; -jf]
  end.

(** [t[0] + ... + t[k]], summed from the left. *)
Fixpoint prefix_sum (ts : list float) (k : nat) : float :=
  match k with
  | O => ts !!! 0%nat
  | S k' => prefix_sum ts k' + ts !!! k
  end.

(** The state [(a, v, p)] after the first [k] segments, each integrated
    with its constant jerk from the state before it. *)
Fixpoint boundary (ts js : list float) (avp0 : float * float * float) (k : nat)
  : float * float * float :=
  match k with
  | O => avp0
  | S k' =>
      let '(a, v, p) := boundary ts js avp0 k' in
      let t := ts !!! k' in
      let j := js !!! k' in
      (a + t * j, v + t * (a + t * j / 2), p + t * (v + t * (a / 2 + t * j / 6)))
  end.

Definition a_at ts js avp0 k : float := (boundary ts js avp0 k).1.1.
Definition v_at ts js avp0 k : float := (boundary ts js avp0 k).1.2.
Definition p_at ts js avp0 k : float := (boundary ts js avp0 k).2.

(** Every [t[i] >= 0]. *)
Definition nonnegative (ts : list float) : bool :=
  forallb (fun i => 0 <=? ts !!! i) (seq 0 7).

(** No [t[i] < 0]: the test of the source. *)
Definition no_negative (ts : list float) : bool :=
  forallb (fun i => negb (ts !!! i <? 0)) (seq 0 7).

(** [|v[i]| < v_bound + 1e-9] for [i] in [3, 7], [|a[i]| < a_bound + 1e-9]
    for [i] in [2, 7], and the terminal state within [1e-8] of the target. *)
Definition bounded ts js avp0 (pf vf af v_bound a_bound : float) : bool :=
  forallb (fun i => abs (v_at ts js avp0 i) <? v_bound + 1e-9) (seq 3 5)
  && forallb (fun i => abs (a_at ts js avp0 i) <? a_bound + 1e-9) (seq 2 6)
  && (abs (p_at ts js avp0 7 - pf) <? 1e-8)
  && (abs (v_at ts js avp0 7 - vf) <? 1e-8)
  && (abs (a_at ts js avp0 7 - af) <? 1e-8).

(** The condition as the claim words it, with the limits as they are
    passed. *)
Definition as_claimed tth ts avp0 (pf vf af jf vMax aMax : float) : bool :=
  nonnegative ts && bounded ts (pattern tth jf) avp0 pf vf af vMax aMax.

(** The condition with the limits taken by their absolute values. *)
Definition feasible tth ts avp0 (pf vf af jf vMax aMax : float) : bool :=
  nonnegative ts && bounded ts (pattern tth jf) avp0 pf vf af (abs vMax) (abs aMax).

(** The initial state a profile holds at index 0. *)
Definition start (pr : Profile.Profile) : float * float * float :=
  (Profile.a pr !!! 0%nat, Profile.v pr !!! 0%nat, Profile.p pr !!! 0%nat).

(** What [check] is claimed to leave in the profile. *)
Definition filled tth (jf : float) (pr pr' : Profile.Profile) : Prop :=
  let ts := Profile.t pr in
  let js := pattern tth jf in
  Profile.j pr' = js
  /\ (forall k, (k < 7)%nat -> Profile.t_sum pr' !!! k = prefix_sum ts k)
  /\ (forall k, (k < 8)%nat ->
        (Profile.a pr' !!! k, Profile.v pr' !!! k, Profile.p pr' !!! k)
        = boundary ts js (start pr) k).
End Feasible.

(** ** The conditions the claims speak of *)

Module Claim.
Local Open Scope float_scope.

(** An axis fails validation: one of the six conditions holds. *)
Definition fails_validation (input : InputParameter) (dof : nat) : bool :=
  (max_velocity input !!! dof <=? 0)
  || (max_acceleration input !!! dof <=? 0)
  || (max_jerk input !!! dof <=? 0)
  || (max_velocity input !!! dof <? target_velocity input !!! dof)
  || (max_acceleration input !!! dof <? target_acceleration input !!! dof)
  || (sqrt (2 * max_jerk input !!! dof
            * (max_velocity input !!! dof - abs (target_velocity input !!! dof)))
      <? abs (target_acceleration input !!! dof)).

(** What Step1 answers for one axis, given the profile the object holds
    for it when the planning event starts: [None] when it finds no valid
    profile. *)
Definition step1_result (solvers : Solvers) (input : InputParameter) (dof : nat)
    (pr : Profile.Profile) : option Block.Block :=
  let '(pr', pva) := Ruckig.brake_dof solvers input dof pr in
  Step1_get_profile solvers (Ruckig.step1_of input dof pva) pr'
    (max_velocity input !!! dof) (max_acceleration input !!! dof)
    (max_jerk input !!! dof).

(** Whether Step2 finds a profile of the synchronized duration [tf] for
    one axis, given the profile held for it after synchronization. *)
Definition step2_found (solvers : Solvers) (input : InputParameter)
    (loc : Ruckig.Locals) (tf : float) (dof : nat) (pr : Profile.Profile) : bool :=
  (Step2_get_profile solvers
     (Ruckig.step2_of input loc dof (tf - value_or (Profile.t_brake pr) 0)) pr
     (max_velocity input !!! dof) (max_acceleration input !!! dof)
     (max_jerk input !!! dof)).1.

(** The state in which [calculate], called by [update], starts to plan:
    the clock advanced, [new_calculation] reset, the input cached. *)
Definition planning_state (r : Ruckig.Ruckig) (o : OutputParameter)
    (input : InputParameter) : Ruckig.St :=
  (Ruckig.with_current_input
     (Ruckig.with_t r (Ruckig.t r + Ruckig.delta_time r)) input,
   with_new_calculation o false).

(** The first loop of [calculate], run from that state. *)
Definition after_step1 (DOFs : nat) (solvers : Solvers) (r : Ruckig.Ruckig)
    (o : OutputParameter) (input : InputParameter) (locals0 : Ruckig.Locals)
  : outcome Ruckig.Locals * Ruckig.St :=
  Ruckig.for_dofs (Ruckig.plan_dof solvers input) (seq 0 DOFs) locals0
    (planning_state r o input).

(** The candidate at index [i]: of axis [i / 3], its [t_min], the right
    endpoint of its interval [a] or the right endpoint of its interval [b],
    infinity for an absent interval. *)
Definition candidate (blocks : list Block.Block) (i : nat) : float :=
  let block := blocks !!! (i / 3)%nat in
  match (i mod 3)%nat with
  | O => Block.t_min block
  | S O => match Block.a block with
           | Some interval => Block.right interval
           | None => infinity
           end
  | _ => match Block.b block with
         | Some interval => Block.right interval
         | None => infinity
         end
  end.

(** The profile the candidate at index [i] stands for: [p_min], [p_a] or
    [p_b] of axis [i / 3]. *)
Definition selected (blocks : list Block.Block) (i : nat) : option Profile.Profile :=
  let block := blocks !!! (i / 3)%nat in
  match (i mod 3)%nat with
  | O => Some (Block.p_min block)
  | S O => Block.p_a block
  | _ => Block.p_b block
  end.

(** A duration [tau] is accepted: it is not below the floor (0 if
    unspecified) and, for every axis, not below its [t_min] and not
    strictly inside either of its forbidden intervals. *)
Definition accepts (blocks : list Block.Block) (floor : option float) (tau : float)
  : bool :=
  (value_or floor 0 <=? tau)
  && forallb (fun block =>
                (Block.t_min block <=? tau)
                && negb (Block.inside (Block.a block) tau)
                && negb (Block.inside (Block.b block) tau))
             blocks.

(** [i] is the first index of [idx] whose candidate is accepted. *)
Definition first_accepted (blocks : list Block.Block) (floor : option float)
    (cands : list float) (idx : list nat) (i : nat) : Prop :=
  exists pre post,
    idx = pre ++ i :: post
    /\ Forall (fun k => accepts blocks floor (cands !!! k) = false) pre
    /\ accepts blocks floor (cands !!! i) = true.

(** The single-axis call without a floor, which [synchronize] answers
    without looking at the candidates. *)
Definition fast_path (DOFs : nat) (floor : option float) : bool :=
  (DOFs =? 1)%nat && negb (has_value floor).

(** A block as Step1 reports it: its [t_min] is a duration, the least one
    the axis can do, so it is not negative and not strictly inside either
    of the block's own forbidden intervals. *)
Definition consistent (block : Block.Block) : bool :=
  negb (Block.t_min block <? 0)
  && negb (Block.inside (Block.a block) (Block.t_min block))
  && negb (Block.inside (Block.b block) (Block.t_min block)).

(** Ascending and stable: [x] may come before [y] when [y] is not less
    than [x] and, if they are equivalent, [x] came first ([ord]). *)
Definition before {A} (lt : A -> A -> bool) (ord : A -> A -> Prop) (x y : A) : Prop :=
  lt y x = false /\ (lt x y = false -> ord x y).

(** The state [update] leaves when it samples without planning: the clock
    advanced by one cycle, and the output sampled there. *)
Definition advanced (r : Ruckig.Ruckig) : Ruckig.Ruckig :=
  Ruckig.with_t r (Ruckig.t r + Ruckig.delta_time r).

Definition continued (DOFs : nat) (r : Ruckig.Ruckig) (o : OutputParameter)
    (elapsed : float) : OutputParameter :=
  with_calculation_duration
    (Ruckig.at_time DOFs (advanced r) (Ruckig.t (advanced r))
       (with_new_calculation o false))
    elapsed.

(** The cached input with its current state moved to the sampled output. *)
Definition moved_to (r : Ruckig.Ruckig) (o : OutputParameter) : Ruckig.Ruckig :=
  Ruckig.with_current_input r
    (with_current (Ruckig.current_input r) (new_position o) (new_velocity o)
       (new_acceleration o)).
End Claim.

(** ** What the member functions leave as it is *)

Module Kept.

(** What [Profile::check] reads and never writes: the durations, the
    initial state at index 0, the classification and the brake prefix; and
    the sizes of the arrays it writes to. *)
Definition by_check (pr pr' : Profile.Profile) : Prop :=
  Profile.t pr' = Profile.t pr
  /\ Profile.limits pr' = Profile.limits pr
  /\ Profile.direction pr' = Profile.direction pr
  /\ Profile.teeth pr' = Profile.teeth pr
  /\ Profile.t_brake pr' = Profile.t_brake pr
  /\ Profile.t_brakes pr' = Profile.t_brakes pr
  /\ Profile.j_brakes pr' = Profile.j_brakes pr
  /\ Profile.a_brakes pr' = Profile.a_brakes pr
  /\ Profile.v_brakes pr' = Profile.v_brakes pr
  /\ Profile.p_brakes pr' = Profile.p_brakes pr
  /\ Profile.a pr' !!! 0%nat = Profile.a pr !!! 0%nat
  /\ Profile.v pr' !!! 0%nat = Profile.v pr !!! 0%nat
  /\ Profile.p pr' !!! 0%nat = Profile.p pr !!! 0%nat
  /\ length (Profile.t_sum pr') = length (Profile.t_sum pr)
  /\ length (Profile.a pr') = length (Profile.a pr)
  /\ length (Profile.v pr') = length (Profile.v pr)
  /\ length (Profile.p pr') = length (Profile.p pr).

(** What the two loops of [calculate] over the axes leave as it is: all of
    the object but its profiles, all of the output structure but
    [independent_min_durations]; and the sizes of these two arrays. *)
Definition by_loops (s s' : Ruckig.St) : Prop :=
  Ruckig.current_input s'.1 = Ruckig.current_input s.1
  /\ Ruckig.t s'.1 = Ruckig.t s.1
  /\ Ruckig.tf s'.1 = Ruckig.tf s.1
  /\ Ruckig.delta_time s'.1 = Ruckig.delta_time s.1
  /\ length (Ruckig.profiles s'.1) = length (Ruckig.profiles s.1)
  /\ new_position s'.2 = new_position s.2
  /\ new_velocity s'.2 = new_velocity s.2
  /\ new_acceleration s'.2 = new_acceleration s.2
  /\ duration s'.2 = duration s.2
  /\ new_calculation s'.2 = new_calculation s.2
  /\ calculation_duration s'.2 = calculation_duration s.2
  /\ length (independent_min_durations s'.2) = length (independent_min_durations s.2).
End Kept.

(** ** The brake prefix of an axis *)

Module Braking.
Local Open Scope float_scope.

(** The current state of an axis, as [calculate] reads it off the input. *)
Definition current (input : InputParameter) (dof : nat) : float * float * float :=
  (current_position input !!! dof, current_velocity input !!! dof,
   current_acceleration input !!! dof).

(** The state a profile records for its brake segment [k]. *)
Definition recorded (pr : Profile.Profile) (k : nat) : float * float * float :=
  (Profile.p_brakes pr !!! k, Profile.v_brakes pr !!! k, Profile.a_brakes pr !!! k).

(** [Profile::integrate] from a state [(p, v, a)]. *)
Definition integrate_from (t : float) (pva : float * float * float) (j : float)
  : float * float * float :=
  Profile.integrate t pva.1.1 pva.1.2 pva.2 j.

(** What [Brake::get_brake_trajectory] answers for an axis: the call of
    [calculate], with the two arrays of the profile passed by reference. *)
Definition trajectory (solvers : Solvers) (input : InputParameter) (dof : nat)
    (pr : Profile.Profile) : list float * list float :=
  get_brake_trajectory solvers
    (current_velocity input !!! dof) (current_acceleration input !!! dof)
    (max_velocity input !!! dof) (max_acceleration input !!! dof)
    (max_jerk input !!! dof) (Profile.t_brakes pr) (Profile.j_brakes pr).
End Braking.

(** ** What the loops of [calculate] hold for one axis *)

Module Axis.
Local Open Scope float_scope.

(** In the first loop: the profile of the axis, its block, its entry of
    [independent_min_durations], and the state at which Step1 starts. *)
Definition view (s : Ruckig.St) (loc : Ruckig.Locals) (dof : nat)
  : Profile.Profile * Block.Block * float * (float * float * float) :=
  (Ruckig.profiles s.1 !!! dof, Ruckig.blocks loc !!! dof,
   independent_min_durations s.2 !!! dof,
   (Ruckig.p0s loc !!! dof, Ruckig.v0s loc !!! dof, Ruckig.a0s loc !!! dof)).

(** The arrays of the first loop have one entry per axis. *)
Definition sized (DOFs : nat) (s : Ruckig.St) (loc : Ruckig.Locals) : Prop :=
  length (Ruckig.profiles s.1) = DOFs
  /\ length (independent_min_durations s.2) = DOFs
  /\ length (Ruckig.blocks loc) = DOFs
  /\ length (Ruckig.p0s loc) = DOFs
  /\ length (Ruckig.v0s loc) = DOFs
  /\ length (Ruckig.a0s loc) = DOFs.

(** What one iteration of the first loop leaves for an enabled axis when
    Step1 finds a profile: the profile with its brake prefix, the block of
    Step1, its [t_min], and the state after the brake prefix. *)
Definition planned (solvers : Solvers) (input : InputParameter) (dof : nat)
    (pr : Profile.Profile)
  : option (Profile.Profile * Block.Block * float * (float * float * float)) :=
  let '(pr', pva) := Ruckig.brake_dof solvers input dof pr in
  match Step1_get_profile solvers (Ruckig.step1_of input dof pva) pr'
          (max_velocity input !!! dof) (max_acceleration input !!! dof)
          (max_jerk input !!! dof) with
  | Some block => Some (pr', block, Block.t_min block, pva)
  | None => None
  end.

(** The axes the second loop passes over. *)
Definition skipped (input : InputParameter) (limiting_dof dof : nat) : bool :=
  negb (enabled input !!! dof) || (dof =? limiting_dof)%nat.

(** What Step2 answers for an axis at the synchronized duration [tf],
    given the profile the object holds for it: its [t_profile] is [tf]
    less the brake prefix. *)
Definition synchronized (solvers : Solvers) (input : InputParameter)
    (loc : Ruckig.Locals) (tf : float) (dof : nat) (pr : Profile.Profile)
  : bool * Profile.Profile :=
  Step2_get_profile solvers
    (Ruckig.step2_of input loc dof (tf - value_or (Profile.t_brake pr) 0)) pr
    (max_velocity input !!! dof) (max_acceleration input !!! dof)
    (max_jerk input !!! dof).
End Axis.

(** ** Vocabulary for binary64 values *)

(** Neither a NaN nor an infinity. *)
Definition finite (x : float) : Prop :=
  match Prim2SF x with
  | S754_zero _ | S754_finite _ _ _ => True
  | _ => False
  end.

(** A zero of either sign. *)
Definition zero (x : float) : Prop :=
  match Prim2SF x with
  | S754_zero _ => True
  | _ => False
  end.

(** The same value, up to the sign of a zero. *)
Definition same_number (x y : float) : Prop :=
  x = y \/ ((x =? 0)%float = true /\ (y =? 0)%float = true).

(** * Properties *)

(** ** Binary64 comparisons and NaN

    Facts of IEEE arithmetic the properties below rest on, from the
    specification of the primitive operations ([FloatAxioms]). *)

Section Binary64.
Local Open Scope float_scope.

Lemma SFcompare_swap x y : SFcompare y x = option_map CompOpp (SFcompare x y).
Proof.
  destruct x as [[]|[]| |[] mx ex], y as [[]|[]| |[] my ey]; simpl; try reflexivity;
    rewrite (Z.compare_antisym ey ex);
    destruct (ey ?= ex)%Z; simpl; try reflexivity;
    rewrite (Pos.compare_cont_antisym mx my Eq); simpl;
    rewrite ?CompOpp_involutive; reflexivity.
Qed.

Lemma SFcompare_refl x : x <> S754_nan -> SFcompare x x = Some Eq.
Proof.
  destruct x as [[]|[]| |[] mx ex]; simpl; try done;
    intros _; rewrite Z.compare_refl; change (Pos.compare_cont Eq mx mx) with (mx ?= mx)%positive;
    rewrite Pos.compare_refl; reflexivity.
Qed.

Lemma leb_ltb_false x y : (x <=? y) = true -> (y <? x) = false.
Proof.
  rewrite leb_spec, ltb_spec. unfold SFleb, SFltb.
  rewrite (SFcompare_swap (Prim2SF x) (Prim2SF y)).
  by destruct (SFcompare (Prim2SF x) (Prim2SF y)) as [[]|].
Qed.

Lemma ltb_irrefl x : (x <? x) = false.
Proof.
  rewrite ltb_spec. unfold SFltb.
  destruct (Prim2SF x) as [[]|[]| |[] mx ex] eqn:E; simpl; try done;
  rewrite Z.compare_refl; change (Pos.compare_cont Eq mx mx) with (mx ?= mx)%positive;
    rewrite Pos.compare_refl; reflexivity.
Qed.

Lemma is_nan_spec x : is_nan x = true <-> Prim2SF x = S754_nan.
Proof.
  unfold is_nan. rewrite negb_true_iff, FloatAxioms.eqb_spec. unfold SFeqb. split.
  - intros H. destruct (Prim2SF x) eqn:E; try done;
    rewrite SFcompare_refl in H by done; done.
  - by intros ->.
Qed.

Lemma SFleb_trans x y z : SFleb x y = true -> SFleb y z = true -> SFleb x z = true.
Proof.
  unfold SFleb.
  destruct x as [[]|[]| |[] mx ex], y as [[]|[]| |[] my ey], z as [[]|[]| |[] mz ez];
    simpl; try done;
  change (Pos.compare_cont Eq) with Pos.compare;
  repeat match goal with
         | |- context [(?a ?= ?b)%Z] => destruct (Z.compare_spec a b)
         | |- context [(?a ?= ?b)%positive] => destruct (Pos.compare_spec a b)
         end; simpl; try done; try lia.
Qed.

Lemma not_nan_spec x : is_nan x = false <-> Prim2SF x <> S754_nan.
Proof.
  rewrite <- is_nan_spec. by destruct (is_nan x).
Qed.

Lemma ltb_negb_leb x y :
  is_nan x = false -> is_nan y = false -> (x <? y) = negb (y <=? x).
Proof.
  rewrite !not_nan_spec, leb_spec, ltb_spec. unfold SFleb, SFltb. intros Hx Hy.
  rewrite (SFcompare_swap (Prim2SF x) (Prim2SF y)).
  destruct (Prim2SF x) as [[]|[]| |[] mx ex], (Prim2SF y) as [[]|[]| |[] my ey];
    try done; simpl;
    destruct (ex ?= ey)%Z; simpl; try done;
    destruct (Pos.compare_cont Eq mx my); done.
Qed.

Lemma leb_trans x y z : (x <=? y) = true -> (y <=? z) = true -> (x <=? z) = true.
Proof. rewrite !leb_spec. apply SFleb_trans. Qed.

Lemma leb_not_nan x y : (x <=? y) = true -> is_nan x = false /\ is_nan y = false.
Proof.
  rewrite leb_spec, !not_nan_spec. unfold SFleb.
  destruct (Prim2SF x), (Prim2SF y); done.
Qed.

Lemma ltb_nan_l x y : is_nan x = true -> (x <? y) = false.
Proof. rewrite is_nan_spec, ltb_spec. by intros ->. Qed.

Lemma ltb_nan_r x y : is_nan y = true -> (x <? y) = false.
Proof. rewrite is_nan_spec, ltb_spec. intros ->. by destruct (Prim2SF x). Qed.

Lemma add_nan_l x y : is_nan x = true -> is_nan (x + y) = true.
Proof. rewrite !is_nan_spec, add_spec. by intros ->. Qed.

Lemma add_nan_r x y : is_nan y = true -> is_nan (x + y) = true.
Proof. rewrite !is_nan_spec, add_spec. intros ->. by destruct (Prim2SF x). Qed.

Lemma sub_nan_l x y : is_nan x = true -> is_nan (x - y) = true.
Proof. rewrite !is_nan_spec, sub_spec. by intros ->. Qed.

Lemma mul_nan_l x y : is_nan x = true -> is_nan (x * y) = true.
Proof. rewrite !is_nan_spec, mul_spec. by intros ->. Qed.

Lemma mul_nan_r x y : is_nan y = true -> is_nan (x * y) = true.
Proof. rewrite !is_nan_spec, mul_spec. intros ->. by destruct (Prim2SF x). Qed.

Lemma abs_nan x : is_nan x = true -> is_nan (abs x) = true.
Proof. rewrite !is_nan_spec, abs_spec. by intros ->. Qed.
Lemma mul_finite x y : finite (x * y) -> finite x /\ finite y.
Proof.
  unfold finite. rewrite mul_spec.
  destruct (Prim2SF x) as [[]|[]| |[] mx ex], (Prim2SF y) as [[]|[]| |[] my ey]; done.
Qed.

Lemma zero_mul x : finite x -> zero (0 * x).
Proof.
  unfold finite, zero. rewrite mul_spec.
  change (Prim2SF 0) with (S754_zero false).
  by destruct (Prim2SF x).
Qed.

Lemma zero_div_2 x : zero x -> zero (x / 2).
Proof.
  unfold zero. rewrite div_spec.
  replace (Prim2SF 2) with (S754_finite false 4503599627370496 (-51)) by (by vm_compute).
  by destruct (Prim2SF x).
Qed.

Lemma zero_div_6 x : zero x -> zero (x / 6).
Proof.
  unfold zero. rewrite div_spec.
  replace (Prim2SF 6) with (S754_finite false 6755399441055744 (-50)) by (by vm_compute).
  by destruct (Prim2SF x).
Qed.

Lemma zero_eqb x : zero x -> (x =? 0) = true.
Proof.
  unfold zero. rewrite FloatAxioms.eqb_spec. change (Prim2SF 0) with (S754_zero false).
  by destruct (Prim2SF x).
Qed.

Lemma add_zero_same x z : zero z -> same_number (x + z) x.
Proof.
  unfold zero, same_number. intros Hz.
  destruct (Prim2SF x) as [sx|sx| |sx mx ex] eqn:Ex.
  - right. split; apply zero_eqb; unfold zero; rewrite ?add_spec, Ex; [|done].
    destruct (Prim2SF z) as [sz| | |]; try done. by destruct sx, sz.
  - left. apply Prim2SF_inj. rewrite add_spec, Ex. by destruct (Prim2SF z).
  - left. apply Prim2SF_inj. rewrite add_spec, Ex. by destruct (Prim2SF z).
  - left. apply Prim2SF_inj. rewrite add_spec, Ex. by destruct (Prim2SF z).
Qed.

Lemma add_zero_nonzero x z : zero z -> (x =? 0) = false -> x + z = x.
Proof.
  intros Hz Hx. destruct (add_zero_same x z Hz) as [?|[_ ?]]; congruence.
Qed.
Lemma ltb_asym x y : (x <? y) = true -> (y <? x) = false.
Proof.
  rewrite !ltb_spec. unfold SFltb.
  rewrite (SFcompare_swap (Prim2SF x) (Prim2SF y)).
  by destruct (SFcompare (Prim2SF x) (Prim2SF y)) as [[]|].
Qed.

Lemma not_ltb_trans x y z :
  is_nan x = false -> is_nan y = false -> is_nan z = false ->
  (y <? x) = false -> (z <? y) = false -> (z <? x) = false.
Proof.
  intros Hx Hy Hz. rewrite !ltb_negb_leb, !negb_false_iff by done.
  intros Hxy Hyz. eauto using leb_trans.
Qed.

Lemma infinity_ltb x : (infinity <? x) = false.
Proof.
  rewrite ltb_spec. change (Prim2SF infinity) with (S754_infinity false).
  unfold SFltb. by destruct (Prim2SF x) as [[]|[]| |[] mx ex].
Qed.

Lemma leb_refl x : is_nan x = false -> (x <=? x) = true.
Proof.
  intros Hx. pose proof (ltb_negb_leb x x Hx Hx) as H.
  rewrite ltb_irrefl in H. by destruct (x <=? x).
Qed.

Lemma ltb_not_nan x y : (x <? y) = true -> is_nan x = false /\ is_nan y = false.
Proof.
  intros H. split.
  - destruct (is_nan x) eqn:Hx; [|done]. by rewrite ltb_nan_l in H.
  - destruct (is_nan y) eqn:Hy; [|done]. by rewrite ltb_nan_r in H.
Qed.

Lemma ltb_leb_trans x y z : (x <? y) = true -> (y <=? z) = true -> (x <? z) = true.
Proof.
  intros Hxy Hyz.
  destruct (ltb_not_nan _ _ Hxy) as [Hx Hy]. destruct (leb_not_nan _ _ Hyz) as [_ Hz].
  rewrite ltb_negb_leb by done. destruct (z <=? x) eqn:Hzx; [|done].
  rewrite ltb_negb_leb, (leb_trans y z x) in Hxy by done. done.
Qed.

End Binary64.

(** ** The monad and the output structure *)

Lemma tie_new_twice o dof x y : tie_new (tie_new o dof x) dof y = tie_new o dof y.
Proof.
  destruct x as [[? ?] ?], y as [[? ?] ?]; unfold tie_new; simpl.
  by rewrite !list_insert_insert_eq.
Qed.

Lemma tie_new_sized n o dof x : Sample.sized n o -> Sample.sized n (tie_new o dof x).
Proof.
  destruct x as [[? ?] ?]; unfold Sample.sized, tie_new; simpl.
  by rewrite !length_insert.
Qed.

Lemma tie_new_kinematics_eq n o dof x :
  Sample.sized n o -> dof < n -> Sample.kinematics (tie_new o dof x) dof = x.
Proof.
  intros (Hp & Hv & Ha) Hlt. destruct x as [[xp xv] xa].
  unfold Sample.kinematics, tie_new; simpl.
  by rewrite !list_lookup_total_insert_eq by lia.
Qed.

Lemma tie_new_kinematics_ne o dof dof' x :
  dof <> dof' -> Sample.kinematics (tie_new o dof x) dof' = Sample.kinematics o dof'.
Proof.
  intros Hne. destruct x as [[xp xv] xa].
  unfold Sample.kinematics, tie_new; simpl.
  by rewrite !list_lookup_total_insert_ne.
Qed.

Lemma tie_new_scalars o dof x :
  duration (tie_new o dof x) = duration o /\
  new_calculation (tie_new o dof x) = new_calculation o /\
  calculation_duration (tie_new o dof x) = calculation_duration o /\
  independent_min_durations (tie_new o dof x) = independent_min_durations o.
Proof. by destruct x as [[? ?] ?]. Qed.

(** ** The loops of [at_time] *)

Section AtTime.
Context (DOFs : nat).
Implicit Types (r : Ruckig.Ruckig) (o : OutputParameter) (time : float).

Local Abbreviation at_time := (Ruckig.at_time DOFs).

Lemma tie_each_kinematics val dofs o dof :
  Sample.sized DOFs o -> dof < DOFs ->
  Sample.kinematics (Sample.tie_each val dofs o) dof =
    if decide (dof ∈ dofs) then val dof else Sample.kinematics o dof.
Proof.
  unfold Sample.tie_each. revert o.
  induction dofs as [|d dofs IH]; intros o Ho Hlt; cbn [fold_left].
  - by rewrite decide_False by set_solver.
  - rewrite IH by auto using tie_new_sized.
    destruct (decide (dof ∈ dofs)) as [Hin|Hin].
    + by rewrite decide_True by set_solver.
    + destruct (decide (d = dof)) as [->|Hne].
      * rewrite decide_True by (left; reflexivity). eauto using tie_new_kinematics_eq.
      * rewrite decide_False by (rewrite elem_of_cons; intros [?|?]; congruence).
        by apply tie_new_kinematics_ne.
Qed.

Lemma tie_each_scalars val dofs o :
  duration (Sample.tie_each val dofs o) = duration o /\
  new_calculation (Sample.tie_each val dofs o) = new_calculation o /\
  calculation_duration (Sample.tie_each val dofs o) = calculation_duration o /\
  independent_min_durations (Sample.tie_each val dofs o) = independent_min_durations o.
Proof.
  unfold Sample.tie_each. revert o. induction dofs as [|d dofs IH]; intros o; simpl; [done|].
  destruct (IH (tie_new o d (val d))) as (-> & -> & -> & ->).
  apply tie_new_scalars.
Qed.

Lemma tie_each_sized val dofs o :
  Sample.sized DOFs o -> Sample.sized DOFs (Sample.tie_each val dofs o).
Proof.
  unfold Sample.tie_each. revert o.
  induction dofs as [|d dofs IH]; intros o Ho; simpl; auto using tie_new_sized.
Qed.

Lemma fold_left_pointwise {A B} (f g : A -> B -> A) (l : list B) (x : A) :
  (forall y z, f y z = g y z) -> fold_left f l x = fold_left g l x.
Proof.
  intros Hfg. revert x. induction l as [|z l IH]; intros x; simpl; [done|].
  by rewrite Hfg, IH.
Qed.

(** The body of the sampling loop ties the value read off the profile,
    whatever the axis' [enabled] flag says: the value tied for a disabled
    axis is overwritten before the iteration ends. *)
Lemma sample_dof_ties r time o dof :
  Ruckig.sample_dof r time o dof =
    tie_new o dof (Sample.of_profile (Ruckig.profiles r !!! dof) time).
Proof.
  unfold Ruckig.sample_dof, Sample.of_profile, Sample.past_brake.
  set (p := Ruckig.profiles r !!! dof).
  destruct (negb (enabled (Ruckig.current_input r) !!! dof));
    destruct (Profile.t_brake p) as [tb|];
    repeat match goal with
           | |- context [if ?c then _ else _] => destruct c eqn:?
           end;
    rewrite ?tie_new_twice; reflexivity.
Qed.

Lemma at_time_past_end r time o :
  (Ruckig.tf r <? time + Ruckig.delta_time r)%float = true ->
  at_time r time o = Sample.tie_each (Sample.held r time) (seq 0 DOFs) o.
Proof. unfold Ruckig.at_time. by intros ->. Qed.

Lemma at_time_within r time o :
  (Ruckig.tf r <? time + Ruckig.delta_time r)%float = false ->
  at_time r time o =
    Sample.tie_each (fun dof => Sample.of_profile (Ruckig.profiles r !!! dof) time)
      (seq 0 DOFs) o.
Proof.
  unfold Ruckig.at_time. intros ->. apply fold_left_pointwise, sample_dof_ties.
Qed.

Lemma at_time_scalars r time o :
  duration (at_time r time o) = duration o /\
  new_calculation (at_time r time o) = new_calculation o /\
  calculation_duration (at_time r time o) = calculation_duration o /\
  independent_min_durations (at_time r time o) = independent_min_durations o.
Proof.
  destruct (Ruckig.tf r <? time + Ruckig.delta_time r)%float eqn:Hcmp.
  - rewrite at_time_past_end by done. apply tie_each_scalars.
  - rewrite at_time_within by done. apply tie_each_scalars.
Qed.

End AtTime.

(** ** Sampling past the end of the plan, and waiting at the endpoint *)

Section Sampling.
Context (DOFs : nat).
Implicit Types (r : Ruckig.Ruckig) (o : OutputParameter) (time : float).
Local Open Scope float_scope.

Local Abbreviation at_time := (Ruckig.at_time DOFs).

(** C7.  For every sample time with [time + delta_time > tf], [at_time]
    sets the output of every axis to the target state integrated with zero
    jerk over [dt = time - tf], that is to
    [Profile::integrate(dt, target_position, target_velocity,
    target_acceleration, 0)].  The terms of the zero jerk are zeros as long
    as [dt^3] stays finite, so the output is
    [target_position + target_velocity dt + target_acceleration dt^2/2],
    [target_velocity + target_acceleration dt] and [target_acceleration]
    (up to the sign of a zero): a non-zero target acceleration stays in
    force however long after the end of the plan the sample is taken. *)
Theorem at_time_past_end_holds_target r time o dof :
  Sample.sized DOFs o -> (dof < DOFs)%nat ->
  (Ruckig.tf r <? time + Ruckig.delta_time r) = true ->
  let input := Ruckig.current_input r in
  let dt := time - Ruckig.tf r in
  let pf := target_position input !!! dof in
  let vf := target_velocity input !!! dof in
  let af := target_acceleration input !!! dof in
  let o' := at_time r time o in
  Sample.kinematics o' dof = Profile.integrate dt pf vf af 0
  /\ (finite (dt * dt * dt) ->
      same_number (new_position o' !!! dof) (pf + vf * dt + af * (dt * dt) / 2)
      /\ same_number (new_velocity o' !!! dof) (vf + af * dt)
      /\ same_number (new_acceleration o' !!! dof) af
      /\ ((af =? 0) = false -> new_acceleration o' !!! dof = af)).
Proof.
  intros Ho Hdof Hend input dt pf vf af o'.
  assert (Sample.kinematics o' dof = Profile.integrate dt pf vf af 0) as Hk.
  { unfold o'. rewrite at_time_past_end by done.
    rewrite (tie_each_kinematics DOFs) by done.
    rewrite decide_True by (apply elem_of_seq; lia). reflexivity. }
  split; [exact Hk|]. intros Hfin.
  unfold Sample.kinematics, Profile.integrate in Hk. injection Hk as -> -> ->.
  destruct (mul_finite _ _ Hfin) as [Hfin2 Hfin1].
  pose proof (zero_div_6 _ (zero_mul _ Hfin)) as Hz3.
  pose proof (zero_div_2 _ (zero_mul _ Hfin2)) as Hz2.
  pose proof (zero_mul _ Hfin1) as Hz1.
  auto using add_zero_same, add_zero_nonzero.
Qed.

(** C10.  For every axis, when the sample time satisfies
    [time + delta_time <= tf] and the time elapsed past the axis' brake
    prefix is at least the total duration [t_sum[6]] of its profile,
    [at_time] outputs the stored endpoint [(p[7], v[7], a[7])]: the axis
    waits there. *)
Theorem at_time_waits_at_endpoint r time o dof t_diff :
  Sample.sized DOFs o -> (dof < DOFs)%nat ->
  (time + Ruckig.delta_time r <=? Ruckig.tf r) = true ->
  let p := Ruckig.profiles r !!! dof in
  match Profile.t_brake p with
  | Some t_brake => (t_brake <=? time) = true /\ t_diff = time - t_brake
  | None => t_diff = time
  end ->
  (Profile.t_sum p !!! 6%nat <=? t_diff) = true ->
  Sample.kinematics (at_time r time o) dof =
    (Profile.p p !!! 7%nat, Profile.v p !!! 7%nat, Profile.a p !!! 7%nat).
Proof.
  intros Ho Hdof Hin p Hbrake Hpast.
  rewrite at_time_within by auto using leb_ltb_false.
  rewrite (tie_each_kinematics DOFs) by done.
  rewrite decide_True by (apply elem_of_seq; lia).
  fold p. unfold Sample.of_profile, Sample.past_brake.
  destruct (Profile.t_brake p) as [t_brake|].
  - destruct Hbrake as [Hb ->]. rewrite (leb_ltb_false _ _ Hb). by rewrite Hpast.
  - subst t_diff. by rewrite Hpast.
Qed.

End Sampling.

(** At 4.0 the plan of 3.17 is over: the axis is at its target. *)
Lemma at_time_past_end_holds_target_witness :
  Sample.kinematics (Ruckig.at_time 1 Scenario.planned 4 Scenario.output0) 0
  = Profile.integrate (4 - Ruckig.tf Scenario.planned) 1 0 0 0.
Proof.
  refine (proj1 (at_time_past_end_holds_target 1 Scenario.planned 4%float
                   Scenario.output0 0 _ _ _)).
  - by vm_compute.
  - lia.
  - by vm_compute.
Defined.

(** At 4.0 of 5.0 the axis, whose profile lasts 3.17, waits at the endpoint
    of the profile. *)
Lemma at_time_waits_at_endpoint_witness :
  Sample.kinematics (Ruckig.at_time 1 Scenario.planned_longer 4 Scenario.output0) 0
  = (Profile.p (Ruckig.profiles Scenario.planned_longer !!! 0) !!! 7,
     Profile.v (Ruckig.profiles Scenario.planned_longer !!! 0) !!! 7,
     Profile.a (Ruckig.profiles Scenario.planned_longer !!! 0) !!! 7).
Proof.
  refine (at_time_waits_at_endpoint 1 Scenario.planned_longer 4%float
            Scenario.output0 0 4%float _ _ _ _ _).
  - by vm_compute.
  - lia.
  - by vm_compute.
  - by vm_compute.
  - by vm_compute.
Defined.

(** ** Disabled axes *)

(** Within the plan, the output of an axis is read off its stored profile,
    whether the axis is enabled or not. *)
Lemma at_time_within_reads_profile DOFs r time o dof :
  Sample.sized DOFs o -> dof < DOFs ->
  (Ruckig.tf r <? time + Ruckig.delta_time r)%float = false ->
  Sample.kinematics (Ruckig.at_time DOFs r time o) dof
  = Sample.of_profile (Ruckig.profiles r !!! dof) time.
Proof.
  intros Ho Hdof Hin. rewrite at_time_within by done.
  rewrite (tie_each_kinematics DOFs) by done.
  by rewrite decide_True by (apply elem_of_seq; lia).
Qed.

(** C2, where the code departs from the claim.  The single axis of
    [Scenario.switched_off] is disabled, with cached current state
    (5, 1, 0), and the sample time 1 lies within the plan.  The claim
    expects the cached state integrated with zero jerk, (6, 1, 0); [at_time]
    outputs the state of the stored profile at time 1, a position below 1. *)
Lemma at_time_disabled_axis_reads_profile :
  enabled (Ruckig.current_input Scenario.switched_off) !!! 0 = false
  /\ (1 + Ruckig.delta_time Scenario.switched_off
      <=? Ruckig.tf Scenario.switched_off)%float = true
  /\ Sample.of_current Scenario.switched_off 1 0 = (6, 1, 0)%float
  /\ Sample.kinematics (Ruckig.at_time 1 Scenario.switched_off 1 Scenario.output0) 0
     = Sample.of_profile (Ruckig.profiles Scenario.switched_off !!! 0) 1
  /\ (new_position (Ruckig.at_time 1 Scenario.switched_off 1 Scenario.output0)
        !!! 0%nat <? 1)%float = true.
Proof.
  split; [|split; [|split; [|split]]]; vm_compute; reflexivity.
Qed.

(** ** Cycles that do not plan *)

Section Update.
Context (DOFs : nat) (solvers : Solvers).
Implicit Types (r : Ruckig.Ruckig) (o : OutputParameter) (input : InputParameter).
Local Open Scope float_scope.

Local Abbreviation update := (Ruckig.update DOFs solvers).
Local Abbreviation calculate := (Ruckig.calculate DOFs solvers).

(** With an input equal to the cached one [update] is the clock tick and
    the sample: [calculate] is not run. *)
Lemma update_without_planning r o input locals0 limiting_dof0 elapsed :
  input_neq input (Ruckig.current_input r) = false ->
  let r' := Claim.advanced r in
  let o' := Claim.continued DOFs r o elapsed in
  update input locals0 limiting_dof0 elapsed (r, o) =
    if Ruckig.tf r <? Ruckig.t r' + Ruckig.delta_time r
    then (Ret Finished, (r', o'))
    else (Ret Working, (Claim.moved_to r' o', o')).
Proof.
  intros Hsame r' o'.
  unfold Ruckig.update, mbind, M_bind, Ruckig.on_ruckig, Ruckig.on_output, modify, get.
  cbn [fst snd Ruckig.with_t Ruckig.current_input]. rewrite Hsame.
  cbn [mret M_ret fst snd Ruckig.tf Ruckig.t Ruckig.delta_time Ruckig.with_t].
  fold r'. change (Ruckig.mkRuckig _ _ _ _ _) with r'.
  destruct (Ruckig.tf r <? _); reflexivity.
Qed.

(** A cycle that ends in [Working] leaves the cached input at the sampled
    output. *)
Lemma update_Working_moves_cache r o r1 o1 input locals0 limiting_dof0 elapsed :
  update input locals0 limiting_dof0 elapsed (r, o) = (Ret Working, (r1, o1)) ->
  current_position (Ruckig.current_input r1) = new_position o1
  /\ current_velocity (Ruckig.current_input r1) = new_velocity o1
  /\ current_acceleration (Ruckig.current_input r1) = new_acceleration o1.
Proof.
  unfold Ruckig.update, mbind, M_bind, Ruckig.on_ruckig, Ruckig.on_output, modify, get.
  cbn [fst snd].
  destruct (input_neq input _).
  - destruct (calculate _ _ _ _) as [[res|e] [r2 o2]]; [|discriminate].
    cbn [mret M_ret fst snd]. destruct (negb (Ruckig.is_Working res)); [discriminate|].
    destruct (_ <? _); [discriminate|]. by intros [= <- <-].
  - cbn [mret M_ret fst snd]. destruct (_ <? _); [discriminate|]. by intros [= <- <-].
Qed.

(** C8.  If [update] returns [Working], the cached input holds the sampled
    output as its current state; and if the input of the next call equals
    the cached input, the next [update] does not plan: the profiles and
    the duration stay, [new_calculation] is false, the output is the
    sample of the same plan at the clock advanced by one cycle, and the
    result is [Finished] exactly when that clock plus one cycle exceeds
    [tf]. *)
Theorem update_unchanged_input_continues
    r0 o0 in0 locals0 limiting_dof0 elapsed0
    r1 o1 input locals1 limiting_dof1 elapsed1 :
  update in0 locals0 limiting_dof0 elapsed0 (r0, o0) = (Ret Working, (r1, o1)) ->
  input_neq input (Ruckig.current_input r1) = false ->
  let r' := Claim.advanced r1 in
  let o' := Claim.continued DOFs r1 o1 elapsed1 in
  (current_position (Ruckig.current_input r1) = new_position o1
   /\ current_velocity (Ruckig.current_input r1) = new_velocity o1
   /\ current_acceleration (Ruckig.current_input r1) = new_acceleration o1)
  /\ Ruckig.profiles r' = Ruckig.profiles r1
  /\ Ruckig.tf r' = Ruckig.tf r1
  /\ Ruckig.t r' = Ruckig.t r1 + Ruckig.delta_time r1
  /\ new_calculation o' = false
  /\ o' = with_calculation_duration
            (Ruckig.at_time DOFs r' (Ruckig.t r') (with_new_calculation o1 false))
            elapsed1
  /\ update input locals1 limiting_dof1 elapsed1 (r1, o1) =
       if Ruckig.tf r1 <? Ruckig.t r' + Ruckig.delta_time r1
       then (Ret Finished, (r', o'))
       else (Ret Working, (Claim.moved_to r' o', o')).
Proof.
  intros Hfirst Hsame r' o'.
  split; [by eapply update_Working_moves_cache|].
  repeat (split; [reflexivity|]).
  split; [|split; [reflexivity|by apply update_without_planning]].
  unfold o', Claim.continued. cbn [new_calculation with_calculation_duration].
  by destruct (at_time_scalars DOFs (Claim.advanced r1) (Ruckig.t (Claim.advanced r1))
                 (with_new_calculation o1 false)) as (_ & -> & _).
Qed.

(** ** Invalid input *)

Lemma validate_dof_fails input dof :
  Ruckig.validate_dof input dof = None <-> Claim.fails_validation input dof = false.
Proof.
  unfold Ruckig.validate_dof, Claim.fails_validation.
  repeat match goal with
         | |- context [if ?c then _ else _] => destruct c
         end; cbn; split; (done || by intros _).
Qed.

Lemma validate_loop_fails input dofs :
  Ruckig.validate_loop input dofs = None <->
  forall dof, dof ∈ dofs -> Claim.fails_validation input dof = false.
Proof.
  induction dofs as [|d dofs IH]; cbn [Ruckig.validate_loop].
  - split; [intros _ dof Hin; by apply elem_of_nil in Hin|done].
  - destruct (Ruckig.validate_dof input d) as [msg|] eqn:Hd.
    + split; [done|]. intros Hall.
      assert (Ruckig.validate_dof input d = None) as Hnone
        by (apply validate_dof_fails, Hall; left).
      congruence.
    + rewrite IH. apply validate_dof_fails in Hd. split.
      * intros Hall dof [->|Hin]%elem_of_cons; auto.
      * intros Hall dof Hin. apply Hall. by right.
Qed.

Lemma validate_loop_diagnostic input dofs msg :
  Ruckig.validate_loop input dofs = Some msg ->
  exists dof, dof ∈ dofs /\ Claim.fails_validation input dof = true.
Proof.
  induction dofs as [|d dofs IH]; cbn [Ruckig.validate_loop]; [done|].
  destruct (Ruckig.validate_dof input d) as [msg'|] eqn:Hd.
  - intros _. exists d. split; [left|].
    destruct (Claim.fails_validation input d) eqn:Hf; [done|].
    apply validate_dof_fails in Hf. congruence.
  - intros (dof & Hin & Hf)%IH. exists dof. split; [by right|done].
Qed.

Lemma validate_input_fails input :
  Ruckig.validate_input DOFs input = false <->
  exists dof, (dof < DOFs)%nat /\ Claim.fails_validation input dof = true.
Proof.
  unfold Ruckig.validate_input. rewrite negb_false_iff. split.
  - destruct (Ruckig.validate_loop input (seq 0 DOFs)) as [msg|] eqn:Hl; [|done].
    intros _. apply validate_loop_diagnostic in Hl as (dof & Hin & Hf).
    apply elem_of_seq in Hin. exists dof. split; [lia|done].
  - intros (dof & Hlt & Hf).
    destruct (Ruckig.validate_loop input (seq 0 DOFs)) eqn:Hl; [done|].
    rewrite validate_loop_fails in Hl.
    rewrite Hl in Hf; [done|]. apply elem_of_seq. lia.
Qed.

(** C3, as the code has it.  If some axis of the input fails validation,
    [calculate] returns [ErrorInvalidInput] before any planning work; the
    stored profiles, the duration [tf], the clock and the output structure
    are as before the call, and the cached [current_input] is the
    rejected input. *)
Theorem calculate_rejects_invalid_input r o input locals0 limiting_dof0 :
  (exists dof, (dof < DOFs)%nat /\ Claim.fails_validation input dof = true) ->
  Ruckig.validate_input DOFs input = false
  /\ calculate input locals0 limiting_dof0 (r, o)
     = (Ret ErrorInvalidInput, (Ruckig.with_current_input r input, o))
  /\ Ruckig.profiles (Ruckig.with_current_input r input) = Ruckig.profiles r
  /\ Ruckig.tf (Ruckig.with_current_input r input) = Ruckig.tf r
  /\ Ruckig.t (Ruckig.with_current_input r input) = Ruckig.t r
  /\ Ruckig.current_input (Ruckig.with_current_input r input) = input.
Proof.
  intros Hbad%validate_input_fails. split; [done|].
  split; [|done].
  unfold Ruckig.calculate, mbind, M_bind, Ruckig.on_ruckig, modify.
  cbn [fst snd]. by rewrite Hbad.
Qed.

End Update.

(** The cycle after the one that planned the rest-to-rest move, fed the
    cached input: it samples the plan at 0.01 and goes on. *)
Lemma update_unchanged_input_continues_witness :
  Ruckig.update 1 Scenario.solvers (Ruckig.current_input Scenario.planned)
    Scenario.locals0 0 0 (Scenario.planned, Scenario.output1)
  = (Ret Working,
     (Claim.moved_to (Claim.advanced Scenario.planned)
        (Claim.continued 1 Scenario.planned Scenario.output1 0),
      Claim.continued 1 Scenario.planned Scenario.output1 0)).
Proof.
  destruct (update_unchanged_input_continues 1 Scenario.solvers
              Scenario.fresh Scenario.output0 (Scenario.rest_to_rest None)
              Scenario.locals0 0 0%float Scenario.planned Scenario.output1
              (Ruckig.current_input Scenario.planned) Scenario.locals0 0 0%float)
    as (_ & _ & _ & _ & _ & _ & ->).
  - vm_compute; reflexivity.
  - vm_compute; reflexivity.
  - replace (Ruckig.tf Scenario.planned
             <? Ruckig.t (Claim.advanced Scenario.planned)
                + Ruckig.delta_time Scenario.planned)%float
      with false by (vm_compute; reflexivity).
    reflexivity.
Defined.

(** C3, as the claim states it, fails: the rejected input replaces the
    cached one. *)
Lemma calculate_invalid_input_overwrites_cache :
  Claim.fails_validation Scenario.invalid_input 0 = true
  /\ (Ruckig.calculate 1 Scenario.solvers Scenario.invalid_input Scenario.locals0 0
        (Scenario.planned, Scenario.output1)).1 = Ret ErrorInvalidInput
  /\ Ruckig.current_input
       (Ruckig.calculate 1 Scenario.solvers Scenario.invalid_input Scenario.locals0 0
          (Scenario.planned, Scenario.output1)).2.1
     <> Ruckig.current_input Scenario.planned.
Proof.
  split; [vm_compute; reflexivity|]. split; [vm_compute; reflexivity|].
  intros Heq.
  apply (f_equal (fun i => (max_velocity i !!! 0%nat <=? 0)%float)) in Heq.
  vm_compute in Heq. discriminate.
Qed.

Lemma calculate_rejects_invalid_input_witness :
  Ruckig.calculate 1 Scenario.solvers Scenario.invalid_input Scenario.locals0 0
    (Scenario.planned, Scenario.output1)
  = (Ret ErrorInvalidInput,
     (Ruckig.with_current_input Scenario.planned Scenario.invalid_input,
      Scenario.output1)).
Proof.
  refine (proj1 (proj2 (calculate_rejects_invalid_input 1 Scenario.solvers
                          Scenario.planned Scenario.output1 Scenario.invalid_input
                          Scenario.locals0 0 _))).
  exists 0. split; [lia|vm_compute; reflexivity].
Defined.

(** ** The synchronizer below a minimum duration *)

(** C9, where the code departs from the claim.  One axis, a block without
    forbidden intervals (so without the profiles [p_a], [p_b]) and a floor
    above the block's [t_min]: the candidate [t_min] is rejected for the
    floor, the candidate of the absent interval [a], infinity, is accepted
    at index 1, and [p_a.value()] throws [std::bad_optional_access]; the
    references [t_sync] and [limiting_dof] have been written by then. *)
Theorem synchronize_floor_above_t_min_throws block floor refs :
  Block.a block = None -> Block.b block = None -> Block.p_a block = None ->
  (Block.t_min block <? floor)%float = true ->
  Ruckig.synchronize 1 [block] (Some floor) refs
  = (Throw bad_optional_access,
     Ruckig.mkSyncRefs infinity 0 (Ruckig.sync_profiles refs)).
Proof.
  intros Ha Hb Hpa Hfloor.
  unfold Ruckig.synchronize, Ruckig.possible_t_syncs, Ruckig.sorted_idx.
  cbn [Nat.eqb andb has_value negb seq flat_map app Nat.mul Nat.add
       lookup_total list_lookup_total].
  rewrite Ha, Hb.
  cbn [Ruckig.stable_sort Ruckig.insert_sorted lookup_total list_lookup_total].
  rewrite !infinity_ltb.
  cbn [Ruckig.stable_sort Ruckig.insert_sorted lookup_total list_lookup_total].
  rewrite !infinity_ltb.
  cbn [Ruckig.sync_loop lookup_total list_lookup_total].
  unfold Ruckig.rejected, Block.is_blocked, Block.inside.
  cbn [existsb value_or]. rewrite Ha, Hb, Hfloor, !infinity_ltb.
  cbn [orb]. rewrite orb_true_r.
  unfold Ruckig.lock_in, mbind, M_bind, modify, get.
  cbn [Ruckig.limiting_dof Ruckig.sync_profiles Ruckig.t_sync Nat.modulo Nat.divmod
       fst snd Nat.sub].
  change (Ruckig.limiting_of 1) with 0%nat.
  cbn [lookup_total list_lookup_total]. rewrite Hpa. reflexivity.
Qed.

Lemma synchronize_floor_above_t_min_throws_witness :
  Ruckig.synchronize 1 [Scenario.rest_block Scenario.blank] (Some 10%float)
    (Ruckig.mkSyncRefs 0 0 [Scenario.blank])
  = (Throw bad_optional_access, Ruckig.mkSyncRefs infinity 0 [Scenario.blank]).
Proof.
  refine (synchronize_floor_above_t_min_throws
            (Scenario.rest_block Scenario.blank) 10%float
            (Ruckig.mkSyncRefs 0 0 [Scenario.blank]) _ _ _ _);
    vm_compute; reflexivity.
Defined.

(** C4, where the code departs from the claim.  Boundary scenario 6: the
    rest-to-rest move of scenario 1 with [minimum_duration = 10].  Step1
    reports the minimum duration 3.17 and no forbidden interval; the first
    [update] does not return: [synchronize] throws
    [std::bad_optional_access], leaving [tf] at infinity. *)
Lemma update_with_minimum_duration_throws :
  minimum_duration (Scenario.rest_to_rest (Some 10%float)) = Some 10%float
  /\ (Block.t_min (Scenario.rest_block Scenario.blank) <? 10)%float = true
  /\ (Ruckig.update 1 Scenario.solvers (Scenario.rest_to_rest (Some 10%float))
        Scenario.locals0 0 0 (Scenario.fresh, Scenario.output0)).1
     = Throw bad_optional_access
  /\ Ruckig.tf
       (Ruckig.update 1 Scenario.solvers (Scenario.rest_to_rest (Some 10%float))
          Scenario.locals0 0 0 (Scenario.fresh, Scenario.output0)).2.1
     = infinity.
Proof.
  split; [|split; [|split]]; vm_compute; reflexivity.
Qed.

(** ** Profile::check against the claim *)

Section Check.
Local Open Scope float_scope.
Implicit Types (pr : Profile.Profile) (tth : Profile.Teeth).

(** The first loop: it stops at the first negative duration, touches
    nothing but [t_sum], and leaves the prefix sums when it runs through. *)
Lemma t_sum_loop_result n i pr :
  (Profile.t_sum_loop n i pr).1
  = forallb (fun k => negb (Profile.t pr !!! k <? 0)) (seq (S i) n).
Proof.
  revert i pr. induction n as [|n IH]; intros i pr; cbn [Profile.t_sum_loop seq forallb].
  - reflexivity.
  - replace (i + 1)%nat with (S i) by lia.
    destruct (Profile.t pr !!! S i <? 0); [reflexivity|].
    by rewrite IH.
Qed.

Lemma t_sum_loop_frame n i pr :
  let pr' := (Profile.t_sum_loop n i pr).2 in
  Profile.t pr' = Profile.t pr /\ Profile.j pr' = Profile.j pr
  /\ Profile.a pr' = Profile.a pr /\ Profile.v pr' = Profile.v pr
  /\ Profile.p pr' = Profile.p pr
  /\ length (Profile.t_sum pr') = length (Profile.t_sum pr).
Proof.
  revert i pr. induction n as [|n IH]; intros i pr; cbn [Profile.t_sum_loop].
  - done.
  - destruct (Profile.t pr !!! (i + 1)%nat <? 0); [done|].
    destruct (IH (S i) (Profile.with_t_sum pr
                (<[(i + 1)%nat := Profile.t_sum pr !!! i + Profile.t pr !!! (i + 1)%nat]>
                   (Profile.t_sum pr)))) as (-> & -> & -> & -> & -> & ->).
    cbn. by rewrite length_insert.
Qed.

Lemma t_sum_loop_sums n i pr :
  (i + n < length (Profile.t_sum pr))%nat ->
  (forall k, (k <= i)%nat ->
     Profile.t_sum pr !!! k = Feasible.prefix_sum (Profile.t pr) k) ->
  (Profile.t_sum_loop n i pr).1 = true ->
  forall k, (k <= i + n)%nat ->
    Profile.t_sum (Profile.t_sum_loop n i pr).2 !!! k
    = Feasible.prefix_sum (Profile.t pr) k.
Proof.
  revert i pr. induction n as [|n IH]; intros i pr Hlen Hinv; cbn [Profile.t_sum_loop].
  - intros _ k Hk. apply Hinv. lia.
  - replace (i + 1)%nat with (S i) by lia.
    destruct (Profile.t pr !!! S i <? 0); [done|].
    intros Hrun k Hk.
    rewrite IH; cbn [Profile.t Profile.t_sum Profile.with_t_sum]; try done.
    + rewrite length_insert. lia.
    + intros m Hm. destruct (decide (m = S i)) as [->|Hne].
      * rewrite list_lookup_total_insert_eq by lia.
        cbn [Feasible.prefix_sum]. by rewrite Hinv by lia.
      * rewrite list_lookup_total_insert_ne by done. apply Hinv. lia.
    + lia.
Qed.

(** The second loop: segment by segment it leaves the boundary states. *)
Lemma integrate_step_frame pr i :
  let pr' := Profile.integrate_step pr i in
  Profile.t pr' = Profile.t pr /\ Profile.j pr' = Profile.j pr
  /\ Profile.t_sum pr' = Profile.t_sum pr
  /\ Profile.a pr'
     = <[S i := Profile.a pr !!! i + Profile.t pr !!! i * Profile.j pr !!! i]>
         (Profile.a pr)
  /\ Profile.v pr'
     = <[S i := Profile.v pr !!! i
                + Profile.t pr !!! i
                  * (Profile.a pr !!! i + Profile.t pr !!! i * Profile.j pr !!! i / 2)]>
         (Profile.v pr)
  /\ Profile.p pr'
     = <[S i := Profile.p pr !!! i
                + Profile.t pr !!! i
                  * (Profile.v pr !!! i
                     + Profile.t pr !!! i
                       * (Profile.a pr !!! i / 2
                          + Profile.t pr !!! i * Profile.j pr !!! i / 6))]>
         (Profile.p pr).
Proof.
  unfold Profile.integrate_step. replace (i + 1)%nat with (S i) by lia.
  cbn [Profile.t Profile.j Profile.t_sum Profile.a Profile.v Profile.p
       Profile.with_a Profile.with_v Profile.with_p].
  repeat split; try reflexivity.
  - by rewrite list_lookup_total_insert_ne by lia.
  - rewrite !list_lookup_total_insert_ne by lia. reflexivity.
Qed.

Lemma integrate_steps_boundary n pr :
  (n < length (Profile.a pr))%nat -> (n < length (Profile.v pr))%nat ->
  (n < length (Profile.p pr))%nat ->
  let pr' := fold_left Profile.integrate_step (seq 0 n) pr in
  Profile.t pr' = Profile.t pr /\ Profile.j pr' = Profile.j pr
  /\ Profile.t_sum pr' = Profile.t_sum pr
  /\ length (Profile.a pr') = length (Profile.a pr)
  /\ length (Profile.v pr') = length (Profile.v pr)
  /\ length (Profile.p pr') = length (Profile.p pr)
  /\ forall k, (k <= n)%nat ->
       (Profile.a pr' !!! k, Profile.v pr' !!! k, Profile.p pr' !!! k)
       = Feasible.boundary (Profile.t pr) (Profile.j pr) (Feasible.start pr) k.
Proof.
  induction n as [|n IH]; intros Ha Hv Hp.
  - cbn [seq fold_left]. repeat split; try reflexivity.
    intros k Hk. by replace k with 0%nat by lia.
  - rewrite seq_S, fold_left_app. cbn [fold_left Nat.add].
    destruct IH as (Ht' & Hj' & Hs' & Hla & Hlv & Hlp & Hinv); try lia.
    set (pr1 := fold_left Profile.integrate_step (seq 0 n) pr) in *.
    destruct (integrate_step_frame pr1 n) as (Ht & Hj & Hs & Hea & Hev & Hep).
    cbv zeta. rewrite Ht, Hj, Hs, Hea, Hev, Hep, !length_insert.
    repeat split; try done.
    intros k Hk. destruct (decide (k = S n)) as [->|Hne].
    + rewrite !list_lookup_total_insert_eq by lia.
      cbn [Feasible.boundary]. rewrite <- (Hinv n) by lia.
      by rewrite Ht', Hj'.
    + rewrite !list_lookup_total_insert_ne by done. apply Hinv. lia.
Qed.

(** The value returned after the loops, in the words of the claim. *)
Lemma within_limits_bounded pr' ts js s pf vf af vMax aMax :
  length (Profile.a pr') = 8%nat -> length (Profile.v pr') = 8%nat ->
  length (Profile.p pr') = 8%nat ->
  (forall k, (k < 8)%nat ->
     (Profile.a pr' !!! k, Profile.v pr' !!! k, Profile.p pr' !!! k)
     = Feasible.boundary ts js s k) ->
  Profile.within_limits pr' pf vf af vMax aMax
  = Feasible.bounded ts js s pf vf af (abs vMax) (abs aMax).
Proof.
  intros Ha Hv Hp Hb.
  unfold Feasible.bounded, Feasible.a_at, Feasible.v_at, Feasible.p_at.
  cbn [forallb seq].
  rewrite <- !Hb by lia. cbn [fst snd].
  unfold Profile.within_limits.
  destruct pr' as [? ? ? ? ? ? as_ vs ps ? ? ? ? ? ?].
  cbn [Profile.a Profile.v Profile.p] in *.
  repeat (destruct as_ as [|? as_]; [discriminate|]); destruct as_; [|discriminate].
  repeat (destruct vs as [|? vs]; [discriminate|]); destruct vs; [|discriminate].
  repeat (destruct ps as [|? ps]; [discriminate|]); destruct ps; [|discriminate].
  reflexivity.
Qed.

Lemma a_at_S ts js s k :
  Feasible.a_at ts js s (S k) = Feasible.a_at ts js s k + ts !!! k * js !!! k.
Proof.
  unfold Feasible.a_at. cbn [Feasible.boundary].
  by destruct (Feasible.boundary ts js s k) as [[? ?] ?].
Qed.

(** A NaN among the durations reaches the final acceleration. *)
Lemma a_at_nan ts js s i k :
  is_nan (ts !!! i) = true -> (i < k)%nat -> is_nan (Feasible.a_at ts js s k) = true.
Proof.
  intros Hnan. induction k as [|k IH]; intros Hik; [lia|].
  rewrite a_at_S. destruct (decide (i = k)) as [->|Hne].
  - by apply add_nan_r, mul_nan_l.
  - apply add_nan_l, IH. lia.
Qed.

Lemma bounded_nan ts js s pf vf af v_bound a_bound i :
  is_nan (ts !!! i) = true -> (i < 7)%nat ->
  Feasible.bounded ts js s pf vf af v_bound a_bound = false.
Proof.
  intros Hnan Hi. unfold Feasible.bounded.
  rewrite (ltb_nan_l (abs (Feasible.a_at ts js s 7 - af))).
  - apply andb_false_r.
  - eauto using abs_nan, sub_nan_l, a_at_nan.
Qed.

Lemma forallb_false_witness {A} (f : A -> bool) (l : list A) :
  forallb f l = false -> exists x, x ∈ l /\ f x = false.
Proof.
  induction l as [|x l IH]; cbn [forallb]; [done|].
  destruct (f x) eqn:Hfx.
  - intros (y & Hin & Hy)%IH. exists y. split; [by right|done].
  - intros _. exists x. split; [left|done].
Qed.

(** The claim's [t[i] >= 0] against the test [t[i] < 0] of the source: they
    differ on a NaN only. *)
Lemma nonnegative_no_negative ts :
  Feasible.nonnegative ts = true -> Feasible.no_negative ts = true.
Proof.
  unfold Feasible.nonnegative, Feasible.no_negative.
  rewrite !forallb_forall. intros Hall i Hi.
  by rewrite (leb_ltb_false _ _ (Hall i Hi)).
Qed.

Lemma no_negative_negative_nan ts :
  Feasible.no_negative ts = true -> Feasible.nonnegative ts = false ->
  exists i, (i < 7)%nat /\ is_nan (ts !!! i) = true.
Proof.
  unfold Feasible.nonnegative, Feasible.no_negative.
  rewrite forallb_forall. intros Hall (i & Hi & Hle)%forallb_false_witness.
  exists i. apply elem_of_seq in Hi as Hlt. split; [lia|].
  specialize (Hall i (proj1 (list_elem_of_In _ _) Hi)).
  apply negb_true_iff in Hall.
  destruct (is_nan (ts !!! i)) eqn:Hnan; [done|].
  rewrite (ltb_negb_leb (ts !!! i) 0 Hnan) in Hall by (vm_compute; reflexivity).
  by rewrite Hle in Hall.
Qed.

(** The profile handed to the first loop. *)
Lemma check_runs tth pf vf af jf vMax aMax pr :
  let pr0 := Profile.with_t_sum (Profile.fill_j tth jf pr)
               (<[0%nat := Profile.t pr !!! 0%nat]> (Profile.t_sum pr)) in
  let pr1 := (Profile.t_sum_loop 6 0 pr0).2 in
  Profile.check tth pf vf af jf vMax aMax pr
  = if Feasible.no_negative (Profile.t pr)
    then (Profile.within_limits (Profile.integrate_loop pr1) pf vf af vMax aMax,
          Profile.integrate_loop pr1)
    else (false, if Profile.t pr !!! 0%nat <? 0 then pr0 else pr1).
Proof.
  intros pr0 pr1. subst pr1 pr0. unfold Profile.check, Feasible.no_negative.
  cbn [seq forallb Profile.t Profile.t_sum Profile.fill_j Profile.with_j
       Profile.with_t_sum].
  destruct (Profile.t pr !!! 0%nat <? 0); [reflexivity|]. cbn [negb andb].
  match goal with
  | |- context [Profile.t_sum_loop 6 0 ?pr0] =>
      pose proof (t_sum_loop_result 6 0 pr0) as Hres;
      destruct (Profile.t_sum_loop 6 0 pr0) as [b pr1]
  end.
  cbn [fst snd seq forallb Profile.t Profile.fill_j Profile.with_j
       Profile.with_t_sum] in Hres.
  rewrite <- Hres.
  by destruct b.
Qed.

Lemma check_fills tth pf vf af jf vMax aMax pr :
  Profile.sized pr ->
  Feasible.no_negative (Profile.t pr) = true ->
  let pr' := (Profile.check tth pf vf af jf vMax aMax pr).2 in
  Feasible.filled tth jf pr pr'
  /\ length (Profile.a pr') = 8%nat /\ length (Profile.v pr') = 8%nat
  /\ length (Profile.p pr') = 8%nat.
Proof.
  intros (Ht & Hs & Hj & Ha & Hv & Hp) Hnn.
  rewrite check_runs, Hnn. cbn [snd].
  set (pr0 := Profile.with_t_sum _ _).
  assert ((Profile.t_sum_loop 6 0 pr0).1 = true) as Hrun.
  { rewrite t_sum_loop_result. unfold Feasible.no_negative in Hnn.
    cbn [seq forallb] in Hnn. by apply andb_prop in Hnn as [_ ?]. }
  pose proof (t_sum_loop_sums 6 0 pr0) as Hsums.
  destruct (t_sum_loop_frame 6 0 pr0) as (Ht1 & Hj1 & Ha1 & Hv1 & Hp1 & Hl1).
  set (pr1 := (Profile.t_sum_loop 6 0 pr0).2) in *.
  destruct (integrate_steps_boundary 7 pr1)
    as (Ht2 & Hj2 & Hs2 & Hla & Hlv & Hlp & Hb);
    rewrite ?Ha1, ?Hv1, ?Hp1; cbn [Profile.a Profile.v Profile.p pr0
      Profile.with_t_sum Profile.fill_j Profile.with_j]; try lia.
  fold (Profile.integrate_loop pr1) in *. cbv zeta.
  rewrite Hla, Hlv, Hlp, Ha1, Hv1, Hp1.
  split; [|done].
  unfold Feasible.filled. rewrite Hj2, Hj1, Hs2. split; [by destruct tth|].
  split.
  - intros k Hk. apply Hsums; try done; try lia.
    + cbn [pr0 Profile.t_sum Profile.with_t_sum]. rewrite length_insert. lia.
    + intros m Hm. replace m with 0%nat by lia.
      cbn [pr0 Profile.t_sum Profile.with_t_sum Profile.t Profile.fill_j
           Profile.with_j Feasible.prefix_sum].
      by rewrite list_lookup_total_insert_eq by lia.
  - intros k Hk. rewrite Hb by lia. rewrite Ht1, Hj1.
    unfold Feasible.start. rewrite Ha1, Hv1, Hp1. by destruct tth.
Qed.

Lemma check_j tth pf vf af jf vMax aMax pr :
  Profile.j (Profile.check tth pf vf af jf vMax aMax pr).2 = Feasible.pattern tth jf.
Proof.
  rewrite check_runs.
  set (pr0 := Profile.with_t_sum _ _).
  destruct (t_sum_loop_frame 6 0 pr0) as (_ & Hj1 & _).
  destruct (Feasible.no_negative _); cbn [snd].
  - unfold Profile.integrate_loop.
    assert (forall n pr, Profile.j (fold_left Profile.integrate_step (seq 0 n) pr)
                         = Profile.j pr) as Hfold.
    { induction n as [|n IH]; intros pr2; [done|].
      rewrite seq_S, fold_left_app. cbn [fold_left].
      destruct (integrate_step_frame
                  (fold_left Profile.integrate_step (seq 0 n) pr2) (0 + n))
        as (_ & -> & _). apply IH. }
    rewrite Hfold, Hj1. by destruct tth.
  - destruct (_ <? _); [|rewrite Hj1]; by destruct tth.
Qed.

Lemma check_result tth pf vf af jf vMax aMax pr :
  Profile.sized pr ->
  (Profile.check tth pf vf af jf vMax aMax pr).1
  = Feasible.feasible tth (Profile.t pr) (Feasible.start pr) pf vf af jf vMax aMax.
Proof.
  intros Hs. unfold Feasible.feasible.
  destruct (Feasible.no_negative (Profile.t pr)) eqn:Hnn.
  - destruct (check_fills tth pf vf af jf vMax aMax pr Hs Hnn)
      as ((_ & _ & Hb) & Ha & Hv & Hp).
    rewrite check_runs, Hnn in *. cbn [fst snd] in *.
    rewrite (within_limits_bounded _ _ _ _ _ _ _ _ _ Ha Hv Hp Hb).
    destruct (Feasible.nonnegative (Profile.t pr)) eqn:Hge; [done|].
    destruct (no_negative_negative_nan _ Hnn Hge) as (i & Hi & Hnan).
    by rewrite (bounded_nan _ _ _ _ _ _ _ _ i Hnan Hi).
  - rewrite check_runs, Hnn. cbn [fst].
    destruct (Feasible.nonnegative (Profile.t pr)) eqn:Hge; [|done].
    apply nonnegative_no_negative in Hge. congruence.
Qed.

(** C5, as the code has it.  For every candidate [(t[0..6], jf, teeth)] and
    targets [(pf, vf, af)], [check] fills [j[]] from the teeth pattern
    and, when no [t[i]] is negative, [t_sum] with the prefix sums of [t]
    and [a[1..7]], [v[1..7]], [p[1..7]] by constant-jerk forward integration
    from [(a[0], v[0], p[0])]; it returns true if and only if every
    [t[i] >= 0], [|v[i]| < |vMax| + 1e-9] for [i] in [3, 7],
    [|a[i]| < |aMax| + 1e-9] for [i] in [2, 7], and [|p[7] - pf|],
    [|v[7] - vf|], [|a[7] - af| < 1e-8]: the limits count by their absolute
    values.  The duration-constrained overload also requires
    [|t_sum[6] - tf| < 1e-8], and the jerk-constrained overload also
    requires [|jf| < |jMax| + 1e-12]. *)
Theorem check_feasible tth tf pf vf af jf vMax aMax jMax pr :
  Profile.sized pr ->
  let ts := Profile.t pr in
  let ok := Feasible.feasible tth ts (Feasible.start pr) pf vf af jf vMax aMax in
  let timed := abs (Feasible.prefix_sum ts 6 - tf) <? 1e-8 in
  (Profile.check tth pf vf af jf vMax aMax pr).1 = ok
  /\ Profile.j (Profile.check tth pf vf af jf vMax aMax pr).2 = Feasible.pattern tth jf
  /\ (Feasible.no_negative ts = true ->
      Feasible.filled tth jf pr (Profile.check tth pf vf af jf vMax aMax pr).2)
  /\ (Profile.check_tf tth tf pf vf af jf vMax aMax pr).1 = ok && timed
  /\ (Profile.check_tf_jMax tth tf pf vf af jf vMax aMax jMax pr).1
     = (abs jf <? abs jMax + 1e-12) && ok && timed.
Proof.
  intros Hs ts ok timed.
  pose proof (check_result tth pf vf af jf vMax aMax pr Hs) as Hres. fold ts ok in Hres.
  assert ((Profile.check_tf tth tf pf vf af jf vMax aMax pr).1 = ok && timed) as Htf.
  { unfold Profile.check_tf.
    destruct (Profile.check tth pf vf af jf vMax aMax pr) as [[] pr'] eqn:Hc;
      cbn [fst] in *; rewrite <- Hres; [|done]. cbn [andb].
    assert (Feasible.no_negative ts = true) as Hnn.
    { apply nonnegative_no_negative. symmetry in Hres. unfold ok in Hres.
      by apply andb_prop in Hres as [? _]. }
    destruct (check_fills tth pf vf af jf vMax aMax pr Hs Hnn) as ((_ & Hsum & _) & _).
    rewrite Hc in Hsum. cbn [snd] in Hsum. by rewrite Hsum by lia. }
  split; [done|]. split; [apply check_j|].
  split; [intros Hnn; by apply check_fills|]. split; [done|].
  unfold Profile.check_tf_jMax. destruct (abs jf <? abs jMax + 1e-12); [|done].
  by rewrite Htf.
Qed.
End Check.

(** C5, as the claim states it, fails: the mirrored rest-to-rest move (from
    0 to -1, which Step1 poses with negated limits) is accepted by [check],
    while [|v[3]| < vMax + 1e-9] cannot hold for [vMax = -1]; and for a
    candidate with a negative [t[6]], [check] returns before it integrates:
    [a[1]] keeps its old value 0 where the integration gives [t[0] * jf]. *)
Lemma check_accepts_under_negative_limits :
  ((Profile.check Profile.UDDU (-1) 0 0 (-1) (-1) (-1)
      (Scenario.rest_candidate Scenario.blank)).1 = true
   /\ Feasible.as_claimed Profile.UDDU
        (Profile.t (Scenario.rest_candidate Scenario.blank))
        (Feasible.start (Scenario.rest_candidate Scenario.blank))
        (-1) 0 0 (-1) (-1) (-1) = false)
  /\ (Profile.a (Profile.check Profile.UDDU 1 0 0 1 1 1
                   Scenario.negative_candidate).2 !!! 1 = 0%float
      /\ (0 <? Feasible.a_at (Profile.t Scenario.negative_candidate)
                 (Feasible.pattern Profile.UDDU 1)
                 (Feasible.start Scenario.negative_candidate) 1)%float = true).
Proof.
  split; split; vm_compute; reflexivity.
Qed.

Lemma check_feasible_witness :
  (Profile.check Profile.UDDU 1 0 0 1 1 1 (Scenario.rest_candidate Scenario.blank)).1
  = Feasible.feasible Profile.UDDU
      (Profile.t (Scenario.rest_candidate Scenario.blank))
      (Feasible.start (Scenario.rest_candidate Scenario.blank)) 1 0 0 1 1 1.
Proof.
  refine (proj1 (check_feasible Profile.UDDU 0 1 0 0 1 1 1 1
                   (Scenario.rest_candidate Scenario.blank) _)).
  by vm_compute.
Defined.

(** ** Stable sorting *)

Section StableSort.
Context {A : Type} (lt : A -> A -> bool).
(** [ok] holds of the elements [lt] orders properly; [ord] is the order the
    elements come in. *)
Context (ok : A -> Prop) (ord : A -> A -> Prop).
Hypothesis lt_asym : forall x y, lt x y = true -> lt y x = false.
Hypothesis le_trans : forall x y z,
  ok x -> ok y -> ok z -> lt y x = false -> lt z y = false -> lt z x = false.

Lemma insert_sorted_perm x l : Permutation (Ruckig.insert_sorted lt x l) (x :: l).
Proof.
  induction l as [|y l IH]; cbn [Ruckig.insert_sorted]; [done|].
  destruct (lt y x); [|done].
  rewrite IH. apply perm_swap.
Qed.

Lemma stable_sort_perm l : Permutation (Ruckig.stable_sort lt l) l.
Proof.
  induction l as [|x l IH]; cbn [Ruckig.stable_sort]; [done|].
  by rewrite insert_sorted_perm, IH.
Qed.

Lemma insert_sorted_sorted x l :
  ok x -> Forall ok l -> Forall (ord x) l ->
  StronglySorted (Claim.before lt ord) l ->
  StronglySorted (Claim.before lt ord) (Ruckig.insert_sorted lt x l).
Proof.
  intros Hx Hok Hord Hsorted.
  induction Hsorted as [|y l Hsorted IH Hy]; cbn [Ruckig.insert_sorted].
  - repeat constructor.
  - apply Forall_cons in Hok as [Hoky Hok]. apply Forall_cons in Hord as [Hxy Hord].
    destruct (lt y x) eqn:Hyx.
    + constructor; [by apply IH|].
      rewrite insert_sorted_perm. constructor; [|done].
      split; [by apply lt_asym|]. by rewrite Hyx.
    + constructor; [by constructor|].
      constructor; [by split|].
      rewrite Forall_forall in Hy, Hok, Hord |- *. intros z Hz.
      split; [|intros _; by apply Hord].
      destruct (Hy z Hz) as [Hzy _]. eauto.
Qed.

Lemma stable_sort_sorted l :
  Forall ok l -> StronglySorted ord l ->
  StronglySorted (Claim.before lt ord) (Ruckig.stable_sort lt l).
Proof.
  intros Hok Hord. induction Hord as [|x l Hord IH Hx]; cbn [Ruckig.stable_sort].
  - constructor.
  - apply Forall_cons in Hok as [Hokx Hok].
    apply insert_sorted_sorted; try done.
    + by rewrite stable_sort_perm.
    + by rewrite stable_sort_perm.
    + by apply IH.
Qed.
End StableSort.

Lemma StronglySorted_before {A} (R : A -> A -> Prop) pre x post :
  StronglySorted R (pre ++ x :: post) -> Forall (fun y => R y x) pre.
Proof.
  induction pre as [|y pre IH]; cbn [app]; [done|].
  intros [Hsorted Hy]%StronglySorted_inv. constructor; [|auto].
  rewrite Forall_forall in Hy. apply Hy. set_solver.
Qed.

Lemma StronglySorted_app_r {A} (R : A -> A -> Prop) pre post :
  StronglySorted R (pre ++ post) -> StronglySorted R post.
Proof.
  induction pre as [|y pre IH]; cbn [app]; [done|].
  intros [Hsorted _]%StronglySorted_inv. auto.
Qed.

(** ** The synchronizer *)

Section Synchronize.
Context (DOFs : nat).
Implicit Types (blocks : list Block.Block) (floor : option float).
Local Open Scope float_scope.

Local Abbreviation synchronize := (Ruckig.synchronize DOFs).
Local Abbreviation possible_t_syncs := (Ruckig.possible_t_syncs DOFs).
Local Abbreviation sorted_idx := (Ruckig.sorted_idx DOFs).

(** [limiting_dof] is the index divided by 3. *)
Lemma limiting_of_div i : Ruckig.limiting_of i = (i / 3)%nat.
Proof.
  unfold Ruckig.limiting_of, Ruckig.ceil_div.
  pose proof (Nat.div_mod_eq i 3) as Hi.
  pose proof (Nat.mod_upper_bound i 3 ltac:(lia)) as Hr.
  set (q := (i / 3)%nat) in *. set (r := (i mod 3)%nat) in *.
  assert ((- (Z.of_nat i + 1)) / 3 = - (Z.of_nat q + 1))%Z as ->.
  { symmetry. apply (Z.div_unique _ _ _ (2 - Z.of_nat r)); lia. }
  lia.
Qed.

(** The candidates, three per axis. *)
Lemma flat_map_chunks {A} `{Inhabited A} (f : nat -> list A) n s i :
  (forall d, length (f d) = 3%nat) -> (i < 3 * n)%nat ->
  flat_map f (seq s n) !!! i = f (s + i / 3)%nat !!! (i mod 3)%nat.
Proof.
  intros Hf. revert s i. induction n as [|n IH]; intros s i Hi; [lia|].
  cbn [seq flat_map]. destruct (decide (i < 3)%nat) as [Hlt|Hge].
  - rewrite lookup_total_app_l by (rewrite Hf; lia).
    rewrite Nat.div_small, Nat.mod_small by lia. by rewrite Nat.add_0_r.
  - rewrite lookup_total_app_r, Hf by (rewrite Hf; lia).
    rewrite IH by lia.
    assert (i / 3 = S ((i - 3) / 3) /\ i mod 3 = (i - 3) mod 3)%nat as [-> ->].
    { replace i with ((i - 3) + 1 * 3)%nat at 1 3 by lia.
      rewrite Nat.div_add, Nat.Div0.mod_add by lia. lia. }
    f_equal. f_equal. lia.
Qed.

Lemma possible_t_syncs_candidate blocks i :
  (i < 3 * DOFs)%nat -> possible_t_syncs blocks !!! i = Claim.candidate blocks i.
Proof.
  intros Hi. unfold Ruckig.possible_t_syncs.
  rewrite flat_map_chunks by done. cbn [Nat.add].
  unfold Claim.candidate.
  pose proof (Nat.mod_upper_bound i 3 ltac:(lia)) as Hr.
  destruct (i mod 3)%nat as [|[|[|?]]]; try reflexivity. lia.
Qed.

Lemma flat_map_chunks_length {A} (f : nat -> list A) n s :
  (forall d, length (f d) = 3%nat) -> length (flat_map f (seq s n)) = (3 * n)%nat.
Proof.
  intros Hf. revert s. induction n as [|n IH]; intros s; [done|].
  cbn [seq flat_map]. rewrite length_app, IH, Hf. lia.
Qed.

Lemma possible_t_syncs_length blocks : length (possible_t_syncs blocks) = (3 * DOFs)%nat.
Proof. by apply flat_map_chunks_length. Qed.

(** The test of the loop against the acceptance condition of the claim. *)
Lemma rejected_accepts blocks floor tau :
  is_nan tau = false -> is_nan (value_or floor 0) = false ->
  Forall (fun block => is_nan (Block.t_min block) = false) blocks ->
  Ruckig.rejected blocks floor tau = negb (Claim.accepts blocks floor tau).
Proof.
  intros Htau Hfloor Hblocks. unfold Ruckig.rejected, Claim.accepts.
  rewrite negb_andb, (ltb_negb_leb tau _ Htau Hfloor), orb_comm. f_equal.
  induction Hblocks as [|block blocks Hblock _ IH]; cbn [existsb forallb]; [done|].
  rewrite negb_andb, IH. f_equal.
  unfold Block.is_blocked.
  by rewrite !negb_andb, !negb_involutive, (ltb_negb_leb tau _ Htau Hblock).
Qed.

(** A candidate equal to an endpoint of a forbidden interval, or to
    [t_min], is not blocked by that interval, or by that [t_min]. *)
Lemma endpoints_not_inside interval :
  Block.inside (Some interval) (Block.left interval) = false
  /\ Block.inside (Some interval) (Block.right interval) = false.
Proof.
  unfold Block.inside. by rewrite !ltb_irrefl, andb_false_r.
Qed.

Lemma sync_loop_first blocks floor cands pre i post refs :
  Forall (fun k => Ruckig.rejected blocks floor (cands !!! k) = true) pre ->
  Ruckig.rejected blocks floor (cands !!! i) = false ->
  Ruckig.sync_loop blocks floor cands (pre ++ i :: post) refs
  = Ruckig.lock_in blocks cands i refs.
Proof.
  intros Hpre Hi. induction Hpre as [|k pre Hk _ IH]; cbn [app Ruckig.sync_loop].
  - by rewrite Hi.
  - by rewrite Hk.
Qed.

Lemma sync_loop_exhausted blocks floor cands idx refs :
  Forall (fun k => Ruckig.rejected blocks floor (cands !!! k) = true) idx ->
  Ruckig.sync_loop blocks floor cands idx refs = (Ret false, refs).
Proof.
  intros Hidx. induction Hidx as [|k idx Hk _ IH]; cbn [Ruckig.sync_loop]; [done|].
  by rewrite Hk.
Qed.

Lemma lock_in_selected blocks cands i refs :
  Ruckig.lock_in blocks cands i refs
  = match Claim.selected blocks i with
    | Some p =>
        (Ret true,
         Ruckig.mkSyncRefs (cands !!! i) (i / 3)
           (<[(i / 3)%nat := p]> (Ruckig.sync_profiles refs)))
    | None =>
        (Throw bad_optional_access,
         Ruckig.mkSyncRefs (cands !!! i) (i / 3) (Ruckig.sync_profiles refs))
    end.
Proof.
  unfold Ruckig.lock_in, Claim.selected, mbind, M_bind, modify, get.
  cbn [Ruckig.limiting_dof Ruckig.sync_profiles Ruckig.t_sync fst snd].
  rewrite limiting_of_div.
  destruct (i mod 3)%nat as [|[|?]]; cbn [mret M_ret value]; try done.
  - by destruct (Block.p_a _).
  - by destruct (Block.p_b _).
Qed.

(** Whatever [synchronize] returns true for is a candidate that was not
    rejected; with a floor, [T_sync] is therefore not below it. *)
Lemma sync_loop_accepted blocks floor cands idx refs refs' :
  Ruckig.sync_loop blocks floor cands idx refs = (Ret true, refs') ->
  exists i, i ∈ idx /\ Ruckig.rejected blocks floor (cands !!! i) = false
            /\ Ruckig.t_sync refs' = cands !!! i
            /\ Ruckig.limiting_dof refs' = (i / 3)%nat.
Proof.
  induction idx as [|i idx IH]; cbn [Ruckig.sync_loop]; [done|].
  destruct (Ruckig.rejected blocks floor (cands !!! i)) eqn:Hrej.
  - intros (k & Hk & Hacc)%IH. exists k. split; [by right|done].
  - rewrite lock_in_selected. destruct (Claim.selected blocks i); [|done].
    intros [= <-]. exists i. split; [left|done].
Qed.

Lemma synchronize_respects_floor blocks (minimum : float) refs refs' :
  synchronize blocks (Some minimum) refs = (Ret true, refs') ->
  (Ruckig.t_sync refs' <? minimum) = false.
Proof.
  unfold Ruckig.synchronize. cbn [has_value negb]. rewrite andb_false_r.
  intros (i & _ & Hrej & -> & _)%sync_loop_accepted.
  unfold Ruckig.rejected in Hrej. by apply orb_false_elim in Hrej as [_ ?].
Qed.

Lemma seq_sorted s n : StronglySorted Nat.lt (seq s n).
Proof.
  revert s. induction n as [|n IH]; intros s; cbn [seq]; constructor; [done|].
  apply Forall_forall. intros k Hk%elem_of_seq. unfold Nat.lt. lia.
Qed.

(** The order in which the candidates are examined. *)
Lemma sorted_idx_ascending cands :
  length cands = (3 * DOFs)%nat ->
  Forall (fun c => is_nan c = false) cands ->
  Permutation (sorted_idx cands) (seq 0 (3 * DOFs))
  /\ StronglySorted
       (Claim.before (fun i j => cands !!! i <? cands !!! j) Nat.lt)
       (sorted_idx cands).
Proof.
  intros Hlen Hnan. unfold Ruckig.sorted_idx. split; [apply stable_sort_perm|].
  apply (stable_sort_sorted _ (fun i => is_nan (cands !!! i) = false)).
  - intros i j. apply ltb_asym.
  - intros i j k. apply not_ltb_trans.
  - apply Forall_forall. intros i Hi%elem_of_seq.
    apply (Forall_lookup_total_1 _ _ i Hnan). lia.
  - apply seq_sorted.
Qed.

Lemma candidates_t_min blocks :
  length blocks = DOFs ->
  Forall (fun c => is_nan c = false) (possible_t_syncs blocks) ->
  Forall (fun block => is_nan (Block.t_min block) = false) blocks.
Proof.
  intros Hlen Hnan. rewrite Forall_lookup_total. intros d Hd.
  pose proof (Forall_lookup_total_1 _ _ (3 * d) Hnan) as Hc.
  rewrite possible_t_syncs_length, possible_t_syncs_candidate in Hc by lia.
  unfold Claim.candidate in Hc.
  replace (3 * d)%nat with (d * 3)%nat in Hc by lia.
  rewrite Nat.div_mul, Nat.Div0.mod_mul in Hc by lia.
  apply Hc. lia.
Qed.

(** C6, where the code departs from the claim.  The blocks are as Step1
    reports them, and none of the candidates and not the floor is a NaN.
    [synchronize] examines, in ascending stable-sorted order, the per-axis
    candidates ([t_min], the right endpoint of interval [a], the right
    endpoint of interval [b], infinity for an absent interval); the first
    candidate [tau] that is not below the floor (0 if unspecified) and, for
    every axis, not below its [t_min] and not strictly inside either of its
    forbidden intervals becomes [T_sync] (a candidate equal to an endpoint
    or to [t_min] passes that test), and [limiting_dof] is its index
    divided by 3: the single-axis call without a floor, which is answered
    without a look at the candidates, gives the same.  As the claim says,
    the profile its index modulo 3 selects ([p_min], [p_a], [p_b]) is
    locked in and [synchronize] returns true when that profile is present.
    When it is absent, as for the infinite candidate of an absent interval,
    [synchronize] does not return: [std::bad_optional_access] leaves it,
    with [T_sync] and [limiting_dof] written and no profile locked in.
    With no candidate accepted it returns false. *)
Theorem synchronize_first_accepted blocks floor refs :
  length blocks = DOFs ->
  Forall (fun c => is_nan c = false) (possible_t_syncs blocks) ->
  is_nan (value_or floor 0) = false ->
  (Claim.fast_path DOFs floor = true -> Claim.consistent (blocks !!! 0%nat) = true) ->
  let cands := possible_t_syncs blocks in
  let idx := sorted_idx cands in
  (forall i, (i < 3 * DOFs)%nat -> cands !!! i = Claim.candidate blocks i)
  /\ Permutation idx (seq 0 (3 * DOFs))
  /\ StronglySorted (Claim.before (fun i j => cands !!! i <? cands !!! j) Nat.lt) idx
  /\ (forall i, (i < 3 * DOFs)%nat ->
        Ruckig.rejected blocks floor (cands !!! i)
        = negb (Claim.accepts blocks floor (cands !!! i)))
  /\ (forall interval,
        Block.inside (Some interval) (Block.left interval) = false
        /\ Block.inside (Some interval) (Block.right interval) = false)
  /\ (forall block, (Block.t_min block <? Block.t_min block) = false)
  /\ (forall i,
        Claim.first_accepted blocks floor cands idx i ->
        synchronize blocks floor refs
        = match Claim.selected blocks i with
          | Some p =>
              (Ret true,
               Ruckig.mkSyncRefs (cands !!! i) (i / 3)
                 (<[(i / 3)%nat := p]> (Ruckig.sync_profiles refs)))
          | None =>
              (Throw bad_optional_access,
               Ruckig.mkSyncRefs (cands !!! i) (i / 3) (Ruckig.sync_profiles refs))
          end)
  /\ ((forall i, (i < 3 * DOFs)%nat ->
         Claim.accepts blocks floor (cands !!! i) = false) ->
      synchronize blocks floor refs = (Ret false, refs)).
Proof.
  intros Hlen Hnan Hfloor Hcons cands idx.
  destruct (sorted_idx_ascending cands (possible_t_syncs_length blocks) Hnan)
    as [Hperm Hsorted].
  fold idx in Hperm, Hsorted.
  assert (forall i, (i < 3 * DOFs)%nat ->
            Ruckig.rejected blocks floor (cands !!! i)
            = negb (Claim.accepts blocks floor (cands !!! i))) as Hrej.
  { intros i Hi. apply rejected_accepts; [|done|by apply candidates_t_min].
    apply (Forall_lookup_total_1 _ _ i Hnan).
    by rewrite possible_t_syncs_length. }
  assert (forall i, i ∈ idx <-> (i < 3 * DOFs)%nat) as Hidx.
  { intros i. rewrite Hperm, elem_of_seq. lia. }
  split; [by apply possible_t_syncs_candidate|].
  split; [done|]. split; [done|]. split; [done|].
  split; [apply endpoints_not_inside|]. split; [intros block; apply ltb_irrefl|].
  destruct (Claim.fast_path DOFs floor) eqn:Hfast.
  - (* the single-axis call without a floor: the candidate [t_min], at
       index 0, is the first one accepted *)
    specialize (Hcons eq_refl).
    assert (DOFs = 1%nat /\ floor = None) as [HD ->].
    { unfold Claim.fast_path in Hfast. apply andb_prop in Hfast as [H1 H2].
      apply Nat.eqb_eq in H1. by destruct floor. }
    assert (cands !!! 0%nat = Block.t_min (blocks !!! 0%nat)) as Hc0.
    { unfold cands. rewrite possible_t_syncs_candidate by lia. reflexivity. }
    assert (Claim.accepts blocks None (cands !!! 0%nat) = true) as Hacc0.
    { pose proof (candidates_t_min blocks Hlen Hnan) as Hmin.
      destruct blocks as [|block [|? ?]]; cbn [length] in Hlen; try lia.
      apply Forall_cons in Hmin as [Hmin _].
      rewrite Hc0. cbn [lookup_total list_lookup_total] in Hcons |- *.
      unfold Claim.consistent in Hcons.
      apply andb_prop in Hcons as [[Hpos Ha]%andb_prop Hb].
      unfold Claim.accepts. cbn [value_or forallb].
      rewrite Ha, Hb, (leb_refl _ Hmin). cbn [negb andb].
      rewrite (ltb_negb_leb _ 0 Hmin) in Hpos by reflexivity.
      rewrite negb_involutive in Hpos. by rewrite Hpos. }
    split.
    + intros i (pre & post & Heq & Hpre & Hi).
      assert (i = 0%nat) as ->.
      { assert (0%nat ∈ idx) as H0 by (apply Hidx; lia).
        rewrite Heq in H0, Hsorted.
        apply elem_of_app in H0 as [H0|H0].
        - rewrite Forall_forall in Hpre. rewrite (Hpre _ H0) in Hacc0. done.
        - apply elem_of_cons in H0 as [H0|H0]; [done|]. exfalso.
          apply StronglySorted_app_r, StronglySorted_inv in Hsorted as [_ Hafter].
          rewrite Forall_forall in Hafter. destruct (Hafter _ H0) as [_ Hlt].
          destruct (cands !!! i <? cands !!! 0%nat) eqn:Hi0.
          + unfold Claim.accepts in Hi. apply andb_prop in Hi as [_ Hi].
            pose proof Hlen as Hlen'.
            destruct blocks as [|block [|? ?]]; cbn [length] in Hlen'; try lia.
            cbn [forallb lookup_total list_lookup_total] in Hi, Hc0.
            rewrite andb_true_r in Hi.
            apply andb_prop in Hi as [[Hi _]%andb_prop _].
            apply leb_ltb_false in Hi. rewrite <- Hc0 in Hi. congruence.
          + specialize (Hlt eq_refl). unfold Nat.lt in Hlt. lia. }
      unfold Ruckig.synchronize. unfold Claim.fast_path in Hfast. rewrite Hfast.
      rewrite Hc0. reflexivity.
    + intros Hnone. rewrite Hnone in Hacc0 by lia. done.
  - unfold Ruckig.synchronize. unfold Claim.fast_path in Hfast. rewrite Hfast.
    fold cands idx. split.
    + intros i (pre & post & Heq & Hpre & Hi).
      rewrite Heq, sync_loop_first, lock_in_selected; [done| |].
      * apply Forall_forall. intros k Hk.
        rewrite Forall_forall in Hpre. rewrite Hrej, Hpre; [done|done|].
        apply Hidx. rewrite Heq, elem_of_app. by left.
      * rewrite Hrej, Hi; [done|]. apply Hidx.
        rewrite Heq, elem_of_app, elem_of_cons. right. by left.
    + intros Hnone. apply sync_loop_exhausted, Forall_forall. intros k Hk.
      rewrite Hrej, Hnone by (by apply Hidx). reflexivity.
Qed.
End Synchronize.

(** Two axes, no floor: 3.17 is below the minimum 5 of the second axis, 5
    is accepted; the second axis is the limiting one, with its [p_min].
    One axis without intervals and the floor 10: 3.17 is below the floor,
    the infinity of the absent interval [a] is the first candidate
    accepted, and no profile goes with it. *)
Lemma synchronize_first_accepted_witness :
  Ruckig.synchronize 2 Scenario.two_blocks None
    (Ruckig.mkSyncRefs 0 0 [Scenario.blank; Scenario.blank])
  = (Ret true, Ruckig.mkSyncRefs 5 1 [Scenario.blank; Scenario.blank])
  /\ Ruckig.synchronize 1 [Scenario.rest_block Scenario.blank] (Some 10%float)
       (Ruckig.mkSyncRefs 0 0 [Scenario.blank])
     = (Throw bad_optional_access, Ruckig.mkSyncRefs infinity 0 [Scenario.blank]).
Proof.
  split.
  - destruct (synchronize_first_accepted 2 Scenario.two_blocks None
                (Ruckig.mkSyncRefs 0 0 [Scenario.blank; Scenario.blank]))
      as (_ & _ & _ & _ & _ & _ & Hfirst & _).
    + reflexivity.
    + vm_compute. repeat constructor.
    + vm_compute; reflexivity.
    + intros Hfast. vm_compute in Hfast. discriminate.
    + rewrite (Hfirst 3).
      * vm_compute; reflexivity.
      * exists [0], [4; 1; 2; 5].
        split; [vm_compute; reflexivity|].
        split; [|vm_compute; reflexivity].
        constructor; [vm_compute; reflexivity|constructor].
  - destruct (synchronize_first_accepted 1 [Scenario.rest_block Scenario.blank]
                (Some 10%float) (Ruckig.mkSyncRefs 0 0 [Scenario.blank]))
      as (_ & _ & _ & _ & _ & _ & Hfirst & _).
    + reflexivity.
    + vm_compute. repeat constructor.
    + vm_compute; reflexivity.
    + intros Hfast. vm_compute in Hfast. discriminate.
    + rewrite (Hfirst 1).
      * vm_compute; reflexivity.
      * exists [0], [2].
        split; [vm_compute; reflexivity|].
        split; [|vm_compute; reflexivity].
        constructor; [vm_compute; reflexivity|constructor].
Defined.

(** ** Planning failures *)

Section Planning.
Context (DOFs : nat) (solvers : Solvers).
Implicit Types (r : Ruckig.Ruckig) (o : OutputParameter) (input : InputParameter)
  (loc : Ruckig.Locals) (s : Ruckig.St).
Local Open Scope float_scope.

Local Abbreviation update := (Ruckig.update DOFs solvers).
Local Abbreviation calculate := (Ruckig.calculate DOFs solvers).
Local Abbreviation plan_dof := (Ruckig.plan_dof solvers).
Local Abbreviation finalize_dof := (Ruckig.finalize_dof solvers).

(** One iteration of the first loop: it skips a disabled axis, throws when
    Step1 finds no profile, and otherwise goes on with the profile of this
    axis replaced. *)
Lemma plan_dof_cases input dof loc s :
  (enabled input !!! dof = false /\ plan_dof input dof loc s = (Ret loc, s))
  \/ (enabled input !!! dof = true
      /\ Claim.step1_result solvers input dof (Ruckig.profiles s.1 !!! dof) = None
      /\ exists s', plan_dof input dof loc s = (Throw (runtime_error (in_step1 dof)), s'))
  \/ (enabled input !!! dof = true
      /\ is_Some (Claim.step1_result solvers input dof (Ruckig.profiles s.1 !!! dof))
      /\ exists loc' s' pr,
           plan_dof input dof loc s = (Ret loc', s')
           /\ Ruckig.profiles s'.1 = <[dof := pr]> (Ruckig.profiles s.1)).
Proof.
  unfold Ruckig.plan_dof, Claim.step1_result.
  destruct (enabled input !!! dof); cbn [negb]; [right|by left].
  unfold mbind, M_bind, get, Ruckig.on_ruckig, Ruckig.on_output, modify.
  destruct (Ruckig.brake_dof solvers input dof _) as [pr pva].
  cbn [fst snd].
  destruct (Step1_get_profile _ _ _ _ _ _) as [block|].
  - right. split; [done|]. split; [by eexists|].
    eexists _, _, pr. split; [reflexivity|]. reflexivity.
  - left. split; [done|]. split; [done|]. by eexists.
Qed.

(** The first loop throws as soon as Step1 fails for an enabled axis. *)
Lemma plan_loop_throws input (profiles0 : list Profile.Profile) n k loc s :
  (forall d, (k <= d)%nat -> Ruckig.profiles s.1 !!! d = profiles0 !!! d) ->
  (exists dof, (k <= dof < k + n)%nat /\ enabled input !!! dof = true
               /\ Claim.step1_result solvers input dof (profiles0 !!! dof) = None) ->
  exists dof s',
    Ruckig.for_dofs (plan_dof input) (seq k n) loc s
    = (Throw (runtime_error (in_step1 dof)), s').
Proof.
  revert k loc s. induction n as [|n IH]; intros k loc s Hinv (dof & Hdof & Hen & Hfail).
  { lia. }
  cbn [seq Ruckig.for_dofs]. unfold mbind, M_bind.
  destruct (plan_dof_cases input k loc s)
    as [[Hoff ->]|[(Hon & Hnone & s' & ->)|(Hon & Hsome & loc' & s' & pr & -> & Hpr)]].
  - apply IH; [intros d Hd; apply Hinv; lia|].
    exists dof. split; [|done]. destruct (decide (dof = k)) as [->|]; [congruence|lia].
  - by eexists _, _.
  - apply IH.
    + intros d Hd. rewrite Hpr, list_lookup_total_insert_ne by lia. apply Hinv. lia.
    + exists dof. split; [|done]. destruct (decide (dof = k)) as [->|]; [|lia].
      rewrite Hinv, Hfail in Hsome by lia. by destruct Hsome.
Qed.

(** One iteration of the second loop. *)
Lemma finalize_dof_cases input loc limiting_dof dof s :
  let skipped := negb (enabled input !!! dof) || (dof =? limiting_dof)%nat in
  let found := Claim.step2_found solvers input loc (Ruckig.tf s.1) dof
                 (Ruckig.profiles s.1 !!! dof) in
  (skipped = true /\ finalize_dof input loc limiting_dof dof tt s = (Ret tt, s))
  \/ (skipped = false /\ found = false
      /\ exists s', finalize_dof input loc limiting_dof dof tt s
                    = (Throw (runtime_error (in_step2 dof)), s'))
  \/ (skipped = false /\ found = true
      /\ exists s' pr,
           finalize_dof input loc limiting_dof dof tt s = (Ret tt, s')
           /\ Ruckig.tf s'.1 = Ruckig.tf s.1
           /\ Ruckig.profiles s'.1 = <[dof := pr]> (Ruckig.profiles s.1)).
Proof.
  unfold Ruckig.finalize_dof, Claim.step2_found.
  destruct (negb (enabled input !!! dof) || (dof =? limiting_dof)%nat);
    cbv zeta; [by left|right].
  unfold mbind, M_bind, get, Ruckig.on_ruckig, modify. cbn [fst snd].
  destruct (Step2_get_profile _ _ _ _ _ _) as [[] pr]; cbn [fst snd].
  - right. split; [done|]. split; [done|]. by eexists _, pr.
  - left. split; [done|]. split; [done|]. by eexists.
Qed.

(** The second loop throws as soon as Step2 fails for an enabled axis
    other than the limiting one. *)
Lemma finalize_loop_throws input loc limiting_dof (tf0 : float)
    (profiles0 : list Profile.Profile) n k s :
  Ruckig.tf s.1 = tf0 ->
  (forall d, (k <= d)%nat -> Ruckig.profiles s.1 !!! d = profiles0 !!! d) ->
  (exists dof, (k <= dof < k + n)%nat /\ enabled input !!! dof = true
               /\ dof <> limiting_dof
               /\ Claim.step2_found solvers input loc tf0 dof (profiles0 !!! dof)
                  = false) ->
  exists dof s',
    Ruckig.for_dofs (finalize_dof input loc limiting_dof) (seq k n) tt s
    = (Throw (runtime_error (in_step2 dof)), s').
Proof.
  revert k s. induction n as [|n IH];
    intros k s Htf Hinv (dof & Hdof & Hen & Hlim & Hfail).
  { lia. }
  cbn [seq Ruckig.for_dofs]. unfold mbind, M_bind.
  destruct (finalize_dof_cases input loc limiting_dof k s)
    as [[Hskip ->]|[(Hrun & Hnone & s' & ->)
                   |(Hrun & Hsome & s' & pr & -> & Htf' & Hpr)]].
  - apply IH; [done|intros d Hd; apply Hinv; lia|].
    exists dof. split; [|done]. destruct (decide (dof = k)) as [->|]; [|lia].
    rewrite Hen in Hskip. cbn [negb orb] in Hskip.
    apply Nat.eqb_eq in Hskip. done.
  - by eexists _, _.
  - apply IH; [congruence| |].
    + intros d Hd. rewrite Hpr, list_lookup_total_insert_ne by lia. apply Hinv. lia.
    + exists dof. split; [|done]. destruct (decide (dof = k)) as [->|]; [|lia].
      rewrite Htf, Hinv, Hfail in Hsome by lia. done.
Qed.

(** The results [update] can return. *)
Lemma update_results r o input locals0 limiting_dof0 elapsed res s' :
  update input locals0 limiting_dof0 elapsed (r, o) = (Ret res, s') ->
  res = Working \/ res = Finished \/ res = Error.
Proof.
  unfold Ruckig.update, mbind, M_bind, Ruckig.on_ruckig, Ruckig.on_output, modify, get.
  cbn [fst snd].
  destruct (input_neq input _).
  - destruct (calculate _ _ _ _) as [[res'|e] s2]; [|discriminate].
    cbn [mret M_ret]. destruct (negb (Ruckig.is_Working res')).
    + intros [= <- _]. auto.
    + destruct (_ <? _); intros [= <- _]; auto.
  - cbn [mret M_ret]. destruct (_ <? _); intros [= <- _]; auto.
Qed.

(** C1, as the code has it.  [update] is given an input that differs from
    the cached one and passes validation.  When Step1 finds no valid
    profile for some enabled axis, when the synchronizer exhausts its
    candidates, and when Step2 fails for an enabled axis other than the
    limiting one, [calculate] throws [std::runtime_error] (its message
    names step 1, the time synchronization, or step 2) and the exception
    leaves [update]: no [Result] is returned for these failures.  A
    [Result] that [update] returns for such an input is [Working] or
    [Finished]. *)
Theorem planning_failure_throws r o input locals0 limiting_dof0 elapsed :
  input_neq input (Ruckig.current_input r) = true ->
  Ruckig.validate_input DOFs input = true ->
  let run := update input locals0 limiting_dof0 elapsed (r, o) in
  let step1 := Claim.after_step1 DOFs solvers r o input locals0 in
  ((exists dof, (dof < DOFs)%nat /\ enabled input !!! dof = true
                /\ Claim.step1_result solvers input dof (Ruckig.profiles r !!! dof)
                   = None) ->
   exists dof s', run = (Throw (runtime_error (in_step1 dof)), s'))
  /\ (forall loc s1 refs,
        step1 = (Ret loc, s1) ->
        Ruckig.synchronize DOFs (Ruckig.blocks loc) (minimum_duration input)
          (Ruckig.mkSyncRefs (Ruckig.tf s1.1) limiting_dof0 (Ruckig.profiles s1.1))
        = (Ret false, refs) ->
        exists s', run = (Throw (runtime_error in_synchronization), s'))
  /\ (forall loc s1 refs,
        step1 = (Ret loc, s1) ->
        Ruckig.synchronize DOFs (Ruckig.blocks loc) (minimum_duration input)
          (Ruckig.mkSyncRefs (Ruckig.tf s1.1) limiting_dof0 (Ruckig.profiles s1.1))
        = (Ret true, refs) ->
        (0 <? Ruckig.t_sync refs) = true ->
        (exists dof, (dof < DOFs)%nat /\ enabled input !!! dof = true
                     /\ dof <> Ruckig.limiting_dof refs
                     /\ Claim.step2_found solvers input loc (Ruckig.t_sync refs) dof
                          (Ruckig.sync_profiles refs !!! dof) = false) ->
        exists dof s', run = (Throw (runtime_error (in_step2 dof)), s'))
  /\ (forall res s', run = (Ret res, s') -> res = Working \/ res = Finished).
Proof.
  intros Hneq Hvalid run step1. subst run step1.
  unfold Claim.after_step1.
  split; [|split; [|split]].
  - intros (dof & Hdof & Hen & Hfail).
    destruct (plan_loop_throws input (Ruckig.profiles r) DOFs 0 locals0
                (Claim.planning_state r o input)) as (dof' & s' & Hloop).
    + done.
    + exists dof. split; [lia|done].
    + exists dof', s'.
      unfold Ruckig.update, Ruckig.calculate, mbind, M_bind, Ruckig.on_ruckig,
        Ruckig.on_output, modify, get.
      cbn [fst snd Ruckig.current_input Ruckig.with_t]. rewrite Hneq.
      cbn [fst snd]. rewrite Hvalid. cbn [negb].
      fold (Claim.planning_state r o input). by rewrite Hloop.
  - intros loc s1 refs Hloop Hsync. eexists.
    unfold Ruckig.update, Ruckig.calculate, mbind, M_bind, Ruckig.on_ruckig,
      Ruckig.on_output, modify, get.
    cbn [fst snd Ruckig.current_input Ruckig.with_t]. rewrite Hneq.
    cbn [fst snd]. rewrite Hvalid. cbn [negb].
    fold (Claim.planning_state r o input). rewrite Hloop.
    unfold Ruckig.call_synchronize. rewrite Hsync. reflexivity.
  - intros loc s1 refs Hloop Hsync Hpos (dof & Hdof & Hen & Hlim & Hfail).
    destruct (finalize_loop_throws input loc (Ruckig.limiting_dof refs)
                (Ruckig.t_sync refs) (Ruckig.sync_profiles refs) DOFs 0
                (Ruckig.with_profiles (Ruckig.with_tf s1.1 (Ruckig.t_sync refs))
                   (Ruckig.sync_profiles refs), s1.2))
      as (dof' & s' & Hloop2).
    + done.
    + done.
    + exists dof. split; [lia|done].
    + exists dof', s'.
      unfold Ruckig.update, Ruckig.calculate, mbind, M_bind, Ruckig.on_ruckig,
        Ruckig.on_output, modify, get.
      cbn [fst snd Ruckig.current_input Ruckig.with_t]. rewrite Hneq.
      cbn [fst snd]. rewrite Hvalid. cbn [negb].
      fold (Claim.planning_state r o input). rewrite Hloop.
      unfold Ruckig.call_synchronize. rewrite Hsync.
      cbn [fst snd negb Ruckig.tf Ruckig.with_tf Ruckig.with_profiles].
      rewrite Hpos. by rewrite Hloop2.
  - intros res s'.
    unfold Ruckig.update, Ruckig.calculate, mbind, M_bind, Ruckig.on_ruckig,
      Ruckig.on_output, modify, get.
    cbn [fst snd Ruckig.current_input Ruckig.with_t]. rewrite Hneq.
    cbn [fst snd]. rewrite Hvalid. cbn [negb].
    destruct (Ruckig.for_dofs _ _ _ _) as [[loc|e] s1]; [|discriminate].
    destruct (Ruckig.call_synchronize _ _ _ _ _) as [[[found lim]|e] s2];
      [|discriminate].
    cbn [fst snd]. destruct found; cbn [negb]; [|discriminate].
    destruct (0 <? _).
    + destruct (Ruckig.for_dofs _ _ _ _) as [[[]|e] s3]; [|discriminate].
      cbn [mret M_ret Ruckig.is_Working negb].
      destruct (_ <? _); intros [= <- _]; auto.
    + cbn [mret M_ret Ruckig.is_Working negb].
      destruct (_ <? _); intros [= <- _]; auto.
Qed.
End Planning.

(** Three first cycles that end in an exception: the rest-to-rest move
    with a Step1 that finds no profile; the same move with a minimum
    duration of 10 when every candidate (3.17, 5 and 7) is below it; and
    the move on two axes with a Step2 that finds nothing for the axis that
    is not the limiting one. *)
Lemma planning_failure_throws_witness :
  (exists dof s',
     Ruckig.update 1 Scenario.solvers_without_profile (Scenario.rest_to_rest None)
       Scenario.locals0 0 0 (Scenario.fresh, Scenario.output0)
     = (Throw (runtime_error (in_step1 dof)), s'))
  /\ (exists s',
        Ruckig.update 1 Scenario.solvers_with_intervals
          (Scenario.rest_to_rest (Some 10%float))
          Scenario.locals0 0 0 (Scenario.fresh, Scenario.output0)
        = (Throw (runtime_error in_synchronization), s'))
  /\ (exists dof s',
        Ruckig.update 2 Scenario.solvers Scenario.rest_to_rest_twice
          Scenario.locals0_pair 0 0 (Scenario.fresh_pair, Scenario.output0_pair)
        = (Throw (runtime_error (in_step2 dof)), s')).
Proof.
  split; [|split].
  - refine (proj1 (planning_failure_throws 1 Scenario.solvers_without_profile
                     Scenario.fresh Scenario.output0 (Scenario.rest_to_rest None)
                     Scenario.locals0 0 0%float _ _) _).
    + vm_compute; reflexivity.
    + vm_compute; reflexivity.
    + exists 0. split; [lia|]. split; vm_compute; reflexivity.
  - assert (input_neq (Scenario.rest_to_rest (Some 10%float))
              (Ruckig.current_input Scenario.fresh) = true) as Hneq
      by (vm_compute; reflexivity).
    assert (Ruckig.validate_input 1 (Scenario.rest_to_rest (Some 10%float)) = true)
      as Hvalid by (vm_compute; reflexivity).
    eapply (proj1 (proj2 (planning_failure_throws 1 Scenario.solvers_with_intervals
                            Scenario.fresh Scenario.output0
                            (Scenario.rest_to_rest (Some 10%float))
                            Scenario.locals0 0 0%float Hneq Hvalid)));
      vm_compute; reflexivity.
  - assert (input_neq Scenario.rest_to_rest_twice
              (Ruckig.current_input Scenario.fresh_pair) = true) as Hneq
      by (vm_compute; reflexivity).
    assert (Ruckig.validate_input 2 Scenario.rest_to_rest_twice = true)
      as Hvalid by (vm_compute; reflexivity).
    eapply (proj1 (proj2 (proj2 (planning_failure_throws 2 Scenario.solvers
                                   Scenario.fresh_pair Scenario.output0_pair
                                   Scenario.rest_to_rest_twice
                                   Scenario.locals0_pair 0 0%float Hneq Hvalid)))).
    + vm_compute; reflexivity.
    + vm_compute; reflexivity.
    + vm_compute; reflexivity.
    + exists 1. split; [lia|]. split; [vm_compute; reflexivity|].
      split; [vm_compute; lia|vm_compute; reflexivity].
Defined.

(** C1, as the claim states it, fails: when Step1 finds no profile for the
    axis, [update] does not return [ErrorExecutionTimeCalculation]; it does
    not return at all. *)
Lemma step1_failure_is_not_returned :
  Claim.step1_result Scenario.solvers_without_profile (Scenario.rest_to_rest None) 0
    (Ruckig.profiles Scenario.fresh !!! 0) = None
  /\ (Ruckig.update 1 Scenario.solvers_without_profile (Scenario.rest_to_rest None)
        Scenario.locals0 0 0 (Scenario.fresh, Scenario.output0)).1
     = Throw (runtime_error (in_step1 0))
  /\ (Ruckig.update 1 Scenario.solvers_without_profile (Scenario.rest_to_rest None)
        Scenario.locals0 0 0 (Scenario.fresh, Scenario.output0)).1
     <> Ret ErrorExecutionTimeCalculation.
Proof.
  split; [vm_compute; reflexivity|].
  assert ((Ruckig.update 1 Scenario.solvers_without_profile
             (Scenario.rest_to_rest None) Scenario.locals0 0 0
             (Scenario.fresh, Scenario.output0)).1
          = Throw (runtime_error (in_step1 0))) as Hrun
    by (vm_compute; reflexivity).
  split; [exact Hrun|]. rewrite Hrun. discriminate.
Qed.

(** * Further properties of the header *)

(** ** More of binary64 *)

Section NaN.
Local Open Scope float_scope.

Lemma sub_nan_r x y : is_nan y = true -> is_nan (x - y) = true.
Proof. rewrite !is_nan_spec, sub_spec. intros ->. by destruct (Prim2SF x). Qed.

Lemma leb_nan_l x y : is_nan x = true -> (x <=? y) = false.
Proof. rewrite is_nan_spec, leb_spec. by intros ->. Qed.

Lemma sqrt_nan x : is_nan x = true -> is_nan (sqrt x) = true.
Proof. rewrite !is_nan_spec, sqrt_spec. by intros ->. Qed.

(** The square root of a negative number is a NaN. *)
Lemma sqrt_negative x : (x <? 0) = true -> is_nan (sqrt x) = true.
Proof.
  rewrite is_nan_spec, sqrt_spec, ltb_spec.
  change (Prim2SF 0) with (S754_zero false).
  by destruct (Prim2SF x) as [[]|[]| |[] mx ex].
Qed.

End NaN.

(** ** Lists read back by index *)

Lemma list_eq_total {A} `{Inhabited A} (l1 l2 : list A) :
  length l1 = length l2 ->
  (forall k, (k < length l1)%nat -> l1 !!! k = l2 !!! k) -> l1 = l2.
Proof.
  intros Hlen Hall. apply list_eq. intros k.
  destruct (decide (k < length l1)%nat) as [Hlt|Hge].
  - rewrite !list_lookup_lookup_total_lt by lia. f_equal. by apply Hall.
  - rewrite !lookup_ge_None_2 by lia. done.
Qed.

(** ** Profile::check: what it keeps, and what it does when run again *)

Section CheckAgain.
Local Open Scope float_scope.
Implicit Types (pr : Profile.Profile) (tth : Profile.Teeth).

Lemma by_check_refl pr : Kept.by_check pr pr.
Proof. by repeat split. Qed.

Lemma by_check_trans pr1 pr2 pr3 :
  Kept.by_check pr1 pr2 -> Kept.by_check pr2 pr3 -> Kept.by_check pr1 pr3.
Proof.
  unfold Kept.by_check. intros H1 H2.
  repeat match goal with H : _ /\ _ |- _ => destruct H as [? H] end.
  repeat split; congruence.
Qed.

Lemma t_sum_loop_keeps n i pr : Kept.by_check pr (Profile.t_sum_loop n i pr).2.
Proof.
  revert i pr. induction n as [|n IH]; intros i pr; cbn [Profile.t_sum_loop].
  - apply by_check_refl.
  - destruct (_ <? _); [apply by_check_refl|].
    eapply by_check_trans; [|apply IH].
    repeat split; cbn; by rewrite ?length_insert.
Qed.

Lemma integrate_step_keeps pr i : Kept.by_check pr (Profile.integrate_step pr i).
Proof.
  unfold Profile.integrate_step. replace (i + 1)%nat with (S i) by lia.
  repeat split; cbn [Profile.t Profile.j Profile.t_sum Profile.a Profile.v Profile.p
       Profile.with_a Profile.with_v Profile.with_p Profile.limits Profile.direction
       Profile.teeth Profile.t_brake Profile.t_brakes Profile.j_brakes
       Profile.a_brakes Profile.v_brakes Profile.p_brakes];
    rewrite ?length_insert; try reflexivity;
    by rewrite list_lookup_total_insert_ne by lia.
Qed.

Lemma integrate_steps_keep l pr :
  Kept.by_check pr (fold_left Profile.integrate_step l pr).
Proof.
  revert pr. induction l as [|i l IH]; intros pr; cbn [fold_left].
  - apply by_check_refl.
  - eapply by_check_trans; [apply integrate_step_keeps|apply IH].
Qed.

Lemma check_keeps tth pf vf af jf vMax aMax pr :
  Kept.by_check pr (Profile.check tth pf vf af jf vMax aMax pr).2.
Proof.
  rewrite check_runs.
  set (pr0 := Profile.with_t_sum _ _).
  assert (Kept.by_check pr pr0) as H0
    by (repeat split; cbn; by rewrite ?length_insert).
  pose proof (t_sum_loop_keeps 6 0 pr0) as H1.
  destruct (Feasible.no_negative _); cbn [snd].
  - eauto using by_check_trans, integrate_steps_keep.
  - destruct (_ <? _); eauto using by_check_trans.
Qed.

(** X1.  None of the three overloads of [check] writes to what it reads:
    the durations [t], the initial state [a[0]], [v[0]], [p[0]], the
    members [limits], [direction] and [teeth], and the brake prefix are
    after the call what they were before it, whatever it returns; the
    arrays [t_sum], [a], [v] and [p] keep their sizes. *)
Theorem check_keeps_inputs tth tf pf vf af jf vMax aMax jMax pr :
  Kept.by_check pr (Profile.check tth pf vf af jf vMax aMax pr).2
  /\ Kept.by_check pr (Profile.check_tf tth tf pf vf af jf vMax aMax pr).2
  /\ Kept.by_check pr (Profile.check_tf_jMax tth tf pf vf af jf vMax aMax jMax pr).2.
Proof.
  pose proof (check_keeps tth pf vf af jf vMax aMax pr) as Hc.
  assert (Kept.by_check pr (Profile.check_tf tth tf pf vf af jf vMax aMax pr).2) as Htf.
  { unfold Profile.check_tf.
    by destruct (Profile.check tth pf vf af jf vMax aMax pr) as [[] pr']. }
  split; [done|]. split; [done|].
  unfold Profile.check_tf_jMax. destruct (_ <? _); [done|apply by_check_refl].
Qed.

Lemma with_t_sum_same pr : Profile.with_t_sum pr (Profile.t_sum pr) = pr.
Proof. by destruct pr. Qed.

Lemma fill_j_again tth jf pr :
  Profile.j pr = Feasible.pattern tth jf -> Profile.fill_j tth jf pr = pr.
Proof. destruct pr, tth; cbn; by intros ->. Qed.

(** The first loop writes to [t_sum] only, above the index it starts at. *)
Lemma t_sum_loop_only n i pr :
  let pr' := (Profile.t_sum_loop n i pr).2 in
  pr' = Profile.with_t_sum pr (Profile.t_sum pr')
  /\ forall k, (k <= i)%nat -> Profile.t_sum pr' !!! k = Profile.t_sum pr !!! k.
Proof.
  revert i pr. induction n as [|n IH]; intros i pr; cbn [Profile.t_sum_loop].
  - cbv zeta. cbn [snd]. by rewrite with_t_sum_same.
  - destruct (_ <? _); cbv zeta; cbn [snd]; [by rewrite with_t_sum_same|].
    destruct (IH (S i) (Profile.with_t_sum pr
                (<[(i + 1)%nat := Profile.t_sum pr !!! i + Profile.t pr !!! (i + 1)%nat]>
                   (Profile.t_sum pr)))) as [Heq Hlow].
    split; [by rewrite Heq at 1|].
    intros k Hk. rewrite Hlow by lia. cbn [Profile.t_sum Profile.with_t_sum].
    by rewrite list_lookup_total_insert_ne by lia.
Qed.

(** Run on what it left, the first loop changes nothing. *)
Lemma t_sum_loop_again n i pr :
  (i + n < length (Profile.t_sum pr))%nat ->
  Profile.t_sum_loop n i (Profile.t_sum_loop n i pr).2 = Profile.t_sum_loop n i pr.
Proof.
  revert i pr. induction n as [|n IH]; intros i pr Hlen; cbn [Profile.t_sum_loop].
  - reflexivity.
  - destruct (Profile.t pr !!! (i + 1)%nat <? 0) eqn:Hneg; cbn [snd].
    + cbn [Profile.t_sum_loop]. by rewrite Hneg.
    + set (pr1 := Profile.with_t_sum pr _).
      destruct (t_sum_loop_frame n (S i) pr1) as (Ht & _ & _ & _ & _ & Hl).
      destruct (t_sum_loop_only n (S i) pr1) as [_ Hlow].
      set (pr' := (Profile.t_sum_loop n (S i) pr1).2) in *.
      cbn [Profile.t_sum_loop]. rewrite Ht. cbn [pr1 Profile.t Profile.with_t_sum].
      rewrite Hneg.
      assert (Profile.with_t_sum pr'
                (<[(i + 1)%nat := Profile.t_sum pr' !!! i + Profile.t pr !!! (i + 1)%nat]>
                   (Profile.t_sum pr')) = pr') as ->.
      { transitivity (Profile.with_t_sum pr' (Profile.t_sum pr'));
          [f_equal|apply with_t_sum_same].
        apply list_insert_id. rewrite list_lookup_lookup_total_lt.
        - f_equal. rewrite !Hlow by lia. cbn [pr1 Profile.t_sum Profile.with_t_sum].
          rewrite list_lookup_total_insert_eq by lia.
          by rewrite list_lookup_total_insert_ne by lia.
        - rewrite Hl. cbn [pr1 Profile.t_sum Profile.with_t_sum].
          rewrite length_insert. lia. }
      apply IH. cbn [pr1 Profile.t_sum Profile.with_t_sum]. rewrite length_insert. lia.
Qed.

Lemma profile_ext pr1 pr2 :
  Kept.by_check pr1 pr2 ->
  Profile.t_sum pr2 = Profile.t_sum pr1 -> Profile.j pr2 = Profile.j pr1 ->
  Profile.a pr2 = Profile.a pr1 -> Profile.v pr2 = Profile.v pr1 ->
  Profile.p pr2 = Profile.p pr1 -> pr2 = pr1.
Proof.
  unfold Kept.by_check. destruct pr1, pr2. cbn. intros H.
  repeat match goal with H : _ /\ _ |- _ => destruct H as [? H] end.
  intros. by subst.
Qed.

(** X2.  [check] is idempotent: called again with the same arguments on
    the profile it left, it returns the same flag and leaves the same
    profile, whether the first call ran both loops or returned at a
    negative duration. *)
Theorem check_idempotent tth pf vf af jf vMax aMax pr :
  Profile.sized pr ->
  let once := Profile.check tth pf vf af jf vMax aMax pr in
  Profile.check tth pf vf af jf vMax aMax once.2 = once.
Proof.
  intros Hs once.
  pose proof (check_keeps tth pf vf af jf vMax aMax pr) as Hkept.
  fold once in Hkept.
  pose proof (check_j tth pf vf af jf vMax aMax pr) as Hj. fold once in Hj.
  assert (Profile.t once.2 = Profile.t pr) as Ht by apply Hkept.
  assert (Feasible.start once.2 = Feasible.start pr) as Hstart.
  { unfold Feasible.start.
    by destruct Hkept as (_ & _ & _ & _ & _ & _ & _ & _ & _ & _ & -> & -> & -> & _). }
  assert (Profile.sized once.2) as Hs'.
  { destruct Hs as (Hlt & Hsum & _ & Ha & Hv & Hp).
    destruct Hkept as (_ & _ & _ & _ & _ & _ & _ & _ & _ & _ & _ & _ & _
                       & Hl1 & Hl2 & Hl3 & Hl4).
    unfold Profile.sized. rewrite Ht, Hj, Hl1, Hl2, Hl3, Hl4. by destruct tth. }
  set (twice := Profile.check tth pf vf af jf vMax aMax once.2).
  apply injective_projections.
  { unfold twice, once. rewrite !check_result by done. fold once. by rewrite Ht, Hstart. }
  destruct (Feasible.no_negative (Profile.t pr)) eqn:Hnn.
  - (* both calls run the two loops: the arrays are determined by [t] and
       the initial state *)
    destruct (check_fills tth pf vf af jf vMax aMax pr Hs Hnn)
      as ((_ & Hsum & Hb) & _).
    fold once in Hsum, Hb.
    destruct (check_fills tth pf vf af jf vMax aMax once.2 Hs')
      as ((Hj2 & Hsum2 & Hb2) & _); [by rewrite Ht|].
    pose proof (check_keeps tth pf vf af jf vMax aMax once.2) as Hkept2.
    fold twice in Hj2, Hsum2, Hb2, Hkept2. rewrite Ht, Hstart in *.
    destruct Hs' as (_ & Hl1 & _ & Hl2 & Hl3 & Hl4).
    pose proof Hkept2 as (_ & _ & _ & _ & _ & _ & _ & _ & _ & _ & _ & _ & _
                          & Hk1 & Hk2 & Hk3 & Hk4).
    apply profile_ext; [done| |congruence| | |]; (apply list_eq_total; [done|]);
      intros k Hk.
    + rewrite Hsum2, Hsum by lia. done.
    + pose proof (Hb k ltac:(lia)) as E1. pose proof (Hb2 k ltac:(lia)) as E2.
      rewrite <- E1 in E2. by injection E2.
    + pose proof (Hb k ltac:(lia)) as E1. pose proof (Hb2 k ltac:(lia)) as E2.
      rewrite <- E1 in E2. by injection E2.
    + pose proof (Hb k ltac:(lia)) as E1. pose proof (Hb2 k ltac:(lia)) as E2.
      rewrite <- E1 in E2. by injection E2.
  - (* both calls return from the first loop *)
    set (pr0 := Profile.with_t_sum (Profile.fill_j tth jf pr)
                  (<[0%nat := Profile.t pr !!! 0%nat]> (Profile.t_sum pr))).
    assert (once.2 = if Profile.t pr !!! 0%nat <? 0 then pr0
                     else (Profile.t_sum_loop 6 0 pr0).2) as Honce.
    { unfold once. by rewrite check_runs, Hnn. }
    assert (length (Profile.t_sum pr0) = 7%nat) as Hl0.
    { cbn [pr0 Profile.t_sum Profile.with_t_sum]. rewrite length_insert. apply Hs. }
    assert (Profile.t_sum once.2 !!! 0%nat = Profile.t pr !!! 0%nat) as Hfirst.
    { rewrite Honce. destruct (_ <? _).
      - cbn [pr0 Profile.t_sum Profile.with_t_sum].
        apply list_lookup_total_insert_eq. destruct Hs as (_ & -> & _). lia.
      - destruct (t_sum_loop_only 6 0 pr0) as [_ Hlow]. rewrite Hlow by lia.
        cbn [pr0 Profile.t_sum Profile.with_t_sum].
        apply list_lookup_total_insert_eq. destruct Hs as (_ & -> & _). lia. }
    unfold twice. rewrite check_runs, Ht, Hnn. cbn [snd].
    assert (Profile.with_t_sum (Profile.fill_j tth jf once.2)
              (<[0%nat := Profile.t pr !!! 0%nat]> (Profile.t_sum once.2)) = once.2)
      as ->.
    { rewrite fill_j_again by done.
      rewrite list_insert_id; [apply with_t_sum_same|].
      rewrite list_lookup_lookup_total_lt, Hfirst; [done|].
      destruct Hs' as (_ & -> & _). lia. }
    destruct (Profile.t pr !!! 0%nat <? 0); [done|].
    rewrite Honce at 1. rewrite t_sum_loop_again by lia. done.
Qed.

Lemma boundary_S ts js s k :
  Feasible.a_at ts js s (S k) = Feasible.a_at ts js s k + ts !!! k * js !!! k
  /\ Feasible.v_at ts js s (S k)
     = Feasible.v_at ts js s k
       + ts !!! k * (Feasible.a_at ts js s k + ts !!! k * js !!! k / 2)
  /\ Feasible.p_at ts js s (S k)
     = Feasible.p_at ts js s k
       + ts !!! k * (Feasible.v_at ts js s k
                     + ts !!! k * (Feasible.a_at ts js s k / 2
                                   + ts !!! k * js !!! k / 6)).
Proof.
  unfold Feasible.a_at, Feasible.v_at, Feasible.p_at. cbn [Feasible.boundary].
  by destruct (Feasible.boundary ts js s k) as [[? ?] ?].
Qed.

(** A NaN in the state at one boundary is in the state at every later one. *)
Lemma boundary_nan_stays ts js s k m :
  (k <= m)%nat ->
  (is_nan (Feasible.a_at ts js s k) = true -> is_nan (Feasible.a_at ts js s m) = true)
  /\ (is_nan (Feasible.v_at ts js s k) = true -> is_nan (Feasible.v_at ts js s m) = true)
  /\ (is_nan (Feasible.p_at ts js s k) = true -> is_nan (Feasible.p_at ts js s m) = true).
Proof.
  induction 1 as [|m _ (IHa & IHv & IHp)]; [done|].
  destruct (boundary_S ts js s m) as (-> & -> & ->).
  repeat split; intros ?; apply add_nan_l; auto.
Qed.

(** X3.  [check] never accepts a NaN: if one of the durations [t[i]], one
    of [a[0]], [v[0]], [p[0]], the jerk [jf], one of the targets [pf],
    [vf], [af] or one of the limits [vMax], [aMax] is a NaN, it returns
    false.  (A NaN duration passes the test [t[i] < 0] and is caught by the
    comparisons on the integrated state.) *)
Theorem check_rejects_nan tth pf vf af jf vMax aMax pr :
  Profile.sized pr ->
  (exists i, (i < 7)%nat /\ is_nan (Profile.t pr !!! i) = true)
  \/ is_nan (Profile.a pr !!! 0%nat) = true
  \/ is_nan (Profile.v pr !!! 0%nat) = true
  \/ is_nan (Profile.p pr !!! 0%nat) = true
  \/ is_nan jf = true
  \/ is_nan pf = true \/ is_nan vf = true \/ is_nan af = true
  \/ is_nan vMax = true \/ is_nan aMax = true ->
  (Profile.check tth pf vf af jf vMax aMax pr).1 = false.
Proof.
  intros Hs Hnan. rewrite check_result by done.
  unfold Feasible.feasible. apply andb_false_intro2.
  set (ts := Profile.t pr). set (js := Feasible.pattern tth jf).
  set (s := Feasible.start pr).
  destruct (boundary_nan_stays ts js s 0 7 ltac:(lia)) as (Ha0 & Hv0 & Hp0).
  destruct (boundary_nan_stays ts js s 1 7 ltac:(lia)) as (Ha1 & _ & _).
  unfold Feasible.bounded.
  destruct Hnan
    as [(i & Hi & Hnan)
       |[Hnan|[Hnan|[Hnan|[Hnan|[Hnan|[Hnan|[Hnan|[Hnan|Hnan]]]]]]]]].
  - by apply bounded_nan with i.
  - rewrite (ltb_nan_l (abs (Feasible.a_at ts js s 7 - af)));
      [apply andb_false_r|auto using abs_nan, sub_nan_l].
  - rewrite (ltb_nan_l (abs (Feasible.v_at ts js s 7 - vf)));
      [by rewrite andb_false_r|auto using abs_nan, sub_nan_l].
  - rewrite (ltb_nan_l (abs (Feasible.p_at ts js s 7 - pf)));
      [by rewrite andb_false_r|auto using abs_nan, sub_nan_l].
  - rewrite (ltb_nan_l (abs (Feasible.a_at ts js s 7 - af)));
      [apply andb_false_r|]. apply abs_nan, sub_nan_l, Ha1.
    destruct (boundary_S ts js s 0) as (-> & _). apply add_nan_r, mul_nan_r.
    unfold js. by destruct tth.
  - rewrite (ltb_nan_l (abs (Feasible.p_at ts js s 7 - pf)));
      [by rewrite andb_false_r|auto using abs_nan, sub_nan_r].
  - rewrite (ltb_nan_l (abs (Feasible.v_at ts js s 7 - vf)));
      [by rewrite andb_false_r|auto using abs_nan, sub_nan_r].
  - rewrite (ltb_nan_l (abs (Feasible.a_at ts js s 7 - af)));
      [apply andb_false_r|auto using abs_nan, sub_nan_r].
  - cbn [seq forallb].
    rewrite (ltb_nan_r (abs (Feasible.v_at ts js s 3))); [done|].
    auto using add_nan_l, abs_nan.
  - cbn [seq forallb].
    rewrite (ltb_nan_r (abs (Feasible.a_at ts js s 2))); [|auto using add_nan_l, abs_nan].
    cbn [andb]. by rewrite andb_false_r.
Qed.

End CheckAgain.

(** The checked profile of the rest-to-rest move, checked again. *)
Lemma check_idempotent_witness :
  Profile.check Profile.UDDU 1 0 0 1 1 1
    (Profile.check Profile.UDDU 1 0 0 1 1 1
       (Scenario.rest_candidate Scenario.blank)).2
  = Profile.check Profile.UDDU 1 0 0 1 1 1 (Scenario.rest_candidate Scenario.blank).
Proof.
  apply (check_idempotent Profile.UDDU 1 0 0 1 1 1
           (Scenario.rest_candidate Scenario.blank)).
  vm_compute. by repeat split.
Defined.

(** The candidate of the rest-to-rest move against a target position that
    is a NaN. *)
Lemma check_rejects_nan_witness :
  (Profile.check Profile.UDDU nan 0 0 1 1 1 (Scenario.rest_candidate Scenario.blank)).1
  = false.
Proof.
  apply check_rejects_nan; [vm_compute; by repeat split|].
  do 5 right. left. reflexivity.
Defined.

(** ** Block::is_blocked at the ends of the number line *)

(** X4.  No block blocks the duration [+infinity], and none blocks a NaN:
    every comparison of [is_blocked] is false for them, whatever [t_min]
    and the forbidden intervals are. *)
Theorem is_blocked_never_infinity_nor_nan blk :
  Block.is_blocked blk infinity = false /\ Block.is_blocked blk nan = false.
Proof.
  unfold Block.is_blocked, Block.inside. split.
  - rewrite !infinity_ltb.
    destruct (Block.a blk), (Block.b blk); by rewrite ?infinity_ltb, ?andb_false_r.
  - assert (is_nan nan = true) as Hnan by reflexivity.
    rewrite (ltb_nan_l nan) by done.
    destruct (Block.a blk), (Block.b blk);
      by rewrite ?(ltb_nan_l nan), ?(ltb_nan_r _ nan), ?andb_false_r.
Qed.

(** ** The synchronizer: what it finds, and what it leaves *)

Section SynchronizeResult.
Context (DOFs : nat).
Implicit Types (blocks : list Block.Block) (floor : option float).
Local Open Scope float_scope.

Local Abbreviation synchronize := (Ruckig.synchronize DOFs).
Local Abbreviation possible_t_syncs := (Ruckig.possible_t_syncs DOFs).
Local Abbreviation sorted_idx := (Ruckig.sorted_idx DOFs).

(** The indices examined are those of the candidates. *)
Lemma sorted_idx_in_range cands i : i ∈ sorted_idx cands <-> (i < 3 * DOFs)%nat.
Proof.
  unfold Ruckig.sorted_idx. rewrite stable_sort_perm, elem_of_seq. lia.
Qed.

Lemma synchronize_fast_result blocks floor refs :
  Claim.fast_path DOFs floor = true ->
  synchronize blocks floor refs
  = (Ret true,
     Ruckig.mkSyncRefs (Block.t_min (blocks !!! 0%nat)) 0
       (<[0%nat := Block.p_min (blocks !!! 0%nat)]> (Ruckig.sync_profiles refs))).
Proof. unfold Ruckig.synchronize, Claim.fast_path. by intros ->. Qed.

Lemma synchronize_search blocks floor refs :
  Claim.fast_path DOFs floor = false ->
  synchronize blocks floor refs
  = Ruckig.sync_loop blocks floor (possible_t_syncs blocks)
      (sorted_idx (possible_t_syncs blocks)) refs.
Proof. unfold Ruckig.synchronize, Claim.fast_path. by intros ->. Qed.

(** The loop ends in one of two ways: every candidate was rejected, or it
    stopped at the first index whose candidate was not. *)
Lemma sync_loop_stops blocks floor cands idx refs :
  (Ruckig.sync_loop blocks floor cands idx refs = (Ret false, refs)
   /\ Forall (fun k => Ruckig.rejected blocks floor (cands !!! k) = true) idx)
  \/ exists pre i post,
       idx = pre ++ i :: post
       /\ Forall (fun k => Ruckig.rejected blocks floor (cands !!! k) = true) pre
       /\ Ruckig.rejected blocks floor (cands !!! i) = false
       /\ Ruckig.sync_loop blocks floor cands idx refs
          = match Claim.selected blocks i with
            | Some p =>
                (Ret true,
                 Ruckig.mkSyncRefs (cands !!! i) (i / 3)
                   (<[(i / 3)%nat := p]> (Ruckig.sync_profiles refs)))
            | None =>
                (Throw bad_optional_access,
                 Ruckig.mkSyncRefs (cands !!! i) (i / 3) (Ruckig.sync_profiles refs))
            end.
Proof.
  induction idx as [|i idx IH]; cbn [Ruckig.sync_loop].
  - left. by split.
  - destruct (Ruckig.rejected blocks floor (cands !!! i)) eqn:Hrej.
    + destruct IH as [[-> Hall]|(pre & k & post & -> & Hpre & Hk & ->)].
      * left. split; [done|by constructor].
      * right. exists (i :: pre), k, post. split; [done|]. split; [by constructor|done].
    + right. exists [], i, idx. split; [done|]. split; [done|].
      split; [done|apply lock_in_selected].
Qed.

(** X5.  When the search of [synchronize] (any call but the single-axis
    one without a floor) returns true, the duration [t_sync] it wrote is
    blocked by none of the blocks it was given and is not below the floor
    (0 if unspecified); [limiting_dof] is the index of an axis; [t_sync] is
    one of the three candidates of that axis, and the profile written to
    [profiles[limiting_dof]] is the one that goes with that candidate
    ([p_min], [p_a] or [p_b] of the block of that axis). *)
Theorem synchronize_search_result_feasible blocks floor refs refs' :
  Claim.fast_path DOFs floor = false ->
  synchronize blocks floor refs = (Ret true, refs') ->
  Forall (fun block => Block.is_blocked block (Ruckig.t_sync refs') = false) blocks
  /\ (Ruckig.t_sync refs' <? value_or floor 0) = false
  /\ (Ruckig.limiting_dof refs' < DOFs)%nat
  /\ exists i p,
       (i < 3 * DOFs)%nat /\ Ruckig.limiting_dof refs' = (i / 3)%nat
       /\ Ruckig.t_sync refs' = Claim.candidate blocks i
       /\ Claim.selected blocks i = Some p
       /\ Ruckig.sync_profiles refs'
          = <[(i / 3)%nat := p]> (Ruckig.sync_profiles refs).
Proof.
  intros Hfast Hrun. rewrite synchronize_search in Hrun by done.
  destruct (sync_loop_stops blocks floor (possible_t_syncs blocks)
              (sorted_idx (possible_t_syncs blocks)) refs)
    as [[Hout _]|(pre & i & post & Hsplit & _ & Hacc & Hout)];
    rewrite Hout in Hrun; [done|].
  assert (i < 3 * DOFs)%nat as Hi
    by (apply (sorted_idx_in_range (possible_t_syncs blocks)); rewrite Hsplit; set_solver).
  destruct (Claim.selected blocks i) as [p|] eqn:Hp; [|done].
  injection Hrun as <-. cbn [Ruckig.t_sync Ruckig.limiting_dof Ruckig.sync_profiles].
  unfold Ruckig.rejected in Hacc. apply orb_false_elim in Hacc as [Hblocks Hfloor].
  split.
  - apply Forall_forall. intros block Hin.
    destruct (Block.is_blocked block _) eqn:Hb; [|done].
    assert (existsb (fun block => Block.is_blocked block (possible_t_syncs blocks !!! i))
              blocks = true) as Hex
      by (apply existsb_exists; exists block; by rewrite <- list_elem_of_In).
    congruence.
  - split; [done|].
    split; [change (i / 3 < DOFs)%nat; apply Nat.Div0.div_lt_upper_bound; lia|].
    exists i, p. by rewrite possible_t_syncs_candidate.
Qed.

(** X6.  The duration found by the search is the least feasible
    candidate: when [synchronize] returns true and no candidate is a NaN,
    no candidate that passes the test of the loop (blocked by no axis, not
    below the floor) is less than [t_sync]. *)
Theorem synchronize_result_minimal blocks floor refs refs' k :
  Claim.fast_path DOFs floor = false ->
  Forall (fun c => is_nan c = false) (possible_t_syncs blocks) ->
  synchronize blocks floor refs = (Ret true, refs') ->
  (k < 3 * DOFs)%nat ->
  Ruckig.rejected blocks floor (Claim.candidate blocks k) = false ->
  (Claim.candidate blocks k <? Ruckig.t_sync refs') = false.
Proof.
  intros Hfast Hnan Hrun Hk Hacc.
  rewrite synchronize_search in Hrun by done.
  set (cands := possible_t_syncs blocks) in *.
  destruct (sorted_idx_ascending DOFs cands (possible_t_syncs_length DOFs blocks) Hnan)
    as [_ Hsorted].
  destruct (sync_loop_stops blocks floor cands (sorted_idx cands) refs)
    as [[Hout _]|(pre & i & post & Hsplit & Hpre & _ & Hout)];
    rewrite Hout in Hrun; [done|].
  destruct (Claim.selected blocks i); [|done].
  injection Hrun as <-. cbn [Ruckig.t_sync].
  rewrite <- (possible_t_syncs_candidate DOFs) in * by done. fold cands in Hacc |- *.
  assert (k ∈ sorted_idx cands) as Hin by (by apply sorted_idx_in_range).
  rewrite Hsplit in Hin, Hsorted.
  apply elem_of_app in Hin as [Hin|Hin].
  - rewrite Forall_forall in Hpre. rewrite (Hpre k Hin) in Hacc. done.
  - apply elem_of_cons in Hin as [->|Hin]; [apply ltb_irrefl|].
    apply StronglySorted_app_r in Hsorted.
    apply StronglySorted_inv in Hsorted as [_ Hafter].
    rewrite Forall_forall in Hafter. by destruct (Hafter k Hin).
Qed.

(** X7.  [synchronize] writes to one profile at most: the array
    [profiles] keeps its size, and every entry but the one at
    [limiting_dof] is as before the call.  When it returns false it has
    written to none of its three reference arguments; the only exception
    that leaves it is [std::bad_optional_access], and then no profile has
    been written. *)
Theorem synchronize_writes_one_profile blocks floor refs :
  let out := synchronize blocks floor refs in
  length (Ruckig.sync_profiles out.2) = length (Ruckig.sync_profiles refs)
  /\ (forall d, d <> Ruckig.limiting_dof out.2 ->
        Ruckig.sync_profiles out.2 !!! d = Ruckig.sync_profiles refs !!! d)
  /\ match out.1 with
     | Ret true => True
     | Ret false => out.2 = refs
     | Throw e =>
         e = bad_optional_access
         /\ Ruckig.sync_profiles out.2 = Ruckig.sync_profiles refs
     end.
Proof.
  destruct (Claim.fast_path DOFs floor) eqn:Hfast.
  - rewrite synchronize_fast_result by done.
    cbn [fst snd Ruckig.sync_profiles Ruckig.limiting_dof].
    rewrite length_insert. split; [done|]. split; [|done].
    intros d Hd. by rewrite list_lookup_total_insert_ne.
  - rewrite synchronize_search by done.
    destruct (sync_loop_stops blocks floor (possible_t_syncs blocks)
                (sorted_idx (possible_t_syncs blocks)) refs)
      as [[-> _]|(pre & i & post & _ & _ & _ & ->)]; [done|].
    destruct (Claim.selected blocks i) as [p|];
      cbn [fst snd Ruckig.sync_profiles Ruckig.limiting_dof]; [|done].
    rewrite length_insert. split; [done|]. split; [|done].
    intros d Hd. by rewrite list_lookup_total_insert_ne.
Qed.

Lemma rejected_infinity blocks floor : Ruckig.rejected blocks floor infinity = false.
Proof.
  unfold Ruckig.rejected. rewrite infinity_ltb, orb_false_r.
  induction blocks as [|block blocks IH]; cbn [existsb]; [done|].
  rewrite IH, orb_false_r. unfold Block.is_blocked, Block.inside.
  rewrite !infinity_ltb.
  destruct (Block.a block), (Block.b block); by rewrite ?infinity_ltb, ?andb_false_r.
Qed.

(** X8.  When the block of some axis lacks one of its two intervals,
    [synchronize] never returns false: the candidate of the absent interval
    is infinity, which no block blocks and which is below no floor, so the
    loop stops at it at the latest.  The call returns true or throws
    [std::bad_optional_access].  (No candidate is a NaN, as the comparison
    handed to [std::stable_sort] requires.) *)
Theorem synchronize_absent_interval_never_false blocks floor refs dof :
  Forall (fun c => is_nan c = false) (possible_t_syncs blocks) ->
  (dof < DOFs)%nat ->
  Block.a (blocks !!! dof) = None \/ Block.b (blocks !!! dof) = None ->
  (synchronize blocks floor refs).1 = Ret true
  \/ (synchronize blocks floor refs).1 = Throw bad_optional_access.
Proof.
  intros _ Hdof Habsent.
  destruct (Claim.fast_path DOFs floor) eqn:Hfast;
    [rewrite synchronize_fast_result by done; by left|].
  rewrite synchronize_search by done.
  set (cands := possible_t_syncs blocks).
  destruct (sync_loop_stops blocks floor cands (sorted_idx cands) refs)
    as [[_ Hall]|(pre & i & post & _ & _ & _ & ->)].
  - exfalso. rewrite Forall_forall in Hall.
    assert (exists i, (i < 3 * DOFs)%nat /\ cands !!! i = infinity) as (i & Hi & Hinf).
    { destruct Habsent as [Ha|Hb]; [exists (dof * 3 + 1)%nat|exists (dof * 3 + 2)%nat];
        (split; [lia|]); unfold cands;
        rewrite possible_t_syncs_candidate by lia; unfold Claim.candidate;
        rewrite Nat.div_add_l, Nat.add_comm, Nat.Div0.mod_add by lia;
        cbn; rewrite Nat.add_0_r; [by rewrite Ha|by rewrite Hb]. }
    specialize (Hall i (proj2 (sorted_idx_in_range cands i) Hi)).
    by rewrite Hinf, rejected_infinity in Hall.
  - destruct (Claim.selected blocks i); [by left|by right].
Qed.

End SynchronizeResult.

Section FastPath.
Local Open Scope float_scope.

(** X9.  For a single axis whose block has a [t_min] that is not negative
    and lies strictly inside neither of its own forbidden intervals, the
    call without a floor, which looks at no candidate, does what the search
    does with the floor 0: the same result and the same values written to
    the three reference arguments.  (No candidate is a NaN.) *)
Theorem synchronize_fast_path_is_search block refs :
  Forall (fun c => is_nan c = false) (Ruckig.possible_t_syncs 1 [block]) ->
  (Block.t_min block <? 0) = false ->
  Block.inside (Block.a block) (Block.t_min block) = false ->
  Block.inside (Block.b block) (Block.t_min block) = false ->
  Ruckig.synchronize 1 [block] None refs = Ruckig.synchronize 1 [block] (Some 0) refs.
Proof.
  intros Hnan Hpos Ha Hb.
  rewrite (synchronize_fast_result 1 [block] None) by done.
  rewrite (synchronize_search 1 [block] (Some 0)) by done.
  set (cands := Ruckig.possible_t_syncs 1 [block]).
  destruct (sorted_idx_ascending 1 cands (possible_t_syncs_length 1 [block]) Hnan)
    as [Hperm Hsorted].
  assert (0%nat ∈ Ruckig.sorted_idx 1 cands) as Hin
    by (apply sorted_idx_in_range; lia).
  apply list_elem_of_split in Hin as (pre & post & Hsplit).
  rewrite Hsplit in Hsorted |- *.
  assert (cands !!! 0%nat = Block.t_min block) as Hc0 by reflexivity.
  rewrite sync_loop_first, lock_in_selected.
  - cbn [Claim.selected lookup_total list_lookup_total Nat.div Nat.modulo Nat.divmod
         fst snd]. by rewrite Hc0.
  - apply StronglySorted_before in Hsorted.
    eapply Forall_impl; [exact Hsorted|]. intros k [_ Hlt].
    destruct (cands !!! k <? cands !!! 0%nat) eqn:Hk0.
    + unfold Ruckig.rejected, Block.is_blocked. cbn [existsb].
      by rewrite <- Hc0, Hk0.
    + specialize (Hlt eq_refl). unfold Nat.lt in Hlt. lia.
  - unfold Ruckig.rejected, Block.is_blocked. cbn [existsb value_or].
    by rewrite Hc0, ltb_irrefl, Ha, Hb, Hpos.
Qed.

End FastPath.

(** Two axes, no floor: the duration 5 found is blocked by neither block. *)
Lemma synchronize_search_result_feasible_witness :
  Forall (fun block => Block.is_blocked block 5 = false) Scenario.two_blocks.
Proof.
  refine (proj1 (synchronize_search_result_feasible 2 Scenario.two_blocks None
                   (Ruckig.mkSyncRefs 0 0 [Scenario.blank; Scenario.blank])
                   (Ruckig.mkSyncRefs 5 1 [Scenario.blank; Scenario.blank]) _ _));
    vm_compute; reflexivity.
Defined.

(** Two axes, no floor: the candidate 8 of the second axis is feasible and
    not less than the duration 5 found. *)
Lemma synchronize_result_minimal_witness :
  (Claim.candidate Scenario.two_blocks 4 <? 5)%float = false.
Proof.
  refine (synchronize_result_minimal 2 Scenario.two_blocks None
            (Ruckig.mkSyncRefs 0 0 [Scenario.blank; Scenario.blank])
            (Ruckig.mkSyncRefs 5 1 [Scenario.blank; Scenario.blank]) 4 _ _ _ _ _).
  - reflexivity.
  - vm_compute. repeat constructor.
  - vm_compute; reflexivity.
  - lia.
  - vm_compute; reflexivity.
Defined.

(** The block of the rest-to-rest move has no interval: under the floor 10
    the synchronizer does not return false, it throws. *)
Lemma synchronize_absent_interval_never_false_witness :
  (Ruckig.synchronize 1 [Scenario.rest_block Scenario.blank] (Some 10%float)
     (Ruckig.mkSyncRefs 0 0 [Scenario.blank])).1 = Ret true
  \/ (Ruckig.synchronize 1 [Scenario.rest_block Scenario.blank] (Some 10%float)
        (Ruckig.mkSyncRefs 0 0 [Scenario.blank])).1 = Throw bad_optional_access.
Proof.
  apply (synchronize_absent_interval_never_false 1
           [Scenario.rest_block Scenario.blank] (Some 10%float)
           (Ruckig.mkSyncRefs 0 0 [Scenario.blank]) 0).
  - vm_compute. repeat constructor.
  - lia.
  - left. reflexivity.
Defined.

(** The block of the rest-to-rest move, with and without the floor 0. *)
Lemma synchronize_fast_path_is_search_witness :
  Ruckig.synchronize 1 [Scenario.rest_block Scenario.blank] None
    (Ruckig.mkSyncRefs 0 0 [Scenario.blank])
  = Ruckig.synchronize 1 [Scenario.rest_block Scenario.blank] (Some 0%float)
      (Ruckig.mkSyncRefs 0 0 [Scenario.blank]).
Proof.
  apply synchronize_fast_path_is_search.
  - vm_compute. repeat constructor.
  - vm_compute; reflexivity.
  - reflexivity.
  - reflexivity.
Defined.

(** ** validate_input: what passes *)

Section ValidatePasses.
Context (DOFs : nat).
Implicit Types (input : InputParameter).
Local Open Scope float_scope.

(** X10.  A velocity limit that is a NaN passes validation: the tests
    [max_velocity <= 0] and [target_velocity > max_velocity] are false for
    it, and so is the last test, whose bound is then a NaN.  An input whose
    axes all have such a limit is valid as soon as their acceleration and
    jerk limits are not [<= 0] and their target accelerations do not exceed
    the acceleration limits, whatever the target velocities are. *)
Theorem validate_input_accepts_nan_velocity_limit input :
  (forall dof, (dof < DOFs)%nat ->
     is_nan (max_velocity input !!! dof) = true
     /\ (max_acceleration input !!! dof <=? 0) = false
     /\ (max_jerk input !!! dof <=? 0) = false
     /\ (max_acceleration input !!! dof <? target_acceleration input !!! dof) = false) ->
  Ruckig.validate_input DOFs input = true.
Proof.
  intros Hall.
  destruct (Ruckig.validate_input DOFs input) eqn:Hv; [done|].
  apply validate_input_fails in Hv as (dof & Hdof & Hfail).
  destruct (Hall dof Hdof) as (Hnan & Ha & Hj & Hta).
  unfold Claim.fails_validation in Hfail.
  rewrite Ha, Hj, Hta, (leb_nan_l _ _ Hnan), (ltb_nan_l _ _ Hnan) in Hfail.
  rewrite ltb_nan_l in Hfail; [done|].
  by apply sqrt_nan, mul_nan_r, sub_nan_l.
Qed.

(** X11.  The target velocity is bounded from above only.  When the first
    five tests pass for every axis and the radicand
    [2 * max_jerk * (max_velocity - |target_velocity|)] is negative (the
    target velocity lies beyond the limit in absolute value, which the
    fourth test lets through for a negative target), the bound
    [max_target_acceleration] is the square root of a negative number, a
    NaN; the last test is false and the input is valid, whatever the target
    acceleration is within its own limit. *)
Theorem validate_input_accepts_negative_radicand input :
  (forall dof, (dof < DOFs)%nat ->
     (max_velocity input !!! dof <=? 0) = false
     /\ (max_acceleration input !!! dof <=? 0) = false
     /\ (max_jerk input !!! dof <=? 0) = false
     /\ (max_velocity input !!! dof <? target_velocity input !!! dof) = false
     /\ (max_acceleration input !!! dof <? target_acceleration input !!! dof) = false
     /\ (2 * max_jerk input !!! dof
         * (max_velocity input !!! dof - abs (target_velocity input !!! dof)) <? 0)
        = true) ->
  Ruckig.validate_input DOFs input = true.
Proof.
  intros Hall.
  destruct (Ruckig.validate_input DOFs input) eqn:Hv; [done|].
  apply validate_input_fails in Hv as (dof & Hdof & Hfail).
  destruct (Hall dof Hdof) as (Hv & Ha & Hj & Htv & Hta & Hneg).
  unfold Claim.fails_validation in Hfail.
  rewrite Hv, Ha, Hj, Htv, Hta in Hfail.
  rewrite ltb_nan_l in Hfail; [done|]. by apply sqrt_negative.
Qed.

End ValidatePasses.

(** A velocity limit that is a NaN, limits 1 otherwise. *)
Lemma validate_input_accepts_nan_velocity_limit_witness :
  Ruckig.validate_input 1 Scenario.unlimited = true.
Proof.
  apply validate_input_accepts_nan_velocity_limit.
  intros dof Hdof. replace dof with 0%nat by lia.
  vm_compute. by repeat split.
Defined.

(** A target velocity of -5 under the velocity limit 1. *)
Lemma validate_input_accepts_negative_radicand_witness :
  Ruckig.validate_input 1 Scenario.backwards = true.
Proof.
  apply validate_input_accepts_negative_radicand.
  intros dof Hdof. replace dof with 0%nat by lia.
  vm_compute. by repeat split.
Defined.

(** ** calculate: the brake prefix and the two loops over the axes *)

Section BrakePrefix.
Context (solvers : Solvers).
Local Open Scope float_scope.

(** X12.  The brake prefix [calculate] builds for an axis.  The profile
    takes the two durations and jerks Brake answers, and [t_brake] is set
    to the sum of the two durations; nothing else of the profile but the
    recorded brake states is written.  The states chain: if the first
    duration is positive the current state is recorded for segment 0, and
    if the second is positive too the state integrated over segment 0 is
    recorded for segment 1; Step1 starts at the state integrated over the
    segments of positive duration.  If the first duration is not positive
    no state is recorded and Step1 starts at the current state, whatever
    the second duration is. *)
Theorem brake_dof_chains input dof pr :
  length (Profile.p_brakes pr) = 2%nat -> length (Profile.v_brakes pr) = 2%nat ->
  length (Profile.a_brakes pr) = 2%nat ->
  let tb := (Braking.trajectory solvers input dof pr).1 in
  let jb := (Braking.trajectory solvers input dof pr).2 in
  let out := Ruckig.brake_dof solvers input dof pr in
  let after0 := Braking.integrate_from (tb !!! 0%nat) (Braking.current input dof)
                  (jb !!! 0%nat) in
  Profile.t_brakes out.1 = tb /\ Profile.j_brakes out.1 = jb
  /\ Profile.t_brake out.1 = Some (tb !!! 0%nat + tb !!! 1%nat)
  /\ (Profile.t out.1 = Profile.t pr /\ Profile.t_sum out.1 = Profile.t_sum pr
      /\ Profile.j out.1 = Profile.j pr /\ Profile.a out.1 = Profile.a pr
      /\ Profile.v out.1 = Profile.v pr /\ Profile.p out.1 = Profile.p pr
      /\ Profile.limits out.1 = Profile.limits pr
      /\ Profile.direction out.1 = Profile.direction pr
      /\ Profile.teeth out.1 = Profile.teeth pr)
  /\ if 0 <? tb !!! 0%nat
     then Braking.recorded out.1 0 = Braking.current input dof
          /\ if 0 <? tb !!! 1%nat
             then Braking.recorded out.1 1 = after0
                  /\ out.2 = Braking.integrate_from (tb !!! 1%nat) after0 (jb !!! 1%nat)
             else Braking.recorded out.1 1 = Braking.recorded pr 1
                  /\ out.2 = after0
     else Braking.recorded out.1 0 = Braking.recorded pr 0
          /\ Braking.recorded out.1 1 = Braking.recorded pr 1
          /\ out.2 = Braking.current input dof.
Proof.
  intros Hp Hv Ha tb jb out after0.
  subst out after0 tb jb.
  unfold Ruckig.brake_dof, Braking.trajectory, Braking.recorded, Braking.current,
    Braking.integrate_from.
  destruct (get_brake_trajectory _ _ _ _ _ _ _ _) as [tb jb]. cbn [fst snd].
  cbn [Profile.t_brakes Profile.j_brakes Profile.with_brakes Profile.with_t_brake
       Profile.p_brakes Profile.v_brakes Profile.a_brakes Profile.with_pva_brakes].
  destruct (0 <? tb !!! 0%nat).
  - destruct (Profile.integrate (tb !!! 0%nat) _ _ _ _) as [[p1 v1] a1] eqn:H1.
    destruct (0 <? tb !!! 1%nat); cbn;
      repeat first [ rewrite list_lookup_total_insert_ne by lia
                   | rewrite list_lookup_total_insert_eq
                       by (rewrite ?length_insert; lia) ];
      by repeat split.
  - by repeat split.
Qed.

End BrakePrefix.

(** An axis at twice the velocity limit, braked over two segments: the
    brake prefix lasts 0.75 s. *)
Lemma brake_dof_chains_witness :
  Profile.t_brake
    (Ruckig.brake_dof Scenario.solvers_with_brake Scenario.too_fast 0 Scenario.blank).1
  = Some (0.5 + 0.25)%float.
Proof.
  refine (proj1 (proj2 (proj2 (brake_dof_chains Scenario.solvers_with_brake
                                 Scenario.too_fast 0 Scenario.blank _ _ _))));
    reflexivity.
Defined.

Section Loops.
Context (DOFs : nat) (solvers : Solvers).
Implicit Types (r : Ruckig.Ruckig) (o : OutputParameter) (input : InputParameter)
  (loc : Ruckig.Locals) (s : Ruckig.St).
Local Open Scope float_scope.

Local Abbreviation update := (Ruckig.update DOFs solvers).
Local Abbreviation calculate := (Ruckig.calculate DOFs solvers).
Local Abbreviation plan_dof := (Ruckig.plan_dof solvers).
Local Abbreviation finalize_dof := (Ruckig.finalize_dof solvers).

(** One iteration of the first loop that does not throw. *)
Lemma plan_dof_step input dof loc s loc' s' :
  Axis.sized DOFs s loc -> (dof < DOFs)%nat ->
  plan_dof input dof loc s = (Ret loc', s') ->
  Axis.sized DOFs s' loc'
  /\ (forall d, d <> dof -> Axis.view s' loc' d = Axis.view s loc d)
  /\ if (enabled input !!! dof : bool)
     then Axis.planned solvers input dof (Ruckig.profiles s.1 !!! dof)
          = Some (Axis.view s' loc' dof)
     else Axis.view s' loc' dof = Axis.view s loc dof.
Proof.
  intros (Hp & Hi & Hb & Hp0 & Hv0 & Ha0) Hdof.
  unfold Ruckig.plan_dof, Axis.planned.
  destruct (enabled input !!! dof); cbn [negb].
  2: { intros [= <- <-]. by repeat split. }
  unfold mbind, M_bind, get, Ruckig.on_ruckig, Ruckig.on_output, modify, throw.
  cbn [fst snd].
  destruct (Ruckig.brake_dof solvers input dof _) as [pr [[p0 v0] a0]].
  cbn [fst snd].
  destruct (Step1_get_profile _ _ _ _ _ _) as [block|]; [|done].
  intros [= <- <-]. unfold Axis.sized, Axis.view.
  cbn [fst snd Ruckig.profiles Ruckig.with_profiles Ruckig.blocks Ruckig.p0s
       Ruckig.v0s Ruckig.a0s independent_min_durations with_independent_min_duration].
  rewrite !length_insert. split; [done|]. split.
  - intros d Hd. by rewrite !list_lookup_total_insert_ne by done.
  - by rewrite !list_lookup_total_insert_eq by lia.
Qed.

Lemma plan_loop_invariant input n k loc s loc' s' :
  Axis.sized DOFs s loc -> (k + n <= DOFs)%nat ->
  Ruckig.for_dofs (plan_dof input) (seq k n) loc s = (Ret loc', s') ->
  Axis.sized DOFs s' loc'
  /\ forall dof,
       if decide ((k <= dof < k + n)%nat /\ enabled input !!! dof = true)
       then Axis.planned solvers input dof (Ruckig.profiles s.1 !!! dof)
            = Some (Axis.view s' loc' dof)
       else Axis.view s' loc' dof = Axis.view s loc dof.
Proof.
  revert k loc s. induction n as [|n IH]; intros k loc s Hs Hk;
    cbn [seq Ruckig.for_dofs].
  - intros [= <- <-]. split; [done|]. intros dof.
    by rewrite decide_False by lia.
  - unfold mbind, M_bind.
    destruct (plan_dof input k loc s) as [[loc1|e] s1] eqn:Hstep; [|done].
    apply plan_dof_step in Hstep as (Hs1 & Hother & Hthis); [|done|lia].
    intros Hrest. apply IH in Hrest as [Hs' Hinv]; [|done|lia].
    split; [done|]. intros dof. specialize (Hinv dof).
    destruct (decide (dof = k)) as [->|Hne].
    + rewrite decide_False in Hinv by lia. rewrite Hinv.
      destruct (enabled input !!! k) eqn:Hen.
      * by rewrite decide_True by (split; [lia|done]).
      * by rewrite decide_False by (intros [_ ?]; done).
    + assert (Ruckig.profiles s1.1 !!! dof = Ruckig.profiles s.1 !!! dof) as Hpr
        by (by injection (Hother dof Hne)).
      rewrite Hpr, (Hother dof Hne) in Hinv.
      destruct (decide ((S k <= dof < S k + n)%nat /\ enabled input !!! dof = true))
        as [[? ?]|Hno].
      * by rewrite decide_True by (split; [lia|done]).
      * rewrite decide_False; [done|]. intros [? ?]. apply Hno. split; [lia|done].
Qed.

(** X13.  The first loop of [calculate], when it runs through without
    throwing.  For every enabled axis Step1 has found a profile from the
    profile the object held for the axis when the loop started, and the
    loop leaves: in [profiles[dof]] that profile with its brake prefix, in
    [blocks[dof]] the block of Step1, in
    [output.independent_min_durations[dof]] the [t_min] of that block, and
    in [p0s[dof]], [v0s[dof]], [a0s[dof]] the state after the brake prefix.
    For a disabled axis it leaves all of these as they were: [blocks[dof]]
    is still the uninitialised local when [synchronize] is called. *)
Theorem plan_loop_records input locals0 s loc s' dof :
  Axis.sized DOFs s locals0 -> (dof < DOFs)%nat ->
  Ruckig.for_dofs (plan_dof input) (seq 0 DOFs) locals0 s = (Ret loc, s') ->
  if (enabled input !!! dof : bool)
  then Axis.planned solvers input dof (Ruckig.profiles s.1 !!! dof)
       = Some (Axis.view s' loc dof)
  else Axis.view s' loc dof = Axis.view s locals0 dof.
Proof.
  intros Hs Hdof Hrun.
  apply plan_loop_invariant in Hrun as [_ Hinv]; [|done|lia].
  specialize (Hinv dof). destruct (enabled input !!! dof).
  - by rewrite decide_True in Hinv by (split; [lia|done]).
  - by rewrite decide_False in Hinv by (intros [_ ?]; done).
Qed.

(** One iteration of the second loop that does not throw. *)
Lemma finalize_dof_step input loc limiting_dof dof s s' :
  (dof < length (Ruckig.profiles s.1))%nat ->
  finalize_dof input loc limiting_dof dof tt s = (Ret tt, s') ->
  Ruckig.tf s'.1 = Ruckig.tf s.1
  /\ length (Ruckig.profiles s'.1) = length (Ruckig.profiles s.1)
  /\ (forall d, d <> dof -> Ruckig.profiles s'.1 !!! d = Ruckig.profiles s.1 !!! d)
  /\ if Axis.skipped input limiting_dof dof
     then Ruckig.profiles s'.1 !!! dof = Ruckig.profiles s.1 !!! dof
     else Axis.synchronized solvers input loc (Ruckig.tf s.1) dof
            (Ruckig.profiles s.1 !!! dof)
          = (true, Ruckig.profiles s'.1 !!! dof).
Proof.
  intros Hdof. unfold Ruckig.finalize_dof, Axis.skipped, Axis.synchronized.
  destruct (negb (enabled input !!! dof) || (dof =? limiting_dof)%nat).
  { by intros [= <-]. }
  unfold mbind, M_bind, get, Ruckig.on_ruckig, modify, throw. cbn [fst snd].
  destruct (Step2_get_profile _ _ _ _ _ _) as [[] pr]; cbn [fst snd]; [|done].
  intros [= <-]. cbn [fst Ruckig.tf Ruckig.profiles Ruckig.with_profiles].
  rewrite length_insert. split; [done|]. split; [done|]. split.
  - intros d Hd. by rewrite list_lookup_total_insert_ne.
  - by rewrite list_lookup_total_insert_eq.
Qed.

Lemma finalize_loop_invariant input loc limiting_dof n k s s' :
  (k + n <= length (Ruckig.profiles s.1))%nat ->
  Ruckig.for_dofs (finalize_dof input loc limiting_dof) (seq k n) tt s = (Ret tt, s') ->
  Ruckig.tf s'.1 = Ruckig.tf s.1
  /\ length (Ruckig.profiles s'.1) = length (Ruckig.profiles s.1)
  /\ forall dof,
       if decide ((k <= dof < k + n)%nat /\ Axis.skipped input limiting_dof dof = false)
       then Axis.synchronized solvers input loc (Ruckig.tf s.1) dof
              (Ruckig.profiles s.1 !!! dof)
            = (true, Ruckig.profiles s'.1 !!! dof)
       else Ruckig.profiles s'.1 !!! dof = Ruckig.profiles s.1 !!! dof.
Proof.
  revert k s. induction n as [|n IH]; intros k s Hk; cbn [seq Ruckig.for_dofs].
  - intros [= <-]. split; [done|]. split; [done|]. intros dof.
    by rewrite decide_False by lia.
  - unfold mbind, M_bind.
    destruct (finalize_dof input loc limiting_dof k tt s) as [[[]|e] s1] eqn:Hstep;
      [|done].
    apply finalize_dof_step in Hstep as (Htf & Hlen & Hother & Hthis); [|lia].
    intros Hrest. apply IH in Hrest as (Htf' & Hlen' & Hinv); [|lia].
    split; [congruence|]. split; [congruence|]. intros dof. specialize (Hinv dof).
    rewrite Htf in Hinv.
    destruct (decide (dof = k)) as [->|Hne].
    + rewrite decide_False in Hinv by lia. rewrite Hinv.
      destruct (Axis.skipped input limiting_dof k) eqn:Hskip.
      * by rewrite decide_False by (intros [_ ?]; done).
      * by rewrite decide_True by (split; [lia|done]).
    + rewrite (Hother dof Hne) in Hinv.
      destruct (decide ((S k <= dof < S k + n)%nat
                        /\ Axis.skipped input limiting_dof dof = false))
        as [[? ?]|Hno].
      * by rewrite decide_True by (split; [lia|done]).
      * rewrite decide_False; [done|]. intros [? ?]. apply Hno. split; [lia|done].
Qed.

(** X14.  The second loop of [calculate], when it runs through without
    throwing.  It leaves the duration [tf] as [synchronize] set it.  For
    every enabled axis other than the limiting one, Step2 was asked for a
    profile of the duration [tf] less the brake prefix of the axis, from
    the state after the brake prefix to the target, it found one, and
    [profiles[dof]] is that profile; the profiles of the limiting axis and
    of the disabled axes are as they were. *)
Theorem finalize_loop_records input loc limiting_dof s s' dof :
  length (Ruckig.profiles s.1) = DOFs -> (dof < DOFs)%nat ->
  Ruckig.for_dofs (finalize_dof input loc limiting_dof) (seq 0 DOFs) tt s = (Ret tt, s') ->
  Ruckig.tf s'.1 = Ruckig.tf s.1
  /\ if Axis.skipped input limiting_dof dof
     then Ruckig.profiles s'.1 !!! dof = Ruckig.profiles s.1 !!! dof
     else Axis.synchronized solvers input loc (Ruckig.tf s.1) dof
            (Ruckig.profiles s.1 !!! dof)
          = (true, Ruckig.profiles s'.1 !!! dof).
Proof.
  intros Hlen Hdof Hrun.
  apply finalize_loop_invariant in Hrun as (Htf & _ & Hinv); [|lia].
  split; [done|]. specialize (Hinv dof).
  destruct (Axis.skipped input limiting_dof dof).
  - by rewrite decide_False in Hinv by (intros [_ ?]; done).
  - by rewrite decide_True in Hinv by (split; [lia|done]).
Qed.

(** *** What the loops keep *)

Lemma by_loops_refl s : Kept.by_loops s s.
Proof. by repeat split. Qed.

Lemma by_loops_trans s1 s2 s3 :
  Kept.by_loops s1 s2 -> Kept.by_loops s2 s3 -> Kept.by_loops s1 s3.
Proof.
  unfold Kept.by_loops. intros H1 H2.
  repeat match goal with H : _ /\ _ |- _ => destruct H as [? H] end.
  repeat split; congruence.
Qed.

Lemma for_dofs_keeps {L} (body : nat -> L -> M Ruckig.St L) dofs (l : L) s :
  (forall dof l s, Kept.by_loops s (body dof l s).2) ->
  Kept.by_loops s (Ruckig.for_dofs body dofs l s).2.
Proof.
  intros Hbody. revert l s. induction dofs as [|dof dofs IH]; intros l s;
    cbn [Ruckig.for_dofs]; [apply by_loops_refl|].
  unfold mbind, M_bind. pose proof (Hbody dof l s) as Hstep.
  destruct (body dof l s) as [[l'|e] s1]; cbn [snd] in *; [|done].
  eauto using by_loops_trans.
Qed.

Lemma plan_dof_keeps input dof loc s : Kept.by_loops s (plan_dof input dof loc s).2.
Proof.
  unfold Ruckig.plan_dof.
  destruct (negb (enabled input !!! dof)); [apply by_loops_refl|].
  unfold mbind, M_bind, get, Ruckig.on_ruckig, Ruckig.on_output, modify, throw.
  destruct (Ruckig.brake_dof solvers input dof _) as [pr pva]. cbn [fst snd].
  destruct (Step1_get_profile _ _ _ _ _ _) as [block|];
    repeat split; cbn; by rewrite ?length_insert.
Qed.

Lemma finalize_dof_keeps input loc limiting_dof dof u s :
  Kept.by_loops s (finalize_dof input loc limiting_dof dof u s).2.
Proof.
  unfold Ruckig.finalize_dof.
  destruct (negb (enabled input !!! dof) || (dof =? limiting_dof)%nat);
    [apply by_loops_refl|].
  unfold mbind, M_bind, get, Ruckig.on_ruckig, modify, throw. cbn [fst snd].
  destruct (Step2_get_profile _ _ _ _ _ _) as [[] pr];
    repeat split; cbn; by rewrite ?length_insert.
Qed.

(** The second loop, or nothing when [tf > 0.0] is false. *)
Lemma finalize_keeps input loc limiting_dof s :
  Kept.by_loops s
    ((if 0 <? Ruckig.tf s.1
      then Ruckig.for_dofs (finalize_dof input loc limiting_dof) (seq 0 DOFs) tt
      else mret tt) s).2.
Proof.
  destruct (0 <? _).
  - apply for_dofs_keeps. intros dof []. apply finalize_dof_keeps.
  - apply by_loops_refl.
Qed.

(** ** calculate and update: what a call leaves *)

(** What [calculate] leaves when it returns. *)
Lemma calculate_outcome r o input locals0 limiting_dof0 res r' o' :
  calculate input locals0 limiting_dof0 (r, o) = (Ret res, (r', o')) ->
  Ruckig.current_input r' = input
  /\ Ruckig.delta_time r' = Ruckig.delta_time r
  /\ new_position o' = new_position o
  /\ new_velocity o' = new_velocity o
  /\ new_acceleration o' = new_acceleration o
  /\ calculation_duration o' = calculation_duration o
  /\ if Ruckig.validate_input DOFs input
     then res = Working /\ Ruckig.t r' = 0 /\ duration o' = Ruckig.tf r'
          /\ new_calculation o' = true
     else res = ErrorInvalidInput /\ Ruckig.t r' = Ruckig.t r /\ o' = o.
Proof.
  unfold Ruckig.calculate, mbind, M_bind, Ruckig.on_ruckig, Ruckig.on_output,
    modify, get, throw.
  cbn [fst snd]. destruct (Ruckig.validate_input DOFs input); cbn [negb].
  2: { by intros [= <- <- <-]. }
  set (s0 := (Ruckig.with_current_input r input, o)).
  pose proof (for_dofs_keeps (plan_dof input) (seq 0 DOFs) locals0 s0
                (plan_dof_keeps input)) as H1.
  destruct (Ruckig.for_dofs (plan_dof input) (seq 0 DOFs) locals0 s0)
    as [[loc|e] s1]; [|done]. cbn [snd] in H1.
  unfold Ruckig.call_synchronize.
  destruct (Ruckig.synchronize DOFs (Ruckig.blocks loc) (minimum_duration input) _)
    as [[found|e] refs]; [|done].
  cbn [fst snd negb]. destruct found; [|done]. cbn [negb].
  set (s2 := (Ruckig.with_profiles _ _, s1.2)).
  pose proof (finalize_keeps input loc (Ruckig.limiting_dof refs) s2) as H3.
  set (run := (if 0 <? Ruckig.tf s2.1
               then Ruckig.for_dofs
                      (finalize_dof input loc (Ruckig.limiting_dof refs))
                      (seq 0 DOFs) tt
               else mret tt) s2) in *.
  clearbody run.
  destruct run as [[[]|e] s3]; [|done].
  intros [= <- <- <-].
  destruct H1 as (Hci & Ht & Htf & Hd & _ & Hp & Hv & Ha & Hdu & Hn & Hc & _).
  destruct H3 as (Hci3 & Ht3 & Htf3 & Hd3 & _ & Hp3 & Hv3 & Ha3 & Hdu3 & Hn3 & Hc3 & _).
  cbn in *. repeat split; congruence.
Qed.

(** Whatever its outcome, [calculate] leaves the input it was given in
    the cache. *)
Lemma calculate_caches_input r o input locals0 limiting_dof0 :
  Ruckig.current_input (calculate input locals0 limiting_dof0 (r, o)).2.1 = input.
Proof.
  unfold Ruckig.calculate, mbind, M_bind, Ruckig.on_ruckig, Ruckig.on_output,
    modify, get, throw.
  cbn [fst snd]. destruct (Ruckig.validate_input DOFs input); cbn [negb]; [|done].
  set (s0 := (Ruckig.with_current_input r input, o)).
  pose proof (for_dofs_keeps (plan_dof input) (seq 0 DOFs) locals0 s0
                (plan_dof_keeps input)) as H1.
  destruct (Ruckig.for_dofs (plan_dof input) (seq 0 DOFs) locals0 s0)
    as [[loc|e] s1]; cbn [snd] in H1; [|exact (proj1 H1)].
  unfold Ruckig.call_synchronize.
  destruct (Ruckig.synchronize DOFs (Ruckig.blocks loc) (minimum_duration input) _)
    as [[found|e] refs]; [|exact (proj1 H1)].
  cbn [fst snd negb]. destruct found; [|exact (proj1 H1)]. cbn [negb].
  set (s2 := (Ruckig.with_profiles _ _, s1.2)).
  pose proof (finalize_keeps input loc (Ruckig.limiting_dof refs) s2) as H3.
  set (run := (if 0 <? Ruckig.tf s2.1
               then Ruckig.for_dofs
                      (finalize_dof input loc (Ruckig.limiting_dof refs))
                      (seq 0 DOFs) tt
               else mret tt) s2) in *.
  clearbody run.
  destruct run as [out3 s3].
  destruct H3 as (Hci3 & _). cbn [snd fst] in Hci3.
  destruct out3 as [[]|e];
    (transitivity (Ruckig.current_input s3.1);
     [reflexivity|rewrite Hci3; exact (proj1 H1)]).
Qed.

(** X15.  What [calculate] leaves when it returns.  The cached input is
    the input it was given and the kinematic arrays of the output are
    untouched: [calculate] does not sample.  For a valid input the result
    is [Working], the clock [t] is 0, [output.duration] is the duration
    [tf] and [output.new_calculation] is true; for an invalid one the
    result is [ErrorInvalidInput], and the clock and the output structure
    are as before.  No other [Result] is returned. *)
Theorem calculate_returns r o input locals0 limiting_dof0 res r' o' :
  calculate input locals0 limiting_dof0 (r, o) = (Ret res, (r', o')) ->
  Ruckig.current_input r' = input
  /\ Ruckig.delta_time r' = Ruckig.delta_time r
  /\ new_position o' = new_position o
  /\ new_velocity o' = new_velocity o
  /\ new_acceleration o' = new_acceleration o
  /\ calculation_duration o' = calculation_duration o
  /\ if Ruckig.validate_input DOFs input
     then res = Working /\ Ruckig.t r' = 0 /\ duration o' = Ruckig.tf r'
          /\ new_calculation o' = true
     else res = ErrorInvalidInput /\ Ruckig.t r' = Ruckig.t r /\ o' = o.
Proof. apply calculate_outcome. Qed.

(** X17.  The cycle that plans samples the new trajectory at time 0, not
    at [delta_time].  When the input differs from the cached one and
    [calculate] returns [Working], [update] outputs the sample of the new
    plan at the clock [calculate] has reset, with [new_calculation] true,
    [duration] the new [tf] and [calculation_duration] the measured time;
    it returns [Finished] if [0 + delta_time > tf] and otherwise moves the
    cached current state to the sample and returns [Working]. *)
Theorem update_planning_cycle r o input locals0 limiting_dof0 elapsed rc oc :
  input_neq input (Ruckig.current_input r) = true ->
  calculate input locals0 limiting_dof0 (Claim.advanced r, with_new_calculation o false)
  = (Ret Working, (rc, oc)) ->
  let o' := with_calculation_duration (Ruckig.at_time DOFs rc 0 oc) elapsed in
  update input locals0 limiting_dof0 elapsed (r, o)
  = (if Ruckig.tf rc <? 0 + Ruckig.delta_time r
     then (Ret Finished, (rc, o'))
     else (Ret Working, (Claim.moved_to rc o', o')))
  /\ Ruckig.t rc = 0
  /\ new_calculation o' = true
  /\ duration o' = Ruckig.tf rc
  /\ calculation_duration o' = elapsed.
Proof.
  intros Hneq Hcalc o'.
  destruct (calculate_outcome _ _ _ _ _ _ _ _ Hcalc)
    as (_ & Hd & _ & _ & _ & _ & Hres).
  destruct (Ruckig.validate_input DOFs input);
    [destruct Hres as (_ & Ht & Hdur & Hnew)|by destruct Hres].
  destruct (at_time_scalars DOFs rc 0 oc) as (Hdur' & Hnew' & _).
  split; [|split; [done|split; [|split]]].
  - unfold Ruckig.update, mbind, M_bind, Ruckig.on_ruckig, Ruckig.on_output, modify, get.
    cbn [fst snd Ruckig.with_t Ruckig.current_input]. rewrite Hneq.
    unfold Claim.advanced in Hcalc. rewrite Hcalc.
    cbn [mret M_ret fst snd Ruckig.is_Working negb]. rewrite Ht, Hd.
    fold o'. cbn [Ruckig.delta_time Claim.advanced Ruckig.with_t].
    destruct (_ <? _); reflexivity.
  - unfold o'. cbn [new_calculation with_calculation_duration]. congruence.
  - unfold o'. cbn [duration with_calculation_duration]. congruence.
  - reflexivity.
Qed.

(** X18.  An invalid input is reported once.  The [update] that is given
    an invalid input that differs from the cached one returns [Error], with
    the clock advanced, [new_calculation] false and the rejected input
    cached.  The next [update] with the same input (which equals itself:
    it holds no NaN) finds it in the cache, does not validate it again, and
    returns [Working] or [Finished] with a sample of the plan the object
    held before. *)
Theorem update_invalid_input_reported_once
    r o input locals0 limiting_dof0 elapsed0 locals1 limiting_dof1 elapsed1 :
  input_neq input (Ruckig.current_input r) = true ->
  Ruckig.validate_input DOFs input = false ->
  input_neq input input = false ->
  let r1 := Ruckig.with_current_input (Claim.advanced r) input in
  let o1 := with_new_calculation o false in
  update input locals0 limiting_dof0 elapsed0 (r, o) = (Ret Error, (r1, o1))
  /\ exists res s2,
       update input locals1 limiting_dof1 elapsed1 (r1, o1) = (Ret res, s2)
       /\ (res = Working \/ res = Finished)
       /\ Ruckig.profiles s2.1 = Ruckig.profiles r
       /\ Ruckig.tf s2.1 = Ruckig.tf r
       /\ new_calculation s2.2 = false.
Proof.
  intros Hneq Hbad Hsame r1 o1. split.
  - unfold Ruckig.update, Ruckig.calculate, mbind, M_bind, Ruckig.on_ruckig,
      Ruckig.on_output, modify, get.
    cbn [fst snd Ruckig.with_t Ruckig.current_input]. by rewrite Hneq, Hbad.
  - rewrite update_without_planning by done.
    destruct (at_time_scalars DOFs (Claim.advanced r1) (Ruckig.t (Claim.advanced r1))
                (with_new_calculation o1 false)) as (_ & Hnew & _).
    destruct (_ <? _); eexists _, _; (split; [reflexivity|]); (split; [auto|]);
      by repeat split.
Qed.

(** X19.  A planning failure is not retried.  When an exception leaves
    [update], the input that caused it is already cached; the next
    [update] with the same input (which equals itself) does not plan:
    it returns [Working] or [Finished] with a sample of whatever profiles
    and duration the failed call left behind, and [new_calculation]
    false. *)
Theorem update_exception_not_retried
    r o input locals0 limiting_dof0 elapsed0 e r1 o1 locals1 limiting_dof1 elapsed1 :
  update input locals0 limiting_dof0 elapsed0 (r, o) = (Throw e, (r1, o1)) ->
  input_neq input input = false ->
  Ruckig.current_input r1 = input
  /\ exists res s2,
       update input locals1 limiting_dof1 elapsed1 (r1, o1) = (Ret res, s2)
       /\ (res = Working \/ res = Finished)
       /\ Ruckig.profiles s2.1 = Ruckig.profiles r1
       /\ Ruckig.tf s2.1 = Ruckig.tf r1
       /\ new_calculation s2.2 = false.
Proof.
  intros Hrun Hsame.
  assert (Ruckig.current_input r1 = input) as Hcache.
  { revert Hrun.
    unfold Ruckig.update, mbind, M_bind, Ruckig.on_ruckig, Ruckig.on_output, modify, get.
    cbn [fst snd Ruckig.current_input Ruckig.with_t].
    destruct (input_neq input (Ruckig.current_input r)).
    - pose proof (calculate_caches_input
                    (Ruckig.with_t r (Ruckig.t r + Ruckig.delta_time r))
                    (with_new_calculation o false) input locals0 limiting_dof0) as Hc.
      destruct (calculate _ _ _ _) as [[res|e'] [r2 o2]]; cbn [fst snd] in Hc.
      + cbn [mret M_ret]. destruct (negb (Ruckig.is_Working res)); [done|].
        by destruct (_ <? _).
      + by intros [= _ <- _].
    - cbn [mret M_ret]. by destruct (_ <? _). }
  split; [done|].
  rewrite update_without_planning by (by rewrite Hcache).
  destruct (at_time_scalars DOFs (Claim.advanced r1) (Ruckig.t (Claim.advanced r1))
              (with_new_calculation o1 false)) as (_ & Hnew & _).
  destruct (_ <? _); eexists _, _; (split; [reflexivity|]); (split; [auto|]);
    by repeat split.
Qed.

End Loops.

(** X16.  An object without axes cannot plan.  For [DOFs = 0] every input
    is valid, the loops over the axes do nothing, and [synchronize], with
    no candidate to examine, returns false: [calculate] throws the
    [std::runtime_error] of the time synchronization for every input, with
    the input cached and the output untouched. *)
Theorem calculate_without_axes_throws solvers input locals0 limiting_dof0 r o :
  Ruckig.validate_input 0 input = true
  /\ Ruckig.calculate 0 solvers input locals0 limiting_dof0 (r, o)
     = (Throw (runtime_error in_synchronization),
        (Ruckig.with_current_input r input, o)).
Proof. by split. Qed.

(** The first loop for the single axis of the rest-to-rest move. *)
Lemma plan_loop_records_witness :
  Axis.planned Scenario.solvers (Scenario.rest_to_rest None) 0
    (Ruckig.profiles (Scenario.fresh, Scenario.output0).1 !!! 0)
  = Some (Axis.view Scenario.step1_state Scenario.step1_locals 0).
Proof.
  refine (plan_loop_records 1 Scenario.solvers (Scenario.rest_to_rest None)
            Scenario.locals0 (Scenario.fresh, Scenario.output0)
            Scenario.step1_locals Scenario.step1_state 0 _ _ _).
  - vm_compute. by repeat split.
  - lia.
  - vm_compute; reflexivity.
Defined.

(** The second loop for two axes: the duration stays at 4. *)
Lemma finalize_loop_records_witness :
  Ruckig.tf Scenario.finalized_pair.1 = Ruckig.tf Scenario.synchronized_pair.1.
Proof.
  refine (proj1 (finalize_loop_records 2 Scenario.solvers_with_brake
                   Scenario.rest_to_rest_twice Scenario.locals0_pair 0
                   Scenario.synchronized_pair Scenario.finalized_pair 1 _ _ _)).
  - reflexivity.
  - lia.
  - vm_compute; reflexivity.
Defined.

(** The rest-to-rest move planned on the fresh object. *)
Lemma calculate_returns_witness :
  Ruckig.current_input Scenario.calculated.1 = Scenario.rest_to_rest None.
Proof.
  refine (proj1 (calculate_returns 1 Scenario.solvers Scenario.fresh Scenario.output0
                   (Scenario.rest_to_rest None) Scenario.locals0 0 Working
                   Scenario.calculated.1 Scenario.calculated.2 _)).
  vm_compute; reflexivity.
Defined.

(** The first cycle of the rest-to-rest move: the clock is at 0 after it. *)
Lemma update_planning_cycle_witness : Ruckig.t Scenario.replanned.1 = 0%float.
Proof.
  refine (proj1 (proj2 (update_planning_cycle 1 Scenario.solvers Scenario.fresh
                          Scenario.output0 (Scenario.rest_to_rest None)
                          Scenario.locals0 0 0 Scenario.replanned.1
                          Scenario.replanned.2 _ _)));
    vm_compute; reflexivity.
Defined.

(** The move under a velocity limit of zero, asked for on the fresh
    object. *)
Lemma update_invalid_input_reported_once_witness :
  Ruckig.update 1 Scenario.solvers Scenario.invalid_input Scenario.locals0 0 0
    (Scenario.fresh, Scenario.output0)
  = (Ret Error,
     (Ruckig.with_current_input (Claim.advanced Scenario.fresh) Scenario.invalid_input,
      with_new_calculation Scenario.output0 false)).
Proof.
  refine (proj1 (update_invalid_input_reported_once 1 Scenario.solvers Scenario.fresh
                   Scenario.output0 Scenario.invalid_input Scenario.locals0 0 0
                   Scenario.locals0 0 0 _ _ _));
    vm_compute; reflexivity.
Defined.

(** Boundary scenario 6: the input is cached when the exception leaves
    [update]. *)
Lemma update_exception_not_retried_witness :
  Ruckig.current_input Scenario.thrown.1 = Scenario.rest_to_rest (Some 10%float).
Proof.
  refine (proj1 (update_exception_not_retried 1 Scenario.solvers Scenario.fresh
                   Scenario.output0 (Scenario.rest_to_rest (Some 10%float))
                   Scenario.locals0 0 0 bad_optional_access Scenario.thrown.1
                   Scenario.thrown.2 Scenario.locals0 0 0 _ _));
    vm_compute; reflexivity.
Defined.

(** ** at_time: the brake prefix, the segment looked up, and the end of a
    checked profile *)

Section Segments.
Context (DOFs : nat).
Implicit Types (r : Ruckig.Ruckig) (o : OutputParameter) (time : float).
Local Open Scope float_scope.

(** X20.  Within the plan and within the brake prefix of an axis
    ([time < t_brake]), [at_time] outputs for the axis the brake segment
    integrated from the state recorded for it: segment 0 over [time] if
    [time < t_brakes[0]], and otherwise segment 1 over
    [time - t_brakes[0]]; the seven-segment profile is not read. *)
Theorem at_time_brake_phase r time o dof t_brake :
  Sample.sized DOFs o -> (dof < DOFs)%nat ->
  (Ruckig.tf r <? time + Ruckig.delta_time r) = false ->
  let p := Ruckig.profiles r !!! dof in
  Profile.t_brake p = Some t_brake -> (time <? t_brake) = true ->
  Sample.kinematics (Ruckig.at_time DOFs r time o) dof
  = if time <? Profile.t_brakes p !!! 0%nat
    then Profile.integrate time (Profile.p_brakes p !!! 0%nat)
           (Profile.v_brakes p !!! 0%nat) (Profile.a_brakes p !!! 0%nat)
           (Profile.j_brakes p !!! 0%nat)
    else Profile.integrate (time - Profile.t_brakes p !!! 0%nat)
           (Profile.p_brakes p !!! 1%nat) (Profile.v_brakes p !!! 1%nat)
           (Profile.a_brakes p !!! 1%nat) (Profile.j_brakes p !!! 1%nat).
Proof.
  intros Ho Hdof Hin p Hb Hlt.
  rewrite (at_time_within_reads_profile DOFs) by done. fold p.
  unfold Sample.of_profile, Sample.past_brake. rewrite Hb, Hlt.
  destruct (time <? Profile.t_brakes p !!! 0%nat); reflexivity.
Qed.

(** The loop of [std::upper_bound] ends: with [len] steps or more it gives
    the same position. *)
Lemma bisect_unfold steps l x first len :
  Ruckig.bisect (S steps) l x first (S len)
  = if x <? l !!! (first + S len / 2)%nat
    then Ruckig.bisect steps l x first (S len / 2)
    else Ruckig.bisect steps l x (S (first + S len / 2)) (S len - S len / 2 - 1).
Proof. reflexivity. Qed.

Lemma half_lt len : (S len / 2 < S len)%nat.
Proof. apply Nat.div_lt; lia. Qed.

Lemma bisect_enough steps steps' l x first len :
  (len <= steps)%nat -> (len <= steps')%nat ->
  Ruckig.bisect steps l x first len = Ruckig.bisect steps' l x first len.
Proof.
  revert steps' first len. induction steps as [|steps IH]; intros steps' first len H H'.
  - replace len with 0%nat by lia. by destruct steps'.
  - destruct len as [|len]; [by destruct steps'|].
    destruct steps' as [|steps']; [lia|].
    rewrite !bisect_unfold. pose proof (half_lt len).
    destruct (_ <? _); apply IH; lia.
Qed.

(** The position it gives is within the range or at its end. *)
Lemma bisect_range steps l x first len :
  (len <= steps)%nat ->
  (first <= Ruckig.bisect steps l x first len <= first + len)%nat.
Proof.
  revert first len. induction steps as [|steps IH]; intros first len H.
  - cbn. lia.
  - destruct len as [|len]; [cbn; lia|].
    rewrite bisect_unfold. pose proof (half_lt len).
    destruct (_ <? _).
    + specialize (IH first (S len / 2)%nat). lia.
    + specialize (IH (S (first + S len / 2)) (S len - S len / 2 - 1)%nat). lia.
Qed.

(** On a range partitioned with respect to [x] it gives the partition
    point. *)
Lemma bisect_partition steps l x first len :
  (len <= steps)%nat ->
  (forall i j, (first <= i)%nat -> (i <= j)%nat -> (j < first + len)%nat ->
     (x <? l !!! i) = true -> (x <? l !!! j) = true) ->
  let index := Ruckig.bisect steps l x first len in
  (forall k, (first <= k < index)%nat -> (x <? l !!! k) = false)
  /\ (forall k, (index <= k < first + len)%nat -> (x <? l !!! k) = true).
Proof.
  revert first len. induction steps as [|steps IH]; intros first len H Hpart.
  - replace len with 0%nat by lia. cbn. split; intros; lia.
  - destruct len as [|len]; [cbn; split; intros; lia|].
    rewrite bisect_unfold. pose proof (half_lt len).
    destruct (x <? l !!! (first + S len / 2)%nat) eqn:Hmid; cbv zeta.
    + destruct (IH first (S len / 2)%nat) as [Hlow Hhigh]; [lia| |].
      { intros i j ? ? ?. apply Hpart; lia. }
      split; [done|]. intros k Hk.
      destruct (decide (k < first + S len / 2)%nat); [apply Hhigh; lia|].
      apply (Hpart (first + S len / 2)%nat k); (lia || done).
    + destruct (IH (S (first + S len / 2)) (S len - S len / 2 - 1)%nat)
        as [Hlow Hhigh]; [lia| |].
      { intros i j ? ? ?. apply Hpart; lia. }
      split; [|intros k Hk; apply Hhigh; lia].
      intros k Hk.
      destruct (decide (k <= first + S len / 2)%nat); [|apply Hlow; lia].
      destruct (x <? l !!! k) eqn:Hxk; [|done].
      rewrite (Hpart k (first + S len / 2)%nat) in Hmid; (lia || done).
Qed.

Lemma ascending_lookup l i j :
  Sample.ascending l = true -> (i <= j)%nat -> (j < length l)%nat ->
  (l !!! i <=? l !!! j) = true.
Proof.
  unfold Sample.ascending. rewrite forallb_forall. intros Hall Hij Hj.
  specialize (Hall i). rewrite forallb_forall in Hall.
  apply Hall; apply in_seq; lia.
Qed.

(** An ascending range is partitioned with respect to any value: there
    [std::upper_bound] gives the first position whose element is greater
    than the value. *)
Lemma upper_bound_ascending l x :
  Sample.ascending l = true ->
  let index := Ruckig.upper_bound l x in
  (index <= length l)%nat
  /\ (forall k, (k < index)%nat -> (x <? l !!! k) = false)
  /\ (forall k, (index <= k < length l)%nat -> (x <? l !!! k) = true).
Proof.
  intros Hasc. unfold Ruckig.upper_bound.
  pose proof (bisect_range (length l) l x 0 (length l) ltac:(lia)) as Hrange.
  destruct (bisect_partition (length l) l x 0 (length l)) as [Hlow Hhigh]; [lia| |].
  { intros i j _ Hij Hj Hxi. eapply ltb_leb_trans; [exact Hxi|].
    apply ascending_lookup; (done || lia). }
  cbv zeta. split; [lia|]. split; [intros k Hk; apply Hlow; lia|].
  intros k Hk. apply Hhigh. lia.
Qed.

(** X21.  The segment [at_time] looks up, for a profile whose [t_sum] is
    in ascending order.  Within the plan, past the brake prefix and before
    the end of the profile ([t_diff >= t_sum[6]] is false, [t_diff] not a
    NaN), the index found by [std::upper_bound] is at most 6, so that the
    reads of [p], [v], [a] and [j] at that index are within the arrays;
    [t_sum[index]] is the first entry of [t_sum] greater than [t_diff]; and
    the output of the axis is segment [index] integrated over the time
    since [t_sum[index - 1]] (since 0 for the first segment). *)
Theorem at_time_segment_in_range r time o dof t_diff :
  Sample.sized DOFs o -> (dof < DOFs)%nat ->
  (Ruckig.tf r <? time + Ruckig.delta_time r) = false ->
  let p := Ruckig.profiles r !!! dof in
  length (Profile.t_sum p) = 7%nat ->
  Sample.ascending (Profile.t_sum p) = true ->
  Sample.past_brake p time = Some t_diff ->
  (Profile.t_sum p !!! 6%nat <=? t_diff) = false ->
  is_nan t_diff = false ->
  let index := Ruckig.upper_bound (Profile.t_sum p) t_diff in
  (index <= 6)%nat
  /\ (t_diff <? Profile.t_sum p !!! index) = true
  /\ (forall k, (k < index)%nat -> (t_diff <? Profile.t_sum p !!! k) = false)
  /\ Sample.kinematics (Ruckig.at_time DOFs r time o) dof
     = Profile.integrate
         (if (0 <? index)%nat then t_diff - Profile.t_sum p !!! (index - 1)%nat
          else t_diff)
         (Profile.p p !!! index) (Profile.v p !!! index) (Profile.a p !!! index)
         (Profile.j p !!! index).
Proof.
  intros Ho Hdof Hin p Hlen Hasc Hpast Hend Hnan index.
  destruct (upper_bound_ascending (Profile.t_sum p) t_diff Hasc)
    as (Hle & Hbefore & Hfrom).
  fold index in Hle, Hbefore, Hfrom. rewrite Hlen in Hle, Hfrom.
  assert (is_nan (Profile.t_sum p !!! 6%nat) = false) as Hnan6.
  { apply (leb_not_nan (Profile.t_sum p !!! 6%nat) (Profile.t_sum p !!! 6%nat)).
    apply ascending_lookup; (done || lia). }
  assert (index <= 6)%nat as Hindex.
  { destruct (decide (index <= 6)%nat) as [|Hgt]; [done|].
    assert ((t_diff <? Profile.t_sum p !!! 6%nat) = true) as Hlt
      by (rewrite ltb_negb_leb, Hend by done; done).
    rewrite (Hbefore 6%nat) in Hlt by lia. done. }
  split; [done|]. split; [apply Hfrom; lia|]. split; [done|].
  rewrite (at_time_within_reads_profile DOFs) by done. fold p.
  unfold Sample.of_profile. by rewrite Hpast, Hend.
Qed.

(** X22.  A profile accepted by [check] ends at the target it was checked
    against.  If the profile of an axis is the one a call of [check] left
    and accepted, then within the plan, past the brake prefix and from the
    end of the profile on ([t_diff >= t_sum[6]]), the position, velocity
    and acceleration [at_time] outputs for the axis lie within [1e-8] of
    the [pf], [vf] and [af] of that call. *)
Theorem checked_profile_ends_at_target
    r time o dof t_diff tth pf vf af jf vMax aMax pr0 :
  Sample.sized DOFs o -> (dof < DOFs)%nat ->
  (Ruckig.tf r <? time + Ruckig.delta_time r) = false ->
  let p := Ruckig.profiles r !!! dof in
  Profile.check tth pf vf af jf vMax aMax pr0 = (true, p) ->
  Sample.past_brake p time = Some t_diff ->
  (Profile.t_sum p !!! 6%nat <=? t_diff) = true ->
  let o' := Ruckig.at_time DOFs r time o in
  (abs (new_position o' !!! dof - pf) <? 1e-8) = true
  /\ (abs (new_velocity o' !!! dof - vf) <? 1e-8) = true
  /\ (abs (new_acceleration o' !!! dof - af) <? 1e-8) = true.
Proof.
  intros Ho Hdof Hin p Hcheck Hpast Hend o'.
  pose proof (at_time_within_reads_profile DOFs r time o dof Ho Hdof Hin) as Hk.
  fold p o' in Hk. unfold Sample.of_profile in Hk. rewrite Hpast, Hend in Hk.
  injection Hk as -> -> ->.
  rewrite check_runs in Hcheck.
  destruct (Feasible.no_negative (Profile.t pr0)); [|done].
  apply pair_equal_spec in Hcheck as [Hwithin Hp]. rewrite Hp in Hwithin.
  unfold Profile.within_limits in Hwithin.
  by repeat (apply andb_prop in Hwithin as [Hwithin ?]).
Qed.

End Segments.

(** A quarter of a second into the brake prefix of 0.75 s: the axis is on
    the first brake segment, from the current state (0, 2, 0) at jerk -1. *)
Lemma at_time_brake_phase_witness :
  Sample.kinematics (Ruckig.at_time 1 Scenario.braking 0.25 Scenario.output0) 0
  = Profile.integrate 0.25 0 2 0 (-1).
Proof.
  refine (at_time_brake_phase 1 Scenario.braking 0.25 Scenario.output0 0 0.75
            _ _ _ _ _).
  - vm_compute. by repeat split.
  - lia.
  - vm_compute; reflexivity.
  - vm_compute; reflexivity.
  - vm_compute; reflexivity.
Defined.

(** One second into the rest-to-rest move of 3.17 s, whose [t_sum] is
    ascending: the second of its seven segments and none beyond the
    array. *)
Lemma at_time_segment_in_range_witness :
  (Ruckig.upper_bound
     (Profile.t_sum (Ruckig.profiles Scenario.planned !!! 0%nat)) 1 <= 6)%nat.
Proof.
  refine (proj1 (at_time_segment_in_range 1 Scenario.planned 1 Scenario.output0 0 1
                   _ _ _ _ _ _ _ _)).
  - vm_compute. by repeat split.
  - lia.
  - vm_compute; reflexivity.
  - vm_compute; reflexivity.
  - vm_compute; reflexivity.
  - vm_compute; reflexivity.
  - vm_compute; reflexivity.
  - vm_compute; reflexivity.
Defined.

(** At 4.0 of 5.0 the axis, whose checked profile lasts 3.17, is within
    1e-8 of the target position 1. *)
Lemma checked_profile_ends_at_target_witness :
  (abs (new_position (Ruckig.at_time 1 Scenario.planned_longer 4 Scenario.output0)
          !!! 0%nat - 1) <? 1e-8)%float = true.
Proof.
  refine (proj1 (checked_profile_ends_at_target 1 Scenario.planned_longer 4
                   Scenario.output0 0 4 Profile.UDDU 1 0 0 1 1 1
                   (Scenario.rest_candidate
                      (Ruckig.profiles Scenario.planned_longer !!! 0%nat))
                   _ _ _ _ _ _)).
  - vm_compute. by repeat split.
  - lia.
  - vm_compute; reflexivity.
  - vm_compute; reflexivity.
  - vm_compute; reflexivity.
  - vm_compute; reflexivity.
Defined.
